(** * sopa-server: a shallow embedding of [sopa_server.c]

    The server is a single [select] loop over two intrusive singly linked
    lists of [struct client] records (readers and writers).  The embedding
    keeps the pointer structure of the C code: records live in a heap
    indexed by addresses, [struct client **prev] is a location (one of the
    two list heads or the [next] field of a record), and every C statement
    that touches the lists is one heap update.

    The operating system is part of the state: the wall clock, the queue of
    pending connections of the listening socket, for every descriptor the
    data that [read] will deliver and the number of bytes [write] will take,
    and a record of everything that was written and closed. *)

From Stdlib Require Import ZArith List Lia.
From Stdlib Require Import Strings.Byte.
From stdpp Require Import base option list gmap.

Local Open Scope Z_scope.

(** ** Constants of the program *)

Definition HTTP_TIMEOUT : Z := 5.
Definition HTTP_BUFSIZE : nat := 64.
Definition INT_MAX : Z := 2147483647.
Definition UINT_MODULUS : Z := 2 ^ 32.

#[global] Instance byte_eq_dec : EqDecision byte := Byte.byte_eq_dec.

(** ** Data *)

Definition ptr := positive.

(** [struct client] *)
Record client := Client {
  fd : Z;
  state : Z;
  next : option ptr;
  last : Z;
  write_ofs : Z
}.

Definition set_fd (v : Z) (c : client) : client :=
  Client v (state c) (next c) (last c) (write_ofs c).
Definition set_state (v : Z) (c : client) : client :=
  Client (fd c) v (next c) (last c) (write_ofs c).
Definition set_next (v : option ptr) (c : client) : client :=
  Client (fd c) (state c) v (last c) (write_ofs c).
Definition set_last (v : Z) (c : client) : client :=
  Client (fd c) (state c) (next c) v (write_ofs c).
Definition set_write_ofs (v : Z) (c : client) : client :=
  Client (fd c) (state c) (next c) (last c) v.

(** The operating system as the program sees it.
    - [clock]: what [time] returns;
    - [backlog]: descriptors that successive [accept] calls will return
      (empty: [accept] fails with [EAGAIN]);
    - [inbound]: per descriptor, the data that is or will be readable, in
      arrival order; an empty chunk is end of stream;
    - [capacity]: per descriptor, how many bytes each successive [write]
      is able to take (negative: the call fails);
    - [sent]: per descriptor, everything [write] has transmitted;
    - [closed]: the descriptors passed to [close], latest first;
    - [stderr]: the lines printed by [log_info], latest first. *)
Inductive log_line :=
  | log_new_client (d : Z)          (* "new client fd %d" *)
  | log_closing_errno (d : Z)       (* "closing fd %d:%s" with [strerror] *)
  | log_closing_completed (d : Z)   (* "closing fd %d:completed" *)
  | log_closing_timeout (d : Z)     (* "closing fd %d, timeout" *)
  | log_closing_disconnect (d : Z). (* "closing fd %d, disconnect" *)

Record os := Os {
  clock : Z;
  backlog : list Z;
  inbound : gmap Z (list (list byte));
  capacity : gmap Z (list Z);
  sent : gmap Z (list byte);
  closed : list Z;
  stderr : list log_line
}.

(** The globals of the program, the allocated records and the system.
    [hdr] and [msg] are the response buffers; [hdr_len] and [msg_len] are
    their lengths. *)
Record world := World {
  heap : gmap ptr client;
  reader_head : option ptr;
  writer_head : option ptr;
  fd_max : Z;
  youngest : Z;
  rfds : gset Z;
  wfds : gset Z;
  hdr : list byte;
  msg : list byte;
  sys : os
}.

Definition with_heap (f : gmap ptr client → gmap ptr client) (w : world) :=
  World (f (heap w)) (reader_head w) (writer_head w) (fd_max w) (youngest w)
        (rfds w) (wfds w) (hdr w) (msg w) (sys w).
Definition with_reader_head (v : option ptr) (w : world) :=
  World (heap w) v (writer_head w) (fd_max w) (youngest w)
        (rfds w) (wfds w) (hdr w) (msg w) (sys w).
Definition with_writer_head (v : option ptr) (w : world) :=
  World (heap w) (reader_head w) v (fd_max w) (youngest w)
        (rfds w) (wfds w) (hdr w) (msg w) (sys w).
Definition with_fd_max (v : Z) (w : world) :=
  World (heap w) (reader_head w) (writer_head w) v (youngest w)
        (rfds w) (wfds w) (hdr w) (msg w) (sys w).
Definition with_youngest (v : Z) (w : world) :=
  World (heap w) (reader_head w) (writer_head w) (fd_max w) v
        (rfds w) (wfds w) (hdr w) (msg w) (sys w).
Definition with_rfds (f : gset Z → gset Z) (w : world) :=
  World (heap w) (reader_head w) (writer_head w) (fd_max w) (youngest w)
        (f (rfds w)) (wfds w) (hdr w) (msg w) (sys w).
Definition with_wfds (f : gset Z → gset Z) (w : world) :=
  World (heap w) (reader_head w) (writer_head w) (fd_max w) (youngest w)
        (rfds w) (f (wfds w)) (hdr w) (msg w) (sys w).
Definition with_sys (f : os → os) (w : world) :=
  World (heap w) (reader_head w) (writer_head w) (fd_max w) (youngest w)
        (rfds w) (wfds w) (hdr w) (msg w) (f (sys w)).

Definition with_clock (v : Z) (s : os) :=
  Os v (backlog s) (inbound s) (capacity s) (sent s) (closed s) (stderr s).
Definition with_backlog (v : list Z) (s : os) :=
  Os (clock s) v (inbound s) (capacity s) (sent s) (closed s) (stderr s).
Definition with_inbound
    (f : gmap Z (list (list byte)) → gmap Z (list (list byte))) (s : os) :=
  Os (clock s) (backlog s) (f (inbound s)) (capacity s) (sent s) (closed s)
     (stderr s).
Definition with_capacity (f : gmap Z (list Z) → gmap Z (list Z)) (s : os) :=
  Os (clock s) (backlog s) (inbound s) (f (capacity s)) (sent s) (closed s)
     (stderr s).
Definition with_sent (f : gmap Z (list byte) → gmap Z (list byte)) (s : os) :=
  Os (clock s) (backlog s) (inbound s) (capacity s) (f (sent s)) (closed s)
     (stderr s).
Definition with_closed (f : list Z → list Z) (s : os) :=
  Os (clock s) (backlog s) (inbound s) (capacity s) (sent s) (f (closed s))
     (stderr s).
Definition with_stderr (f : list log_line → list log_line) (s : os) :=
  Os (clock s) (backlog s) (inbound s) (capacity s) (sent s) (closed s)
     (f (stderr s)).

(** ** System calls *)

(** [time] *)
Definition sys_time (w : world) : Z := clock (sys w).

(** [close] *)
Definition sys_close (d : Z) (w : world) : world :=
  with_sys (with_closed (cons d)) w.

(** [log_info] *)
Definition log_info (l : log_line) (w : world) : world :=
  with_sys (with_stderr (cons l)) w.

(** What has been written to descriptor [d] so far. *)
Definition sent_on (d : Z) (w : world) : list byte :=
  default [] (sent (sys w) !! d).

(** [read(d, buf, count)]: the length returned and the bytes placed in the
    buffer.  With nothing to read the call fails ([EAGAIN], -1); at end of
    stream it returns 0; otherwise it delivers the first [count] bytes of
    the oldest chunk and leaves the remainder in the socket. *)
Definition sys_read (d : Z) (count : nat) (w : world) : Z * list byte * world :=
  match inbound (sys w) !! d with
  | None | Some [] => (-1, [], w)
  | Some ([] :: _) => (0, [], w)
  | Some (c :: q) =>
      let got := take count c in
      let q' := match drop count c with [] => q | r => r :: q end in
      (Z.of_nat (length got), got, with_sys (with_inbound <[d := q']>) w)
  end.

(** [write(d, data, length data)]: the transport takes as many bytes as it
    currently can, never more than requested; a negative capacity, or a
    transport with nothing left to say, is a failed call. *)
Definition sys_write (d : Z) (data : list byte) (w : world) : Z * world :=
  match capacity (sys w) !! d with
  | None | Some [] => (-1, w)
  | Some (c :: q) =>
      if decide (c < 0) then (-1, with_sys (with_capacity <[d := q]>) w)
      else
        let n := Z.to_nat (Z.min c (Z.of_nat (length data))) in
        (Z.of_nat n,
         with_sys (with_sent <[d := sent_on d w ++ take n data]>)
           (with_sys (with_capacity <[d := q]>) w))
  end.

(** [accept]: the next pending connection, or -1 ([EAGAIN]). *)
Definition sys_accept (w : world) : Z * world :=
  match backlog (sys w) with
  | [] => (-1, w)
  | d :: q => (d, with_sys (with_backlog q) w)
  end.

(** [calloc]: an address that is not in use. *)
Definition calloc (w : world) : ptr := fresh (dom (heap w)).

(** ** Pointers into the lists *)

(** A [struct client **]: the address of one of the two heads or of the
    [next] field of a record. *)
Inductive loc :=
  | reader_head_loc
  | writer_head_loc
  | next_loc (p : ptr).

(** A [fd_set *]: the address of [rfds] or of [wfds]. *)
Inductive fdset_ptr := rfds_ptr | wfds_ptr.

Definition FD_ISSET (d : Z) (s : fdset_ptr) (w : world) : bool :=
  match s with
  | rfds_ptr => bool_decide (d ∈ rfds w)
  | wfds_ptr => bool_decide (d ∈ wfds w)
  end.
Definition FD_SET (d : Z) (s : fdset_ptr) (w : world) : world :=
  match s with
  | rfds_ptr => with_rfds (λ x, x ∪ {[d]}) w
  | wfds_ptr => with_wfds (λ x, x ∪ {[d]}) w
  end.
Definition FD_CLR (d : Z) (s : fdset_ptr) (w : world) : world :=
  match s with
  | rfds_ptr => with_rfds (λ x, x ∖ {[d]}) w
  | wfds_ptr => with_wfds (λ x, x ∖ {[d]}) w
  end.

(** Reading a field of the record at [p]; [None] is an access to memory
    that is not allocated. *)
Definition deref (p : ptr) (w : world) : option client := heap w !! p.

(** Writing a field of the record at [p]. *)
Definition upd (p : ptr) (f : client → client) (w : world) : option world :=
  c ← deref p w; Some (with_heap <[p := f c]> w).

(** [*l] *)
Definition load (l : loc) (w : world) : option (option ptr) :=
  match l with
  | reader_head_loc => Some (reader_head w)
  | writer_head_loc => Some (writer_head w)
  | next_loc p => next <$> deref p w
  end.

(** [*l = v] *)
Definition store (l : loc) (v : option ptr) (w : world) : option world :=
  match l with
  | reader_head_loc => Some (with_reader_head v w)
  | writer_head_loc => Some (with_writer_head v w)
  | next_loc p => upd p (set_next v) w
  end.

(** A failed [assert] aborts the program. *)
Definition assert (b : bool) : option unit := if b then Some tt else None.

(** ** The functions of the program *)

(** [client_free]: unlink the record at [*prev], close its descriptor, drop
    it from both interest sets and release it. *)
Definition client_free (cl : ptr) (prev : loc) (w : world) : option world :=
  p ← load prev w;
  _ ← assert (bool_decide (p = Some cl));
  c ← deref cl w;
  _ ← assert (bool_decide (fd c ≠ -1));
  w ← store prev (next c) w;
  w ← upd cl (set_next None) w;
  c ← deref cl w;
  let w := sys_close (fd c) w in
  let w := FD_CLR (fd c) rfds_ptr w in
  let w := FD_CLR (fd c) wfds_ptr w in
  Some (with_heap (delete cl) w).

(** [client_accept]: one [accept]; a new record goes to the front of the
    reader list.  A failed [accept] is taken to be [EAGAIN], the only
    failure after which the process goes on. *)
Definition client_accept (w : world) : option world :=
  let '(newfd, w) := sys_accept w in
  if decide (newfd < 0) then Some w
  else
    let w := log_info (log_new_client newfd) w in
    let new := calloc w in
    let c := Client newfd 0 (reader_head w) (sys_time w) 0 in
    let w := with_heap <[new := c]> w in
    let w := with_reader_head (Some new) w in
    let w := FD_SET newfd rfds_ptr w in
    let w := if decide (newfd > fd_max w) then with_fd_max newfd w else w in
    _ ← assert (bool_decide (Some new ≠ next c));
    Some w.

(** [client_write]: one [write] from the current buffer at [write_ofs].
    Returns 0 when the connection is to be closed. *)
Definition client_write (cl : ptr) (prev : loc) (w : world) : option (Z * world) :=
  c ← deref cl w;
  let sel := match state c with
             | 0 => Some (hdr w)
             | 1 => Some (msg w)
             | _ => None
             end in
  match sel with
  | None => Some (0, log_info (log_closing_completed (fd c)) w)
  | Some buf =>
      let buflen := Z.of_nat (length buf) in
      _ ← assert (bool_decide (fd c ≠ -1));
      (* [buf + write_ofs] and [buflen - write_ofs] stay inside the buffer *)
      _ ← assert (bool_decide (0 ≤ write_ofs c ≤ buflen));
      let '(res, w) := sys_write (fd c) (drop (Z.to_nat (write_ofs c)) buf) w in
      if decide (res < 0) then Some (0, log_info (log_closing_errno (fd c)) w)
      else
        w ← upd cl (λ c, set_write_ofs ((write_ofs c + res) mod UINT_MODULUS) c) w;
        c ← deref cl w;
        _ ← assert (bool_decide (write_ofs c ≤ buflen));
        w ← (if decide (write_ofs c = buflen)
             then upd cl (λ c, set_write_ofs 0 (set_state (state c + 1) c)) w
             else Some w);
        w ← upd cl (set_last (sys_time w)) w;
        Some (1, w)
  end.

(** [do_get]: move the record at [*prev] to the front of the writer
    list. *)
Definition do_get (cl : ptr) (prev : loc) (w : world) : option world :=
  c ← deref cl w;
  _ ← assert (bool_decide (Some cl ≠ next c));
  w ← store prev (next c) w;
  w ← upd cl (set_next (writer_head w)) w;
  let w := with_writer_head (Some cl) w in
  c ← deref cl w;
  let w := FD_CLR (fd c) rfds_ptr w in
  let w := FD_SET (fd c) wfds_ptr w in
  w ← upd cl (set_write_ofs 0) w;
  c ← deref cl w;
  _ ← assert (bool_decide (Some cl ≠ next c));
  upd cl (set_state 0) w.

(** How the body of the [switch] in [client_read] leaves: by [return] or
    by [break]. *)
Inductive flow := Return (r : Z) | Break.

(** The [switch] of [client_read] on one byte. *)
Definition read_switch (cl : ptr) (prev : loc) (b : byte) (w : world)
  : option (flow * world) :=
  c ← deref cl w;
  let incr := w ← upd cl (λ c, set_state (state c + 1) c) w; Some (Break, w) in
  match state c with
  | 0 => if decide (b = "G"%byte) then incr else Some (Return 0, w)
  | 1 => if decide (b = "E"%byte) then incr else Some (Return 0, w)
  | 2 => if decide (b = "T"%byte) then incr else Some (Return 0, w)
  | 3 => if decide (b = " "%byte) then incr else Some (Return 0, w)
  | 4 => if decide (b = x0a) then incr else Some (Break, w)
  | 5 => if decide (b = x0d ∨ b = x0a)
         then w ← do_get cl prev w; Some (Return 1, w)
         else incr
  | 6 => if decide (b = x0a)
         then w ← upd cl (set_state 5) w; Some (Break, w)
         else Some (Break, w)
  | _ => Some (Break, w)
  end.

(** The [while (len > 0)] loop of [client_read] over the bytes read. *)
Fixpoint read_loop (cl : ptr) (prev : loc) (buf : list byte) (w : world)
  : option (Z * world) :=
  match buf with
  | [] => Some (1, w)
  | b :: buf =>
      '(f, w) ← read_switch cl prev b w;
      match f with
      | Return r => Some (r, w)
      | Break => read_loop cl prev buf w
      end
  end.

(** [client_read]: one [read] of at most [HTTP_BUFSIZE] bytes, fed to the
    recognizer.  Returns 0 when the connection is to be closed. *)
Definition client_read (cl : ptr) (prev : loc) (w : world) : option (Z * world) :=
  c ← deref cl w;
  let '(len, buf, w) := sys_read (fd c) HTTP_BUFSIZE w in
  if decide (len ≤ 0) then Some (0, log_info (log_closing_errno (fd c)) w)
  else
    w ← upd cl (set_last (sys_time w)) w;
    read_loop cl prev buf w.

(** One turn of the [for] loop of [process_generic] with [prev] as it
    stands: [None] when [*prev] is [NULL] and the loop ends, otherwise the
    [prev] of the next turn. *)
Definition process_step (fds : fdset_ptr)
    (foreach : ptr → loc → world → option (Z * world))
    (timeout : Z) (prev : loc) (w : world) : option (option loc * world) :=
  p ← load prev w;
  match p with
  | None => Some (None, w)
  | Some curr =>
      c ← deref curr w;
      let w := if decide (last c < youngest w) then with_youngest (last c) w else w in
      c ← deref curr w;
      if decide (last c ≤ timeout) then
        let w := log_info (log_closing_timeout (fd c)) w in
        w ← client_free curr prev w; Some (Some prev, w)
      else
        c ← deref curr w;
        if FD_ISSET (fd c) fds w then
          '(r, w) ← foreach curr prev w;
          if decide (r = 0) then
            c ← deref curr w;
            let w := log_info (log_closing_disconnect (fd c)) w in
            w ← client_free curr prev w; Some (Some prev, w)
          else
            c ← deref curr w;
            Some (Some (next_loc curr), FD_SET (fd c) fds w)
        else
          Some (Some (next_loc curr), FD_SET (fd c) fds w)
  end.

(** The [for] loop; [fuel] bounds the number of turns. *)
Fixpoint process_loop (fuel : nat) (fds : fdset_ptr)
    (foreach : ptr → loc → world → option (Z * world))
    (timeout : Z) (prev : loc) (w : world) : option world :=
  match fuel with
  | O => None
  | S fuel =>
      '(k, w) ← process_step fds foreach timeout prev w;
      match k with
      | None => Some w
      | Some prev => process_loop fuel fds foreach timeout prev w
      end
  end.

Definition process_generic (fuel : nat) (head : loc) (fds : fdset_ptr)
    (foreach : ptr → loc → world → option (Z * world)) (w : world) : option world :=
  let timeout := sys_time w - HTTP_TIMEOUT in
  process_loop fuel fds foreach timeout head w.

Definition process_readers (fuel : nat) (w : world) : option world :=
  process_generic fuel reader_head_loc rfds_ptr client_read w.

Definition process_writers (fuel : nat) (w : world) : option world :=
  process_generic fuel writer_head_loc wfds_ptr client_write w.

(** The [timeval] handed to [select]: [None] is the [NULL] pointer (wait
    without limit), [Some s] a wait of at most [s] seconds. *)
Definition select_timeout (w : world) : option Z :=
  if decide (youngest w ≠ INT_MAX) then
    let expire := youngest w + HTTP_TIMEOUT in
    let now := sys_time w in
    Some (if decide (expire ≤ now) then 0 else expire - now)
  else None.

(** [select] returns at time [now] and leaves in each set the descriptors
    of it that are ready. *)
Definition sys_select (ready_r ready_w : gset Z) (now : Z) (w : world) : world :=
  with_sys (with_clock now)
    (with_wfds (λ s, s ∩ ready_w) (with_rfds (λ s, s ∩ ready_r) w)).

(** [if (FD_ISSET(listen_fd, &rfds)) client_accept(listen_fd);] *)
Definition accept_step (listen_fd : Z) (w : world) : option world :=
  if FD_ISSET listen_fd rfds_ptr w then client_accept w else Some w.

(** What [main] does after [select] has returned, up to the end of the
    turn of its [while (1)] loop. *)
Definition after_select (fuel : nat) (listen_fd : Z) (w : world) : option world :=
  w ← accept_step listen_fd w;
  let w := FD_SET listen_fd rfds_ptr w in
  let w := with_youngest INT_MAX w in
  w ← process_readers fuel w;
  process_writers fuel w.

(** One turn of the [while (1)] loop of [main]. *)
Definition main_turn (fuel : nat) (listen_fd : Z)
    (ready_r ready_w : gset Z) (now : Z) (w : world) : option world :=
  after_select fuel listen_fd (sys_select ready_r ready_w now w).

(** ** Drivers: one connection served by successive calls *)

(** Successive read-readiness notifications for the record at [*prev]:
    [client_read] is called again as long as it returned 1 and the record
    is still the one [*prev] points to (it is still a reader). *)
Fixpoint read_calls (n : nat) (cl : ptr) (prev : loc) (w : world)
  : option (Z * world) :=
  match n with
  | O => Some (1, w)
  | S n =>
      '(r, w) ← client_read cl prev w;
      if decide (r = 0) then Some (0, w)
      else
        p ← load prev w;
        if decide (p = Some cl) then read_calls n cl prev w else Some (1, w)
  end.

(** Successive write-readiness notifications for one record: [client_write]
    is called again as long as it returned 1. *)
Fixpoint write_calls (n : nat) (cl : ptr) (prev : loc) (w : world)
  : option (Z * world) :=
  match n with
  | O => Some (1, w)
  | S n =>
      '(r, w) ← client_write cl prev w;
      if decide (r = 0) then Some (0, w) else write_calls n cl prev w
  end.

(** The request line and empty line of the first testable property. *)
Definition request : list byte :=
  ["G"; "E"; "T"; " "; "/"; " "; "H"; "T"; "T"; "P"; "/"; "1"; "."; "0";
   x0d; x0a; x0d; x0a]%byte.

(** The method token and the space that must follow it. *)
Definition method_and_space : list byte := ["G"; "E"; "T"; " "]%byte.

(** ** The recognizer as a function of the state and the bytes *)

(** What the [switch] does with one byte, read off the record alone. *)
Inductive verdict :=
  | Rejected (s : Z)   (* [return 0] in state [s] *)
  | Completed          (* [do_get] and [return 1] *)
  | Pending (s : Z).   (* [break] with the state now [s] *)

Definition transition (s : Z) (b : byte) : verdict :=
  match s with
  | 0 => if decide (b = "G"%byte) then Pending 1 else Rejected 0
  | 1 => if decide (b = "E"%byte) then Pending 2 else Rejected 1
  | 2 => if decide (b = "T"%byte) then Pending 3 else Rejected 2
  | 3 => if decide (b = " "%byte) then Pending 4 else Rejected 3
  | 4 => if decide (b = x0a) then Pending 5 else Pending 4
  | 5 => if decide (b = x0d ∨ b = x0a) then Completed else Pending 6
  | 6 => if decide (b = x0a) then Pending 5 else Pending 6
  | _ => Pending s
  end.

Fixpoint recognize (s : Z) (bs : list byte) : verdict :=
  match bs with
  | [] => Pending s
  | b :: bs =>
      match transition s b with
      | Pending s' => recognize s' bs
      | v => v
      end
  end.


(** ** Predicates used in the statements *)

(** What [do_get] has made of the world [w] when it moved the record [cl],
    found at [*prev] with contents [c]: the record is the new head of the
    writer list, with the old head as its successor, [*prev] points to
    its old successor, read interest is cleared and write interest set,
    phase and offset are 0; nothing else has changed. *)
Record moved_to_writers (cl : ptr) (prev : loc) (c : client) (w w' : world)
  : Prop := MovedToWriters {
  mtw_writer_head : writer_head w' = Some cl;
  mtw_record : deref cl w' = Some (Client (fd c) 0 (writer_head w) (last c) 0);
  mtw_unlinked : load prev w' = Some (next c);
  mtw_rfds : rfds w' = rfds w ∖ {[fd c]};
  mtw_wfds : wfds w' = wfds w ∪ {[fd c]};
  mtw_sys : sys w' = sys w;
  mtw_others : ∀ q, q ≠ cl → next_loc q ≠ prev → deref q w' = deref q w;
  mtw_reader_head : prev ≠ reader_head_loc → reader_head w' = reader_head w;
  mtw_fd_max : fd_max w' = fd_max w;
  mtw_youngest : youngest w' = youngest w;
  mtw_hdr : hdr w' = hdr w;
  mtw_msg : msg w' = msg w
}.

(** The record [cl] is the one at [*prev] and can be unlinked from there:
    it is allocated, is not its own successor and is not already the head
    of the writer list. *)
Definition linked_at (cl : ptr) (prev : loc) (c : client) (w : world) : Prop :=
  deref cl w = Some c ∧ load prev w = Some (Some cl) ∧
  next c ≠ Some cl ∧ writer_head w ≠ Some cl.

(** The part of the world that is the program's own: everything but the
    operating system. *)
Definition program_state (w : world) :=
  (heap w, reader_head w, writer_head w, fd_max w, youngest w,
   rfds w, wfds w, hdr w, msg w).

(** A chunk that one [read] call delivers whole. *)
Definition one_read (ch : list byte) : Prop :=
  ch ≠ [] ∧ (length ch ≤ HTTP_BUFSIZE)%nat.

(** The recognizer states that follow the method token and the space. *)
Definition past_method (s : Z) : Prop := s = 4 ∨ s = 5 ∨ s = 6.

(** The record [cl] is the head of the writer list, at the start of the
    header, with write interest and without read interest. *)
Definition writer_at_start (cl : ptr) (w : world) : Prop :=
  writer_head w = Some cl ∧
  ∃ c, deref cl w = Some c ∧ state c = 0 ∧ write_ofs c = 0 ∧
       fd c ∈ wfds w ∧ fd c ∉ rfds w.

(** The world [w] after reads on the record [cl] (contents [c] in [w]) that
    left the recognizer in state [s] and the sockets holding [m]. *)
Definition reading (cl : ptr) (c : client) (s : Z)
    (m : gmap Z (list (list byte))) (w : world) : world :=
  with_heap <[cl := set_state s (set_last (sys_time w) c)]>
    (with_sys (with_inbound (λ _, m)) w).

(** The buffer that [client_write] selects for a record: the header in
    phase 0, the body in phase 1, none afterwards. *)
Definition current_buffer (c : client) (w : world) : option (list byte) :=
  match state c with
  | 0 => Some (hdr w)
  | 1 => Some (msg w)
  | _ => None
  end.

(** The offset of a writer lies inside its current buffer. *)
Definition in_range (c : client) (w : world) : Prop :=
  match current_buffer c w with
  | Some buf => 0 ≤ write_ofs c ≤ Z.of_nat (length buf)
  | None => True
  end.

(** The bytes of the response that a writer has still to send. *)
Definition remaining (c : client) (w : world) : list byte :=
  match state c with
  | 0 => drop (Z.to_nat (write_ofs c)) (hdr w) ++ msg w
  | 1 => drop (Z.to_nat (write_ofs c)) (msg w)
  | _ => []
  end.

(** A bound on the calls of [client_write] that a writer still needs when
    every call makes progress. *)
Definition calls_left (c : client) (w : world) : Z :=
  match state c with
  | 0 => (Z.of_nat (length (hdr w)) - write_ofs c) + Z.of_nat (length (msg w)) + 2
  | 1 => (Z.of_nat (length (msg w)) - write_ofs c) + 1
  | _ => 0
  end.

(** The record after a [write] that took [n] bytes of a buffer of length
    [buflen]. *)
Definition advance (n buflen now : Z) (c : client) : client :=
  set_last now
    (if decide (write_ofs c + n = buflen)
     then set_write_ofs 0 (set_state (state c + 1) c)
     else set_write_ofs (write_ofs c + n) c).

(** What [client_free] has made of the world [w] when it released the
    record [cl], found at [*prev] with contents [c]: the record is gone,
    [*prev] points to its old successor, its descriptor is closed and is
    in neither interest set; nothing was read or written. *)
Record freed (cl : ptr) (prev : loc) (c : client) (w w' : world)
  : Prop := Freed {
  fr_gone : deref cl w' = None;
  fr_unlinked : next c ≠ Some cl → load prev w' = Some (next c);
  fr_rfds : rfds w' = rfds w ∖ {[fd c]};
  fr_wfds : wfds w' = wfds w ∖ {[fd c]};
  fr_sys : sys w' = with_closed (cons (fd c)) (sys w);
  fr_others : ∀ q, q ≠ cl → next_loc q ≠ prev → deref q w' = deref q w;
  fr_reader_head : prev ≠ reader_head_loc → reader_head w' = reader_head w;
  fr_writer_head : prev ≠ writer_head_loc → writer_head w' = writer_head w;
  fr_fd_max : fd_max w' = fd_max w;
  fr_youngest : youngest w' = youngest w;
  fr_hdr : hdr w' = hdr w;
  fr_msg : msg w' = msg w
}.

(** [if (curr->last < youngest) youngest = curr->last;] *)
Definition note_youngest (c : client) (w : world) : world :=
  if decide (last c < youngest w) then with_youngest (last c) w else w.

(** A turn of the traversal at [*prev], where the record [cl] (contents
    [c]) stands, closes it for idleness: the turn ends with the record
    released and "closing fd, timeout" as the line just printed. *)
Definition timed_out (fds : fdset_ptr)
    (foreach : ptr → loc → world → option (Z * world))
    (prev : loc) (w : world) (cl : ptr) (c : client) : Prop :=
  ∃ w', process_step fds foreach (sys_time w - HTTP_TIMEOUT) prev w
          = Some (Some prev, w') ∧
        deref cl w' = None ∧
        stderr (sys w') = log_closing_timeout (fd c) :: stderr (sys w).

(** A handler that aborts the program when it is called for a record that
    the idle check would have closed, and is [foreach] otherwise. *)
Definition guarded (timeout : Z)
    (foreach : ptr → loc → world → option (Z * world))
    (cl : ptr) (prev : loc) (w : world) : option (Z * world) :=
  c ← deref cl w;
  if decide (last c ≤ timeout) then None else foreach cl prev w.

(** A handler that aborts the program whenever it is called. *)
Definition never_called (cl : ptr) (prev : loc) (w : world)
  : option (Z * world) := None.

(** Successive turns of the reader traversal at [*prev], as long as the
    record [cl] is the one found there. *)
Fixpoint read_turns (n : nat) (cl : ptr) (prev : loc) (w : world)
  : option world :=
  match n with
  | O => Some w
  | S n =>
      '(_, w) ← process_step rfds_ptr client_read
                  (sys_time w - HTTP_TIMEOUT) prev w;
      p ← load prev w;
      if decide (p = Some cl) then read_turns n cl prev w else Some w
  end.

(** The parts of the world that neither handler touches. *)
Definition untouched (w w' : world) : Prop :=
  backlog (sys w') = backlog (sys w) ∧ clock (sys w') = clock (sys w) ∧
  youngest w' = youngest w ∧ fd_max w' = fd_max w ∧
  hdr w' = hdr w ∧ msg w' = msg w.

(** The [last] fields that the turns of a traversal find at [*prev], turn
    after turn, in the order of the turns. *)
Fixpoint visited (fuel : nat) (fds : fdset_ptr)
    (foreach : ptr → loc → world → option (Z * world))
    (timeout : Z) (prev : loc) (w : world) : list Z :=
  match fuel with
  | O => []
  | S fuel =>
      match load prev w with
      | Some (Some curr) =>
          match deref curr w with
          | Some c =>
              last c ::
              match process_step fds foreach timeout prev w with
              | Some (Some prev', w') =>
                  visited fuel fds foreach timeout prev' w'
              | _ => []
              end
          | None => []
          end
      | _ => []
      end
  end.

(** The smallest of [d] and the elements of [l]. *)
Definition min_with (d : Z) (l : list Z) : Z := foldr Z.min d l.

(** ** Concrete worlds *)

(** A short header and body. *)
Definition sample_hdr : list byte := ["H"; "D"; "R"; x0d; x0a]%byte.
Definition sample_msg : list byte := ["b"; "o"; "d"; "y"]%byte.

(** A quiet system at time [now]. *)
Definition quiet (now : Z) : os := Os now [] ∅ ∅ ∅ [] [].

(** The listening socket is descriptor 3; no connection yet, two
    connections (descriptors 4 and 5) pending, the listening socket
    reported ready. *)
Definition two_pending : world :=
  World ∅ None None 3 INT_MAX {[3]} ∅ sample_hdr sample_msg
    (with_backlog [4; 5] (quiet 10)).

(** One reader on descriptor 4, at address 1, whose last activity was at
    time [t]; the clock reads 10. *)
Definition fresh_reader (t : Z) : client := Client 4 0 None t 0.
Definition one_reader (t : Z) (s : os) : world :=
  World {[1%positive := fresh_reader t]} (Some 1%positive) None 4 INT_MAX
    {[3; 4]} ∅ sample_hdr sample_msg s.

(** The reader of [one_reader] with input cut in reads. *)
Definition reader_with_input (chunks : list (list byte)) : world :=
  one_reader 10 (with_inbound (λ _, {[4 := chunks]}) (quiet 10)).

(** The same reader with its request arriving in three reads and a
    transport that takes one byte per call. *)
Definition request_in_three : list (list byte) :=
  [["G"; "E"]; ["T"; " "; "/"; " "; "H"; "T"; "T"; "P"; "/"; "1"; "."; "0"; x0d];
   [x0a; x0d; x0a]]%byte.
Definition reader_with_request : world :=
  one_reader 10
    (with_capacity (λ _, {[4 := replicate 11 1]})
       (with_inbound (λ _, {[4 := request_in_three]}) (quiet 10))).

(** One writer on descriptor 4, at address 1, at the start of the header,
    with a transport that takes one byte per call. *)
Definition fresh_writer : client := Client 4 0 None 10 0.
Definition one_writer : world :=
  World {[1%positive := fresh_writer]} None (Some 1%positive) 4 INT_MAX
    {[3]} {[4]} sample_hdr sample_msg
    (with_capacity (λ _, {[4 := replicate 11 1]}) (quiet 10)).

(** A reader on descriptor 4, at address 1, in recognizer state [s], with
    input cut in reads. *)
Definition reader_in_state (s : Z) : client := Client 4 s None 10 0.
Definition reader_past_method (s : Z) (chunks : list (list byte)) : world :=
  World {[1%positive := reader_in_state s]} (Some 1%positive) None 4 INT_MAX
    {[3; 4]} ∅ sample_hdr sample_msg
    (with_inbound (λ _, {[4 := chunks]}) (quiet 10)).

(** ** The shape of the two lists *)

(** The [next] field of the record at [p], if it is allocated. *)
Definition next_of (w : world) (p : ptr) : option (option ptr) :=
  next <$> deref p w.

(** Following [next] from [p] one passes through the records [l], in that
    order, and arrives at [q]. *)
Fixpoint seg (w : world) (p : option ptr) (l : list ptr) (q : option ptr)
  : Prop :=
  match l with
  | [] => p = q
  | a :: l => p = Some a ∧ ∃ nx, next_of w a = Some nx ∧ seg w nx l q
  end.

(** The reader list holds the records [rs] and the writer list the records
    [ws], each ending in [NULL], and no record is on a list twice or on both
    lists. *)
Definition well_formed (w : world) (rs ws : list ptr) : Prop :=
  seg w (reader_head w) rs None ∧ seg w (writer_head w) ws None ∧
  NoDup (rs ++ ws).

Inductive side := readers | writers.

Definition head_loc (s : side) : loc :=
  match s with readers => reader_head_loc | writers => writer_head_loc end.

Definition on_side (s : side) (rs ws : list ptr) : list ptr :=
  match s with readers => rs | writers => ws end.

Definition head_of (s : side) (w : world) : option ptr :=
  match s with readers => reader_head w | writers => writer_head w end.

(** The [prev] of a traversal that has left the records [pre] of a list
    behind it. *)
Definition cursor_loc (s : side) (pre : list ptr) : loc :=
  match list.last pre with
  | Some p => next_loc p
  | None => head_loc s
  end.

(** Two worlds with the same heads and the same [next] fields. *)
Definition same_links (w w' : world) : Prop :=
  reader_head w' = reader_head w ∧ writer_head w' = writer_head w ∧
  ∀ p, next_of w' p = next_of w p.

(** The amount of input that the sockets hold: for every chunk its length
    plus one. *)
Definition chunk_cost (q : list (list byte)) : nat :=
  sum_list ((λ ch, S (length ch)) <$> q).
Definition pending_input (w : world) : nat :=
  map_fold (λ _ q n, (chunk_cost q + n)%nat) 0%nat (inbound (sys w)).

(** A traversal from [prev] in [w]: it ends in a world, or the program
    aborts on the way. *)
Inductive runs (fds : fdset_ptr)
    (foreach : ptr → loc → world → option (Z * world)) (timeout : Z)
  : loc → world → option world → Prop :=
  | runs_end prev w w' :
      process_step fds foreach timeout prev w = Some (None, w') →
      runs fds foreach timeout prev w (Some w')
  | runs_abort prev w :
      process_step fds foreach timeout prev w = None →
      runs fds foreach timeout prev w None
  | runs_step prev w prev' w' r :
      process_step fds foreach timeout prev w = Some (Some prev', w') →
      runs fds foreach timeout prev' w' r →
      runs fds foreach timeout prev w r.

(** The traversal stands at [prev]: it has left the records [pre] of the
    list on side [s] behind it and has the records [rest] before it. *)
Definition at_cursor (prev : loc) (s : side) (pre rest rs ws : list ptr)
  : Prop :=
  prev = cursor_loc s pre ∧ on_side s rs ws = pre ++ rest.

(** What a handler may do to the lists and to the pending input: it leaves
    the links alone and consumes no more than there is; or, if [moves]
    allows, it consumes some input and then calls [do_get] for its
    record. *)
Definition handler_spec (moves : bool)
    (foreach : ptr → loc → world → option (Z * world)) : Prop :=
  ∀ cl prev w r w', foreach cl prev w = Some (r, w') →
    (same_links w w' ∧ (pending_input w' ≤ pending_input w)%nat) ∨
    (moves = true ∧ r ≠ 0 ∧
     ∃ w0 c0, same_links w w0 ∧ (pending_input w0 < pending_input w)%nat ∧
              deref cl w0 = Some c0 ∧ do_get cl prev w0 = Some w').

(** A turn of the main loop after [select] aborts: one of its two
    traversals runs into a failed assertion or an access outside the
    allocated records. *)
Definition turn_aborts (listen_fd : Z) (w : world) : Prop :=
  ∃ wa, accept_step listen_fd w = Some wa ∧
    let w0 := with_youngest INT_MAX (FD_SET listen_fd rfds_ptr wa) in
    runs rfds_ptr client_read (sys_time w0 - HTTP_TIMEOUT) reader_head_loc w0 None ∨
    ∃ wr, runs rfds_ptr client_read (sys_time w0 - HTTP_TIMEOUT)
            reader_head_loc w0 (Some wr) ∧
          runs wfds_ptr client_write (sys_time wr - HTTP_TIMEOUT)
            writer_head_loc wr None.

(** Two worlds with the same links and the same pending input. *)
Definition steady (w w' : world) : Prop :=
  same_links w w' ∧ inbound (sys w') = inbound (sys w).

(** Two readers and a writer.  The first reader (address 1, descriptor 4)
    has its whole request waiting; the second (address 2, descriptor 5)
    has been idle since time 0; the writer (address 3, descriptor 6) is in
    the body, two bytes sent, and its peer has sent one more byte.  The
    clock reads 10 and [select] has reported descriptors 4 and 6
    readable. *)
Definition idle_reader : client := Client 5 0 None 0 0.
Definition busy_writer : client := Client 6 1 None 10 2.
Definition crossing : world :=
  World {[1%positive := Client 4 0 (Some 2%positive) 10 0;
          2%positive := idle_reader;
          3%positive := busy_writer]}
    (Some 1%positive) (Some 3%positive) 6 INT_MAX {[4; 6]} ∅
    sample_hdr sample_msg
    (with_inbound (λ _, {[4 := [request]; 6 := [["x"]%byte]]}) (quiet 10)).

(** ** Descriptors and interest sets *)

(** The descriptor [d] belongs to an allocated record. *)
Definition live (d : Z) (w : world) : Prop :=
  ∃ p c, deref p w = Some c ∧ fd c = d.

(** [fd_max] is at least the listening descriptor and the descriptor of
    every allocated record: [select(fd_max + 1, ...)] looks at all of
    them. *)
Definition covered (listen_fd : Z) (w : world) : Prop :=
  listen_fd ≤ fd_max w ∧ ∀ p c, deref p w = Some c → fd c ≤ fd_max w.

(** The interest sets name open descriptors only: the listening socket or
    the descriptor of an allocated record in [rfds], the descriptor of an
    allocated record in [wfds]. *)
Definition interest_is_live (listen_fd : Z) (w : world) : Prop :=
  (∀ d, d ∈ rfds w → d = listen_fd ∨ live d w) ∧
  (∀ d, d ∈ wfds w → live d w).

(** No record holds the listening descriptor. *)
Definition listener_apart (listen_fd : Z) (w : world) : Prop :=
  ∀ p c, deref p w = Some c → fd c ≠ listen_fd.

(** The descriptors closed since the list of closed descriptors read
    [before], latest first. *)
Definition closed_since (before : list Z) (w : world) (ds : list Z) : Prop :=
  closed (sys w) = ds ++ before.

(** The listening descriptor is in [rfds], no record holds it, and it is
    not among the descriptors closed since [before]. *)
Definition listening (listen_fd : Z) (before : list Z) (w : world) : Prop :=
  listen_fd ∈ rfds w ∧ listener_apart listen_fd w ∧
  ∃ ds, closed_since before w ds ∧ listen_fd ∉ ds.

(** ** The writer traversal *)

(** The fields of a record other than its link. *)
Definition body (c : client) : Z * Z * Z * Z :=
  (fd c, state c, last c, write_ofs c).

(** A record that [client_write] can serve: it is allocated, its
    descriptor is open and its offset lies inside its current buffer. *)
Definition writable (w : world) (a : ptr) : Prop :=
  ∃ c, deref a w = Some c ∧ fd c ≠ -1 ∧ in_range c w.

(** Both response buffers are shorter than the range of [write_ofs]. *)
Definition buffers_fit (w : world) : Prop :=
  Z.of_nat (length (hdr w)) < UINT_MODULUS ∧
  Z.of_nat (length (msg w)) < UINT_MODULUS.


(** ** Start-up: [load_file], [encode_hdr] and the head of [main] *)

Definition HTTP_HDRMAX : Z := 512.

(** How the process ends before it serves anything. *)
Inductive ending :=
  | died_file          (* [perror_and_die(filename)]: [open], [fstat], [read] *)
  | died_snprint       (* [perror_and_die("snprint")] *)
  | died_socket        (* [perror_and_die("socket")] *)
  | died_reuseaddr     (* [perror_and_die("SO_REUSEADDR")] *)
  | died_bind          (* [perror_and_die("bind")] *)
  | died_fcntl         (* [perror_and_die("fctnl")] *)
  | died_listen        (* [perror_and_die("listen")] *)
  | aborted_size.      (* "unable to determine size of file", [abort] *)

Inductive fate (A : Type) :=
  | Went_on (a : A)
  | Ended (e : ending).
Arguments Went_on {A} a.
Arguments Ended {A} e.

(** The file as the calls of [load_file] find it.  [found]: [open]
    succeeds.  [history k]: what the file holds when the [k]-th system call
    on the descriptor is made ([fstat] and [read] alternate, numbered from
    0), or [None] when that call fails.  The descriptor is opened once and
    never repositioned: a [read] starts at the offset where the one before
    it stopped. *)
Record file := File {
  found : bool;
  history : nat → option (list byte)
}.

(** The [do ... while] loop of [load_file].  [tries] is the counter of the
    source, [calls] the number of system calls made on the descriptor so
    far and [offset] its file offset.  Each turn: [fstat] gives [msg_len],
    [calloc] a zeroed buffer of [msg_len + 1] bytes, [read] fills it with
    at most [msg_len] bytes; then [if (!tries--) abort()], and the loop
    goes on while the length read differs from [msg_len].  The result is
    the buffer and [msg_len]. *)
Fixpoint load_loop (tries : nat) (f : file) (calls offset : nat)
  : fate (list byte * Z) :=
  match history f calls with
  | None => Ended died_file
  | Some at_stat =>
      let msg_len := length at_stat in
      match history f (S calls) with
      | None => Ended died_file
      | Some at_read =>
          let got := take msg_len (drop offset at_read) in
          let len := length got in
          let buf := got ++ replicate (S msg_len - len) x00 in
          match tries with
          | O => Ended aborted_size
          | S tries =>
              if decide (len ≠ msg_len)
              then load_loop tries f (S (S calls)) (offset + len)
              else Went_on (buf, Z.of_nat msg_len)
          end
      end
  end.

(** The pieces of the format string of [encode_hdr]. *)
Definition crlf : list byte := [x0d; x0a].
Definition status_line : list byte :=
  ["H"; "T"; "T"; "P"; "/"; "1"; "."; "1"; " "; "2"; "0"; "0"; " "; "O"; "K"]%byte.
Definition content_type : list byte :=
  ["C"; "o"; "n"; "t"; "e"; "n"; "t"; "-"; "T"; "y"; "p"; "e"; ":"; " ";
   "t"; "e"; "x"; "t"; "/"; "h"; "t"; "m"; "l"; ";"; " "; "c"; "h"; "a";
   "r"; "s"; "e"; "t"; "="; "U"; "T"; "F"; "-"; "8"]%byte.
Definition date_field : list byte :=
  ["D"; "a"; "t"; "e"; ":"; " "]%byte.
Definition content_length_field : list byte :=
  ["C"; "o"; "n"; "t"; "e"; "n"; "t"; "-"; "L"; "e"; "n"; "g"; "t"; "h";
   ":"; " "]%byte.

Definition digit (d : Z) : byte :=
  match d with
  | 0 => "0" | 1 => "1" | 2 => "2" | 3 => "3" | 4 => "4"
  | 5 => "5" | 6 => "6" | 7 => "7" | 8 => "8" | _ => "9"
  end%byte.

(** The decimal digits of [n], most significant first, in front of
    [acc]. *)
Fixpoint print_digits (fuel : nat) (n : Z) (acc : list byte) : list byte :=
  match fuel with
  | O => acc
  | S fuel =>
      let acc := digit (n mod 10) :: acc in
      if decide (n / 10 = 0) then acc else print_digits fuel (n / 10) acc
  end.

(** The conversion [%zu] of a [size_t] of 64 bits: at most 20 digits. *)
Definition print_zu (n : Z) : list byte := print_digits 20 n [].

(** The text that the [snprintf] of [encode_hdr] formats. *)
Definition format_hdr (timebuf : list byte) (msg_len : Z) : list byte :=
  status_line ++ crlf ++
  content_type ++ crlf ++
  date_field ++ timebuf ++ crlf ++
  content_length_field ++ print_zu msg_len ++ crlf ++
  crlf.

(** [encode_hdr]: [timebuf] is what [strftime] has written.  [snprintf]
    stores at most [HTTP_HDRMAX - 1] bytes in [hdr] and returns the length
    of the whole text, which becomes [hdr_len].  The result is [hdr] and
    [hdr_len]. *)
Definition encode_hdr (timebuf : list byte) (msg_len : Z)
  : fate (list byte * Z) :=
  let text := format_hdr timebuf msg_len in
  let hdr_len := Z.of_nat (length text) in
  if decide (HTTP_HDRMAX ≤ hdr_len) then Ended died_snprint
  else Went_on (take (Z.to_nat (HTTP_HDRMAX - 1)) text, hdr_len).

(** The buffers that [load_file] leaves: [hdr] with [hdr_len], [msg] with
    [msg_len]. *)
Record page := Page {
  page_hdr : list byte;
  page_hdr_len : Z;
  page_msg : list byte;
  page_msg_len : Z
}.

(** [load_file]: [open], the loop, [encode_hdr]. *)
Definition load_file (f : file) (timebuf : list byte) : fate page :=
  if found f then
    match load_loop 10 f 0 0 with
    | Ended e => Ended e
    | Went_on (msg, msg_len) =>
        match encode_hdr timebuf msg_len with
        | Ended e => Ended e
        | Went_on (hdr, hdr_len) => Went_on (Page hdr hdr_len msg msg_len)
        end
    end
  else Ended died_file.



(** The value of a decimal numeral. *)
Definition digit_value (b : byte) : Z := Z.of_N (Byte.to_N b) - 48.
Definition decimal_value (l : list byte) : Z :=
  fold_left (λ a b, 10 * a + digit_value b) l 0.

(** A decimal digit is one of the ten characters from [0] to [9]; a
    decimal numeral is made of digits, at least one, with no zero in front
    of another digit. *)
Definition decimal_digit (b : byte) : Prop := 0 ≤ digit_value b ≤ 9.
Definition decimal_numeral (l : list byte) : Prop :=
  l ≠ [] ∧ Forall decimal_digit l ∧
  (head l = Some "0"%byte → l = ["0"%byte]).

(** ** More concrete worlds *)

(** A writer on descriptor 4, at address 1, whose response is finished. *)
Definition finished_writer : client := Client 4 2 None 10 0.
Definition one_finished_writer : world :=
  World {[1%positive := finished_writer]} None (Some 1%positive) 4 INT_MAX
    {[3]} {[4]} sample_hdr sample_msg (quiet 10).

(** No connection yet; the connection pending on descriptor 4 has sent its
    request and one more line, and its transport takes three bytes. *)
Definition request_waiting : world :=
  World ∅ None None 3 INT_MAX {[3]} ∅ sample_hdr sample_msg
    (with_capacity (λ _, {[4 := [3]]})
       (with_inbound (λ _, {[4 := [request ++ ["x"; x0a]%byte]]})
          (with_backlog [4] (quiet 10)))).


(** A file of three bytes that is cut to one byte between the first
    [fstat] and the first [read], and then stays as it is. *)
Definition shrinking_file : file :=
  File true (λ k, match k with
                  | O => Some ["a"; "b"; "c"]%byte
                  | _ => Some ["a"]%byte
                  end).

(** The text of a date. *)
Definition sample_date : list byte :=
  ["T"; "h"; "u"; ","; " "; "0"; "1"; " "; "J"; "a"; "n"]%byte.


(** The request without its last byte. *)
Definition request_but_last : list byte :=
  ["G"; "E"; "T"; " "; "/"; " "; "H"; "T"; "T"; "P"; "/"; "1"; "."; "0";
   x0d; x0a; x0d]%byte.

(** The globals as [main] sets them before its loop, with listening
    descriptor 3 and the sample header and body, and two connections
    pending.  The first will be descriptor 4 and sends [first], the second
    descriptor 5 and sends [second], each given as the pieces that
    successive reads deliver.  The transport of each takes one byte at the
    first [write] and four at each of the next three. *)
Definition two_callers (first second : list (list byte)) : world :=
  World ∅ None None 3 INT_MAX {[3]} ∅ sample_hdr sample_msg
    (Os 0 [4; 5] {[4 := first; 5 := second]}
        {[4 := [1; 4; 4; 4]; 5 := [1; 4; 4; 4]]} ∅ [] []).

(** ** Records and lists *)

(** The allocated records are those of the two lists: no record is
    allocated and on neither list, and the lists lead to none that is
    not allocated. *)
Definition no_stray (w : world) (rs ws : list ptr) : Prop :=
  ∀ p, is_Some (deref p w) ↔ p ∈ rs ++ ws.

(** ** The debugging aid [dump_list] *)

(** [dump_list]: the descriptors it prints, in order.  [fuel] bounds the
    number of tests of its [while (head)]; [None] is a loop still running
    when the fuel is spent, or an access outside the allocated records. *)
Fixpoint dump_list (fuel : nat) (head : option ptr) (w : world)
  : option (list Z) :=
  match fuel with
  | O => None
  | S fuel =>
      match head with
      | None => Some []
      | Some p =>
          c ← deref p w;
          l ← dump_list fuel (next c) w;
          Some (fd c :: l)
      end
  end.

(** Every allocated record has an open descriptor ([client_free] stores
    -1 in the record before it releases it). *)
Definition descriptors_open (w : world) : Prop :=
  ∀ p c, deref p w = Some c → fd c ≠ -1.
(** ** Basic facts about records and worlds *)

Lemma set_state_same c : set_state (state c) c = c.
Proof. by destruct c. Qed.

Lemma with_heap_same w (h : gmap ptr client) :
  h = heap w → with_heap (λ _, h) w = w.
Proof. intros ->. by destruct w. Qed.

Lemma upd_Some p f w c :
  deref p w = Some c → upd p f w = Some (with_heap <[p := f c]> w).
Proof. unfold upd. intros ->. reflexivity. Qed.

Lemma upd_state_same p w c :
  deref p w = Some c → with_heap <[p := set_state (state c) c]> w = w.
Proof.
  unfold deref. intros H. rewrite set_state_same.
  destruct w; unfold with_heap; simpl in *. f_equal. by apply insert_id.
Qed.

Lemma deref_with_heap_insert p c w :
  deref p (with_heap <[p := c]> w) = Some c.
Proof. unfold deref. simpl. apply lookup_insert_eq. Qed.

Lemma deref_with_heap_insert_ne p q c w :
  p ≠ q → deref q (with_heap <[p := c]> w) = deref q w.
Proof. unfold deref. simpl. intros. by apply lookup_insert_ne. Qed.

Lemma with_heap_insert_insert p c1 c2 w :
  with_heap <[p := c2]> (with_heap <[p := c1]> w) = with_heap <[p := c2]> w.
Proof. unfold with_heap. simpl. f_equal. apply insert_insert_eq. Qed.

(** One byte through the [switch], in terms of [transition]. *)
Lemma read_switch_transition cl prev b w c :
  deref cl w = Some c →
  read_switch cl prev b w =
    match transition (state c) b with
    | Pending s => Some (Break, with_heap <[cl := set_state s c]> w)
    | Rejected s => Some (Return 0, w)
    | Completed => w' ← do_get cl prev w; Some (Return 1, w')
    end.
Proof.
  intros Hc. unfold read_switch, transition. rewrite Hc. simpl.
  assert (Hid : Some (Break, w) =
                Some (Break, with_heap <[cl := set_state (state c) c]> w)).
  { by rewrite (upd_state_same _ _ _ Hc). }
  destruct (state c) as [|p|p] eqn:Hs; simpl;
    [|do 3 (try destruct p as [p|p|]); simpl|];
    repeat case_decide; rewrite ?(upd_Some _ _ _ _ Hc); simpl;
    rewrite ?Hs; done.
Qed.

Lemma transition_rejected s b s' : transition s b = Rejected s' → s' = s.
Proof.
  unfold transition.
  destruct s as [|p|p]; [|do 3 (try destruct p as [p|p|])|];
    repeat case_decide; congruence.
Qed.

Lemma transition_completed s b : transition s b = Completed → s = 5.
Proof.
  unfold transition.
  destruct s as [|p|p]; [|do 3 (try destruct p as [p|p|])|];
    repeat case_decide; congruence.
Qed.

(** The [while] loop, in terms of [recognize]: the state field ends where
    the recognizer stopped, and completion is [do_get] in state 5. *)
Lemma read_loop_recognize cl prev bs : ∀ w c,
  deref cl w = Some c →
  read_loop cl prev bs w =
    match recognize (state c) bs with
    | Pending s => Some (1, with_heap <[cl := set_state s c]> w)
    | Rejected s => Some (0, with_heap <[cl := set_state s c]> w)
    | Completed =>
        w' ← do_get cl prev (with_heap <[cl := set_state 5 c]> w); Some (1, w')
    end.
Proof.
  induction bs as [|b bs IH]; intros w c Hc; simpl.
  - by rewrite (upd_state_same _ _ _ Hc).
  - rewrite (read_switch_transition _ _ _ _ _ Hc).
    destruct (transition (state c) b) as [s| |s] eqn:Ht; simpl.
    + apply transition_rejected in Ht. subst s.
      by rewrite (upd_state_same _ _ _ Hc).
    + apply transition_completed in Ht. rewrite <- Ht.
      rewrite (upd_state_same _ _ _ Hc).
      by destruct (do_get cl prev w).
    + rewrite (IH _ (set_state s c)) by apply deref_with_heap_insert.
      simpl. destruct (recognize s bs); by rewrite with_heap_insert_insert.
Qed.

(** [recognize] over a concatenation: what the state machine has reached
    after the first part decides alone how the second part is read. *)
Lemma recognize_app s bs1 bs2 :
  recognize s (bs1 ++ bs2) =
    match recognize s bs1 with
    | Pending s' => recognize s' bs2
    | v => v
    end.
Proof.
  revert s. induction bs1 as [|b bs1 IH]; intros s; simpl; [done|].
  destruct (transition s b); auto.
Qed.

(** [client_read] when the socket holds a chunk that fits the buffer. *)
Lemma client_read_data cl prev w c ch q :
  deref cl w = Some c →
  inbound (sys w) !! fd c = Some (ch :: q) →
  ch ≠ [] → (length ch ≤ HTTP_BUFSIZE)%nat →
  client_read cl prev w =
    read_loop cl prev ch
      (with_heap <[cl := set_last (sys_time w) c]>
         (with_sys (with_inbound <[fd c := q]>) w)).
Proof.
  intros Hc Hin Hne Hlen. unfold client_read, sys_read. rewrite Hc. simpl.
  rewrite Hin. destruct ch as [|b ch]; [done|].
  rewrite take_ge, drop_ge by done.
  case_decide; [simpl in *; lia|].
  unfold upd, deref in *. simpl. rewrite Hc. reflexivity.
Qed.

(** [client_read] when [read] fails or reports end of stream. *)
Lemma client_read_nodata cl prev w c :
  deref cl w = Some c →
  (inbound (sys w) !! fd c = None ∨ inbound (sys w) !! fd c = Some [] ∨
   ∃ q, inbound (sys w) !! fd c = Some ([] :: q)) →
  client_read cl prev w = Some (0, log_info (log_closing_errno (fd c)) w).
Proof.
  intros Hc H. unfold client_read, sys_read. rewrite Hc. simpl.
  destruct H as [-> | [-> | [q ->]]]; reflexivity.
Qed.

(** ** [do_get] *)

Ltac heap_step :=
  first
    [ rewrite lookup_insert_eq
    | rewrite lookup_insert_ne by congruence
    | rewrite insert_insert_eq
    | rewrite bool_decide_eq_true_2 by congruence
    | rewrite bool_decide_eq_false_2 by congruence
    | progress simpl ].
Ltac heap_simpl := repeat heap_step.

Lemma linked_at_prev_ne cl prev c w :
  linked_at cl prev c w → prev ≠ next_loc cl ∧ prev ≠ writer_head_loc.
Proof.
  intros (Hc & Hp & Hn & Hw). split; intros ->; simpl in *.
  - rewrite Hc in Hp. simpl in Hp. congruence.
  - congruence.
Qed.

Lemma do_get_moves cl prev c w :
  linked_at cl prev c w →
  ∃ w', do_get cl prev w = Some w' ∧ moved_to_writers cl prev c w w'.
Proof.
  intros Hl. destruct (linked_at_prev_ne _ _ _ _ Hl) as [Hne1 Hne2].
  destruct Hl as (Hc & Hp & Hn & Hw).
  unfold do_get. rewrite Hc. simpl.
  rewrite bool_decide_eq_true_2 by congruence. simpl.
  destruct prev as [| |p]; [| done |].
  - (* the record is the head of the reader list *)
    simpl. unfold upd, deref in *. simpl. rewrite Hc. heap_simpl.
    eexists. split; [reflexivity|].
    split; simpl; try done; unfold deref; heap_simpl; try done.
    intros q Hq _. heap_simpl. done.
  - (* the record is the successor of [p] *)
    assert (p ≠ cl) by congruence.
    simpl in Hp. unfold deref in *.
    destruct (heap w !! p) as [cp|] eqn:Hcp; [|done]. simpl in Hp.
    simpl. unfold upd, deref. simpl. rewrite Hcp. heap_simpl.
    rewrite Hc. heap_simpl.
    eexists. split; [reflexivity|].
    split; simpl; try done; unfold deref; heap_simpl; try done.
    intros q Hq Hqp. heap_simpl. done.
Qed.
(** ** Reading *)

Lemma do_get_with_sys cl prev f w :
  do_get cl prev (with_sys f w) = with_sys f <$> do_get cl prev w.
Proof.
  unfold do_get, deref. simpl.
  destruct (heap w !! cl) as [c|] eqn:Hc; [|done]. simpl.
  destruct (bool_decide (Some cl ≠ next c)); [|done]. simpl.
  destruct prev as [| |p]; simpl; unfold upd, deref; simpl.
  - rewrite Hc. heap_simpl.
    destruct (bool_decide (Some cl ≠ writer_head w)); done.
  - rewrite Hc. heap_simpl.
    destruct (bool_decide (Some cl ≠ next c)); done.
  - destruct (heap w !! p) as [cp|] eqn:Hcp; [|done]. simpl.
    destruct (<[p:=set_next (next c) cp]> (heap w) !! cl) as [c1|]; [|done].
    heap_simpl.
    destruct (bool_decide (Some cl ≠ writer_head w)); done.
Qed.
Lemma linked_at_reading cl prev c s m w :
  linked_at cl prev c w →
  linked_at cl prev (set_state s (set_last (sys_time w) c)) (reading cl c s m w).
Proof.
  intros Hl. destruct (linked_at_prev_ne _ _ _ _ Hl) as [Hne1 Hne2].
  destruct Hl as (Hc & Hp & Hn & Hw).
  repeat split; try done.
  - apply deref_with_heap_insert.
  - destruct prev as [| |p]; try done.
    simpl in *. unfold deref in *. simpl.
    rewrite lookup_insert_ne by congruence. done.
Qed.

Lemma reading_reading cl c s1 s2 m1 m2 w :
  reading cl (set_state s1 (set_last (sys_time w) c)) s2 m2
    (reading cl c s1 m1 w) = reading cl c s2 m2 w.
Proof.
  unfold reading, with_heap, with_sys, with_inbound, sys_time. simpl.
  f_equal. rewrite insert_insert_eq. reflexivity.
Qed.

(** Reads on the same record, chunk after chunk, in terms of [recognize]
    on all the bytes. *)
Lemma read_calls_recognize cl prev chunks : ∀ w c q,
  linked_at cl prev c w →
  chunks ≠ [] → Forall one_read chunks →
  inbound (sys w) !! fd c = Some (chunks ++ q) →
  match recognize (state c) (concat chunks) with
  | Pending s =>
      read_calls (length chunks) cl prev w =
        Some (1, reading cl c s (<[fd c := q]> (inbound (sys w))) w)
  | Rejected s =>
      ∃ m, read_calls (length chunks) cl prev w = Some (0, reading cl c s m w)
  | Completed =>
      ∃ m, read_calls (length chunks) cl prev w =
             (w' ← do_get cl prev (reading cl c 5 m w); Some (1, w'))
  end.
Proof.
  induction chunks as [|ch chunks IH]; intros w c q Hl Hne0 Hall Hin; [done|]. clear Hne0.
  apply Forall_cons in Hall as [[Hne Hlen] Hall].
  pose proof Hl as (Hc & Hp & Hn & Hw).
  simpl concat. rewrite recognize_app. simpl read_calls.
  rewrite (client_read_data _ _ _ _ _ _ Hc Hin Hne Hlen).
  rewrite (read_loop_recognize _ _ _ _ (set_last (sys_time w) c))
    by apply deref_with_heap_insert.
  simpl state.
  set (m1 := <[fd c := chunks ++ q]> (inbound (sys w))).
  assert (Hw1 : ∀ s,
    with_heap <[cl := set_state s (set_last (sys_time w) c)]>
      (with_heap <[cl := set_last (sys_time w) c]>
         (with_sys (with_inbound <[fd c := chunks ++ q]>) w))
    = reading cl c s m1 w).
  { intros s. unfold reading, with_heap, with_sys, with_inbound. simpl.
    f_equal. apply insert_insert_eq. }
  destruct (recognize (state c) ch) as [s| |s] eqn:Hr; rewrite Hw1.
  - exists m1. simpl. reflexivity.
  - exists m1.
    destruct (do_get_moves _ _ _ _ (linked_at_reading _ _ _ 5 m1 _ Hl))
      as (w' & Hdo & Hm).
    rewrite Hdo. simpl. rewrite (mtw_unlinked _ _ _ _ _ Hm). simpl.
    rewrite decide_False by (simpl; congruence). reflexivity.
  - simpl.
    pose proof (linked_at_reading _ _ _ s m1 _ Hl) as Hl2.
    destruct Hl2 as (Hc2 & Hp2 & Hn2 & Hw2).
    rewrite Hp2. simpl. rewrite decide_True by done.
    destruct chunks as [|ch2 chunks].
    { simpl. subst m1. rewrite app_nil_l. reflexivity. }
    specialize (IH (reading cl c s m1 w) _ q
                  (linked_at_reading _ _ _ s m1 _ Hl)).
    simpl state in IH. simpl fd in IH.
    specialize (IH ltac:(done) Hall).
    assert (Hin2 : inbound (sys (reading cl c s m1 w)) !! fd c
                   = Some ((ch2 :: chunks) ++ q)).
    { simpl. subst m1. apply lookup_insert_eq. }
    specialize (IH Hin2).
    destruct (recognize s (concat (ch2 :: chunks))) as [s'| |s'].
    + destruct IH as [m IH]. exists m. rewrite IH.
      change (sys_time (reading cl c s m1 w)) with (sys_time w).
      by rewrite reading_reading.
    + destruct IH as [m IH]. exists m. rewrite IH.
      change (sys_time (reading cl c s m1 w)) with (sys_time w).
      by rewrite reading_reading.
    + rewrite IH.
      change (sys_time (reading cl c s m1 w)) with (sys_time w).
      rewrite reading_reading. simpl. subst m1.
      by rewrite insert_insert_eq.
Qed.
Lemma linked_at_with_sys cl prev c f w :
  linked_at cl prev c w → linked_at cl prev c (with_sys f w).
Proof.
  intros (Hc & Hp & Hn & Hw). repeat split; done.
Qed.

(** One read of a chunk that fits the buffer, in terms of [recognize]. *)
Lemma client_read_recognize cl prev w c ch q :
  deref cl w = Some c →
  inbound (sys w) !! fd c = Some (ch :: q) →
  one_read ch →
  client_read cl prev w =
    let m := <[fd c := q]> (inbound (sys w)) in
    match recognize (state c) ch with
    | Pending s => Some (1, reading cl c s m w)
    | Rejected s => Some (0, reading cl c s m w)
    | Completed => w' ← do_get cl prev (reading cl c 5 m w); Some (1, w')
    end.
Proof.
  intros Hc Hin [Hne Hlen].
  rewrite (client_read_data _ _ _ _ _ _ Hc Hin Hne Hlen).
  rewrite (read_loop_recognize _ _ _ _ (set_last (sys_time w) c))
    by apply deref_with_heap_insert.
  simpl state.
  assert (Hw1 : ∀ s,
    with_heap <[cl := set_state s (set_last (sys_time w) c)]>
      (with_heap <[cl := set_last (sys_time w) c]>
         (with_sys (with_inbound <[fd c := q]>) w))
    = reading cl c s (<[fd c := q]> (inbound (sys w))) w).
  { intros s. unfold reading, with_heap, with_sys, with_inbound. simpl.
    f_equal. apply insert_insert_eq. }
  destruct (recognize (state c) ch); by rewrite Hw1.
Qed.

Lemma reading_with_sys cl c s m f w :
  clock (f (sys w)) = clock (sys w) →
  reading cl c s m (with_sys f w) =
  with_sys (λ _, with_inbound (λ _, m) (f (sys w))) (reading cl c s m w).
Proof.
  intros H. unfold reading, with_heap, with_sys, sys_time. simpl.
  rewrite H. reflexivity.
Qed.

(** [client_read] alone, for a record in the reader list: from any state,
    the bytes of one read delivered instead across several reads, in any
    partition into non-empty pieces, give the same return value and leave
    the same program state, when the calls stop as soon as the record has
    left the reader list: the state field of the record carries the
    recognizer across the calls. *)
Theorem chunking_invariance cl prev c w chunks q :
  linked_at cl prev c w →
  chunks ≠ [] → Forall one_read chunks → one_read (concat chunks) →
  inbound (sys w) !! fd c = Some (chunks ++ q) →
  ∃ r wa wb,
    read_calls (length chunks) cl prev w = Some (r, wa) ∧
    client_read cl prev
      (with_sys (with_inbound <[fd c := concat chunks :: q]>) w)
      = Some (r, wb) ∧
    program_state wa = program_state wb.
Proof.
  intros Hl Hne Hall Hone Hin.
  pose proof (read_calls_recognize cl prev chunks w c q Hl Hne Hall Hin) as H1.
  set (w1 := with_sys (with_inbound <[fd c := concat chunks :: q]>) w).
  pose proof (linked_at_with_sys _ _ _
                (with_inbound <[fd c := concat chunks :: q]>) _ Hl) as Hl1.
  fold w1 in Hl1. pose proof Hl1 as (Hc1 & _).
  assert (Hin1 : inbound (sys w1) !! fd c = Some (concat chunks :: q)).
  { simpl. apply lookup_insert_eq. }
  rewrite (client_read_recognize _ _ _ _ _ _ Hc1 Hin1 Hone). cbv zeta.
  destruct (recognize (state c) (concat chunks)) as [s| |s].
  - destruct H1 as [m H1]. eexists _, _, _. split; [exact H1|].
    split; [reflexivity|]. reflexivity.
  - destruct H1 as [m H1].
    destruct (do_get_moves _ _ _ _ (linked_at_reading _ _ _ 5 m _ Hl))
      as (wa & Hdo & _).
    rewrite Hdo in H1. simpl in H1.
    exists 1, wa. unfold w1.
    rewrite reading_with_sys by done. rewrite do_get_with_sys.
    assert (Hr : ∀ M, reading cl c 5 M w
                 = with_sys (with_inbound (λ _, M)) (reading cl c 5 m w))
      by reflexivity.
    rewrite (Hr _), do_get_with_sys, Hdo. simpl.
    eexists. split; [exact H1|]. split; reflexivity.
  - eexists _, _, _. split; [exact H1|]. split; reflexivity.
Qed.
(** ** The states after the method token *)

Lemma recognize_skip_header line :
  x0a ∉ line → recognize 6 line = Pending 6.
Proof.
  induction line as [|b line IH]; intros Hnot; [done|].
  apply not_elem_of_cons in Hnot as [Hb Hline].
  change (recognize 6 (b :: line)) with
    (match (if decide (b = x0a) then Pending 5 else Pending 6) with
     | Pending s' => recognize s' line
     | v => v
     end).
  rewrite decide_False by done. auto.
Qed.

Lemma recognize_skip_request_line line :
  x0a ∉ line → recognize 4 line = Pending 4.
Proof.
  induction line as [|b line IH]; intros Hnot; [done|].
  apply not_elem_of_cons in Hnot as [Hb Hline].
  change (recognize 4 (b :: line)) with
    (match (if decide (b = x0a) then Pending 5 else Pending 4) with
     | Pending s' => recognize s' line
     | v => v
     end).
  rewrite decide_False by done. auto.
Qed.

(** C9.  In the state after a line start (5), a first byte that is a
    carriage return or a line feed alone completes the request: the record
    moves to the writer list and the rest of the buffer is dropped.  Any
    other first byte starts a header line: its bytes are skipped (state 6)
    up to and including its line feed, after which the recognizer is back
    in state 5 and goes on with what follows. *)
Theorem line_start_blank_or_header cl prev c w :
  linked_at cl prev c w → state c = 5 →
  (∀ b rest, b = x0d ∨ b = x0a →
     ∃ w', read_loop cl prev (b :: rest) w = Some (1, w') ∧
           moved_to_writers cl prev c w w') ∧
  (∀ b line rest, b ≠ x0d → b ≠ x0a → x0a ∉ line →
     read_loop cl prev (b :: line) w =
       Some (1, with_heap <[cl := set_state 6 c]> w) ∧
     read_loop cl prev (b :: line ++ x0a :: rest) w = read_loop cl prev rest w).
Proof.
  intros Hl Hs. pose proof Hl as (Hc & _). split.
  - intros b rest Hb.
    destruct (do_get_moves _ _ _ _ Hl) as (w' & Hdo & Hm).
    exists w'. split; [|done].
    rewrite (read_loop_recognize _ _ _ _ _ Hc), Hs.
    change (recognize 5 (b :: rest)) with
      (match (if decide (b = x0d ∨ b = x0a) then Completed else Pending 6) with
       | Pending s' => recognize s' rest
       | v => v
       end).
    rewrite decide_True by done.
    rewrite <- Hs, (upd_state_same _ _ _ Hc), Hdo. reflexivity.
  - intros b line rest Hb1 Hb2 Hline.
    assert (Hstep : ∀ bs, recognize 5 (b :: bs) = recognize 6 bs).
    { intros bs.
      change (recognize 5 (b :: bs)) with
        (match (if decide (b = x0d ∨ b = x0a) then Completed else Pending 6) with
         | Pending s' => recognize s' bs
         | v => v
         end).
      rewrite decide_False by (intros [?|?]; done). done. }
    rewrite !(read_loop_recognize _ _ _ _ _ Hc), Hs, !Hstep.
    rewrite recognize_app, (recognize_skip_header _ Hline).
    split; [reflexivity|].
    change (recognize 6 (x0a :: rest)) with (recognize 5 rest).
    reflexivity.
Qed.
Lemma transition_past_method s b :
  past_method s →
  transition s b = Completed ∨
  ∃ s', transition s b = Pending s' ∧ past_method s'.
Proof.
  unfold past_method. intros [-> | [-> | ->]]; simpl; case_decide; eauto 6.
Qed.

Lemma recognize_past_method bs : ∀ s,
  past_method s →
  recognize s bs = Completed ∨
  ∃ s', recognize s bs = Pending s' ∧ past_method s'.
Proof.
  induction bs as [|b bs IH]; intros s Hs; simpl; [eauto|].
  destruct (transition_past_method s b Hs) as [-> | (s' & -> & Hs')]; auto.
Qed.

(** What is left in the socket after a read of the chunk [ch]. *)
Lemma client_read_any cl prev w c ch q :
  deref cl w = Some c →
  inbound (sys w) !! fd c = Some (ch :: q) → ch ≠ [] →
  let m := <[fd c := match drop HTTP_BUFSIZE ch with [] => q | r => r :: q end]>
             (inbound (sys w)) in
  0 < (sys_read (fd c) HTTP_BUFSIZE w).1.1 ∧
  client_read cl prev w =
    match recognize (state c) (take HTTP_BUFSIZE ch) with
    | Pending s => Some (1, reading cl c s m w)
    | Rejected s => Some (0, reading cl c s m w)
    | Completed => w' ← do_get cl prev (reading cl c 5 m w); Some (1, w')
    end.
Proof.
  intros Hc Hin Hne m. unfold client_read, sys_read. rewrite Hc. simpl.
  rewrite Hin. destruct ch as [|b ch]; [done|]. clear Hne.
  split; [simpl; lia|].
  rewrite decide_False by (simpl; lia).
  unfold upd, deref in *.
  set (M := match drop HTTP_BUFSIZE (b :: ch) with [] => q | r => r :: q end)
    in *.
  change (heap (with_sys (with_inbound <[fd c:=M]>) w)) with (heap w).
  change (sys_time (with_sys (with_inbound <[fd c:=M]>) w)) with (sys_time w).
  rewrite Hc. cbn [mbind option_bind].
  rewrite (read_loop_recognize _ _ _ _ (set_last (sys_time w) c))
    by apply deref_with_heap_insert.
  assert (Hw1 : ∀ s,
    with_heap <[cl := set_state s (set_last (sys_time w) c)]>
      (with_heap <[cl := set_last (sys_time w) c]>
         (with_sys (with_inbound <[fd c := M]>) w))
    = reading cl c s m w).
  { intros s. unfold reading, with_heap, with_sys, with_inbound. simpl.
    f_equal. apply insert_insert_eq. }
  simpl state.
  destruct (recognize (state c) (take HTTP_BUFSIZE (b :: ch)));
    by rewrite Hw1.
Qed.

Lemma moved_is_writer_at_start cl prev c w w' :
  moved_to_writers cl prev c w w' → writer_at_start cl w'.
Proof.
  intros Hm. split; [apply Hm|].
  eexists. split; [apply Hm|]. simpl.
  rewrite (mtw_wfds _ _ _ _ _ Hm), (mtw_rfds _ _ _ _ _ Hm).
  split; [done|]. split; [done|]. split.
  - apply elem_of_union_r. by apply elem_of_singleton.
  - intros [_ H]%elem_of_difference. apply H. by apply elem_of_singleton.
Qed.

(** One read that finds data, past the method token. *)
Lemma client_read_past_method cl prev c w ch q :
  linked_at cl prev c w → past_method (state c) →
  inbound (sys w) !! fd c = Some (ch :: q) → ch ≠ [] →
  ∃ w', client_read cl prev w = Some (1, w') ∧
    ((∃ c', linked_at cl prev c' w' ∧ past_method (state c') ∧
            fd c' = fd c ∧
            inbound (sys w') !! fd c =
              Some (match drop HTTP_BUFSIZE ch with [] => q | r => r :: q end))
     ∨ (writer_at_start cl w' ∧ ∃ p, load prev w' = Some p ∧ p ≠ Some cl)).
Proof.
  intros Hl Hs Hin Hne. pose proof Hl as (Hc & _).
  destruct (client_read_any cl prev w c ch q Hc Hin Hne) as [_ ->].
  set (m := <[fd c := _]> _).
  destruct (recognize_past_method (take HTTP_BUFSIZE ch) _ Hs)
    as [-> | (s' & -> & Hs')].
  - destruct (do_get_moves _ _ _ _ (linked_at_reading _ _ _ 5 m _ Hl))
      as (w' & -> & Hm).
    exists w'. split; [done|]. right.
    split; [by eapply moved_is_writer_at_start|].
    eexists. split; [apply Hm|]. simpl. apply Hl.
  - eexists. split; [done|]. left.
    eexists. split; [by apply linked_at_reading|].
    split; [done|]. split; [done|]. simpl. subst m. apply lookup_insert_eq.
Qed.

(** [client_read] alone, for a record in the reader list that is past
    the method token and the space (states 4, 5 and 6).  Byte by byte the
    [switch] never returns 0; a call of [client_read] returns 0 exactly
    when [read] delivers nothing (error or end of stream) and otherwise
    leaves the record a reader in one of the three states or has moved it
    to the writer list; and this goes on for any number of reads of any
    length, as long as the record is a reader: nothing bounds the bytes
    scanned. *)
Theorem no_rejection_past_method cl prev c w :
  linked_at cl prev c w → past_method (state c) →
  (∀ b, ∃ f w', read_switch cl prev b w = Some (f, w') ∧ f ≠ Return 0) ∧
  (∃ r w', client_read cl prev w = Some (r, w') ∧
     (r = 0 ↔ (sys_read (fd c) HTTP_BUFSIZE w).1.1 ≤ 0) ∧
     (r ≠ 0 → r = 1 ∧
        ((∃ c', linked_at cl prev c' w' ∧ past_method (state c'))
         ∨ writer_at_start cl w'))) ∧
  (∀ chunks q n,
     Forall (λ ch, ch ≠ []) chunks →
     inbound (sys w) !! fd c = Some (chunks ++ q) →
     (n ≤ length chunks)%nat →
     ∃ w', read_calls n cl prev w = Some (1, w') ∧
       ((∃ c', linked_at cl prev c' w' ∧ past_method (state c'))
        ∨ writer_at_start cl w')).
Proof.
  intros Hl Hs. pose proof Hl as (Hc & _). split; [|split].
  - intros b. rewrite (read_switch_transition _ _ _ _ _ Hc).
    destruct (transition_past_method (state c) b Hs) as [-> | (s' & -> & _)].
    + destruct (do_get_moves _ _ _ _ Hl) as (w' & -> & _). simpl. eauto.
    + eauto.
  - destruct (inbound (sys w) !! fd c) as [[|[|b ch] q]|] eqn:Hin.
    + exists 0, (log_info (log_closing_errno (fd c)) w).
      split; [apply (client_read_nodata _ _ _ _ Hc); auto|].
      unfold sys_read. rewrite Hin. simpl. split; [|done]. split; [lia|done].
    + exists 0, (log_info (log_closing_errno (fd c)) w).
      split; [apply (client_read_nodata _ _ _ _ Hc); eauto|].
      unfold sys_read. rewrite Hin. simpl. split; [|done]. split; [lia|done].
    + destruct (client_read_past_method _ _ _ _ _ _ Hl Hs Hin ltac:(done))
        as (w' & Hr & Hw').
      exists 1, w'. split; [done|].
      destruct (client_read_any cl prev w c _ q Hc Hin ltac:(done)) as [Hpos _].
      split; [split; [done|lia]|].
      intros _. split; [done|].
      destruct Hw' as [(c' & ? & ? & _)|[? _]]; eauto.
    + exists 0, (log_info (log_closing_errno (fd c)) w).
      split; [apply (client_read_nodata _ _ _ _ Hc); auto|].
      unfold sys_read. rewrite Hin. simpl. split; [|done]. split; [lia|done].
  - intros chunks q n. revert chunks q w c Hl Hs Hc.
    induction n as [|n IH]; intros chunks q w c Hl Hs Hc Hall Hin Hn.
    { exists w. split; [done|]. left. eauto. }
    destruct chunks as [|ch chunks]; [simpl in Hn; lia|].
    apply Forall_cons in Hall as [Hne Hall]. simpl in Hn.
    destruct (client_read_past_method _ _ _ _ _ _ Hl Hs Hin Hne)
      as (w' & Hr & Hw').
    simpl. rewrite Hr. simpl.
    destruct Hw' as [(c' & Hl' & Hs' & Hfd & Hin')|Hwr].
    + pose proof Hl' as (Hc' & Hp' & _). rewrite Hp'. simpl.
      rewrite decide_True by done. rewrite <- Hfd in Hin'.
      destruct (drop HTTP_BUFSIZE ch) as [|b r].
      * apply (IH chunks q w' c'); auto. lia.
      * apply (IH ((b :: r) :: chunks) q w' c'); auto.
        simpl. lia.
    + destruct Hwr as (Hwr & p & -> & Hp). simpl.
      rewrite decide_False by done. eauto.
Qed.
(** ** Writing *)

(** One call of [client_write] on a writer whose offset is in range, with a
    transport that takes [cap] bytes: the bytes written are those of the
    current buffer from [write_ofs] on, as many as the transport takes and
    the buffer has; the offset advances by that number, or the phase
    advances and the offset returns to 0 when the end is reached. *)
Lemma client_write_step cl prev w c buf cap q :
  deref cl w = Some c → fd c ≠ -1 →
  current_buffer c w = Some buf →
  0 ≤ write_ofs c ≤ Z.of_nat (length buf) →
  Z.of_nat (length buf) < UINT_MODULUS →
  capacity (sys w) !! fd c = Some (cap :: q) → 0 ≤ cap →
  let n := Z.min cap (Z.of_nat (length buf) - write_ofs c) in
  client_write cl prev w =
    Some (1,
      with_heap <[cl := advance n (Z.of_nat (length buf)) (sys_time w) c]>
        (with_sys (with_sent <[fd c := sent_on (fd c) w ++
                     take (Z.to_nat n) (drop (Z.to_nat (write_ofs c)) buf)]>)
           (with_sys (with_capacity <[fd c := q]>) w))).
Proof.
  intros Hc Hfd Hbuf Hofs Hlen Hcap Hpos n.
  unfold client_write. rewrite Hc. cbn [mbind option_bind].
  unfold current_buffer in Hbuf.
  assert (Hsel : match state c with 0 => Some (hdr w) | 1 => Some (msg w)
                 | _ => None end = Some buf) by exact Hbuf.
  rewrite Hsel.
  rewrite !bool_decide_eq_true_2 by done. cbn [assert mbind option_bind].
  unfold sys_write. rewrite Hcap. rewrite decide_False by lia.
  rewrite length_drop.
  replace (Z.min cap (Z.of_nat (length buf - Z.to_nat (write_ofs c))))
    with n by (subst n; lia).
  rewrite Z2Nat.id by (subst n; lia).
  rewrite decide_False by (subst n; lia).
  unfold upd, deref in *.
  change (heap (with_sys ?f (with_sys ?g w))) with (heap w).
  rewrite Hc. cbn [mbind option_bind]. heap_simpl.
  rewrite Z.mod_small by (unfold UINT_MODULUS in *; subst n; lia).
  rewrite bool_decide_eq_true_2 by (subst n; lia). cbn [assert mbind option_bind].
  unfold advance.
  destruct (decide (write_ofs c + n = Z.of_nat (length buf))) as [He|He].
  - heap_simpl. rewrite He.
    unfold with_heap, sys_time. simpl. rewrite !insert_insert_eq. reflexivity.
  - heap_simpl.
    unfold with_heap, sys_time. simpl. rewrite !insert_insert_eq. reflexivity.
Qed.
Lemma current_buffer_Some c w buf :
  current_buffer c w = Some buf →
  (state c = 0 ∧ buf = hdr w) ∨ (state c = 1 ∧ buf = msg w).
Proof.
  unfold current_buffer.
  destruct (state c) as [|p|p]; [|do 2 (try destruct p as [p|p|])|];
    intros; simplify_eq; auto.
Qed.

Lemma current_buffer_None cl prev c w :
  deref cl w = Some c →
  current_buffer c w = None →
  remaining c w = [] ∧ calls_left c w = 0 ∧
  client_write cl prev w =
    Some (0, log_info (log_closing_completed (fd c)) w).
Proof.
  intros Hc. unfold current_buffer, remaining, calls_left, client_write.
  rewrite Hc. cbn [mbind option_bind].
  destruct (state c) as [|p|p]; [|do 2 (try destruct p as [p|p|])|];
    intros; simplify_eq; auto.
Qed.

(** The effect of one call that makes progress on what remains to be
    sent and on the bound on the calls still needed. *)
Lemma advance_progress c w w1 buf cap now :
  current_buffer c w = Some buf →
  0 ≤ write_ofs c ≤ Z.of_nat (length buf) → 1 ≤ cap →
  hdr w1 = hdr w → msg w1 = msg w →
  let n := Z.min cap (Z.of_nat (length buf) - write_ofs c) in
  let c1 := advance n (Z.of_nat (length buf)) now c in
  fd c1 = fd c ∧ in_range c1 w1 ∧
  calls_left c1 w1 ≤ calls_left c w - 1 ∧
  take (Z.to_nat n) (drop (Z.to_nat (write_ofs c)) buf) ++ remaining c1 w1
    = remaining c w.
Proof.
  intros Hbuf Hofs Hcap Hh Hm n c1. subst c1. unfold advance.
  assert (Hn : 0 ≤ n ≤ Z.of_nat (length buf) - write_ofs c) by (subst n; lia).
  assert (Hn1 : write_ofs c < Z.of_nat (length buf) → 1 ≤ n) by (subst n; lia).
  clearbody n.
  unfold in_range, calls_left, remaining, current_buffer.
  destruct (current_buffer_Some _ _ _ Hbuf) as [[Hs ->]|[Hs ->]];
    destruct (decide (write_ofs c + n = _)) as [He|He]; simpl;
    rewrite Hs, ?Hh, ?Hm; simpl.
  - split; [done|]. split; [lia|]. split; [lia|].
    rewrite take_ge by (rewrite length_drop; lia). done.
  - split; [done|]. split; [lia|]. split; [lia|].
    rewrite app_assoc. f_equal.
    rewrite Z2Nat.inj_add by lia. rewrite <- drop_drop.
    apply take_drop.
  - split; [done|]. split; [done|]. split; [lia|].
    rewrite take_ge by (rewrite length_drop; lia). apply app_nil_r.
  - split; [done|]. split; [lia|]. split; [lia|].
    rewrite Z2Nat.inj_add by lia. rewrite <- drop_drop.
    apply take_drop.
Qed.

Lemma in_range_calls_left c w buf :
  current_buffer c w = Some buf → in_range c w →
  0 ≤ write_ofs c ≤ Z.of_nat (length buf) ∧ 1 ≤ calls_left c w.
Proof.
  intros Hbuf. unfold in_range. rewrite Hbuf. intros Hr. split; [done|].
  unfold calls_left.
  destruct (current_buffer_Some _ _ _ Hbuf) as [[Hs ->]|[Hs ->]];
    rewrite Hs; lia.
Qed.

(** A writer served until [client_write] returns 0, by a transport that
    takes at least one byte at every call: what is written is exactly
    what remained to be sent. *)
Lemma write_calls_done cl prev : ∀ (k : nat) w c caps,
  deref cl w = Some c → fd c ≠ -1 → in_range c w →
  Z.of_nat (length (hdr w)) < UINT_MODULUS →
  Z.of_nat (length (msg w)) < UINT_MODULUS →
  capacity (sys w) !! fd c = Some caps → Forall (λ x, 1 ≤ x) caps →
  calls_left c w ≤ Z.of_nat (length caps) →
  calls_left c w < Z.of_nat k →
  ∃ w', write_calls k cl prev w = Some (0, w') ∧
        sent_on (fd c) w' = sent_on (fd c) w ++ remaining c w ∧
        stderr (sys w') = log_closing_completed (fd c) :: stderr (sys w).
Proof.
  induction k as [|k IH];
    intros w c caps Hc Hfd Hr Hh Hm Hcap Hall Hlen Hk.
  { destruct (current_buffer c w) as [buf|] eqn:Hbuf.
    - destruct (in_range_calls_left _ _ _ Hbuf Hr). lia.
    - destruct (current_buffer_None cl prev _ _ Hc Hbuf) as (_ & ? & _). lia. }
  simpl write_calls.
  destruct (current_buffer c w) as [buf|] eqn:Hbuf.
  - destruct (in_range_calls_left _ _ _ Hbuf Hr) as [Hofs Hpos].
    destruct caps as [|cap caps]; [simpl in Hlen; lia|].
    apply Forall_cons in Hall as [Hcap1 Hall].
    assert (Hbl : Z.of_nat (length buf) < UINT_MODULUS).
    { by destruct (current_buffer_Some _ _ _ Hbuf) as [[_ ->]|[_ ->]]. }
    rewrite (client_write_step cl prev w c buf cap caps Hc Hfd Hbuf Hofs Hbl
               Hcap ltac:(lia)).
    cbn [mbind option_bind]. rewrite decide_False by done.
    set (n := Z.min cap (Z.of_nat (length buf) - write_ofs c)).
    set (c1 := advance n (Z.of_nat (length buf)) (sys_time w) c).
    set (w1 := with_heap _ _).
    destruct (advance_progress c w w1 buf cap (sys_time w) Hbuf Hofs Hcap1
                eq_refl eq_refl) as (Hfd1 & Hr1 & Hleft & Hrem).
    fold n c1 in Hfd1, Hr1, Hleft, Hrem.
    destruct (IH w1 c1 caps) as (w' & Hrun & Hsent & Herr); try done.
    + apply deref_with_heap_insert.
    + congruence.
    + rewrite Hfd1. subst w1. simpl. apply lookup_insert_eq.
    + simpl in Hlen. lia.
    + lia.
    + exists w'. split; [done|]. rewrite Hfd1 in Hsent, Herr.
      split; [|done].
      rewrite Hsent, <- Hrem, app_assoc. f_equal.
      subst w1. unfold sent_on at 1. simpl. rewrite lookup_insert_eq. done.
  - destruct (current_buffer_None cl prev _ _ Hc Hbuf) as (-> & _ & ->).
    cbn [mbind option_bind]. rewrite decide_True by done.
    eexists. split; [done|]. split; [|done].
    by rewrite app_nil_r.
Qed.
Lemma remaining_at_start c w :
  state c = 0 → write_ofs c = 0 →
  remaining c w = hdr w ++ msg w ∧
  calls_left c w = Z.of_nat (length (hdr w) + length (msg w) + 2).
Proof.
  unfold remaining, calls_left. intros -> ->. split; [done|]. lia.
Qed.

(** C7.  The response writer with a transport that takes fewer bytes than
    offered, down to one byte per call (buffers shorter than 2^32 bytes,
    the range of the offset).  From any position of a writer:
    - one call writes the bytes of the current buffer that start at
      [write_ofs], as many as the transport takes and never beyond the end
      of the buffer; the offset advances by just that number, or, at the
      end of the buffer, the phase advances and the offset returns to 0;
      the offset stays in range;
    - served until [client_write] returns 0, the writer has written
      exactly what remained of the response;
    - at the start of the header, what remains is the header followed by
      the body. *)
Theorem response_writer_delivers cl prev w c caps :
  deref cl w = Some c → fd c ≠ -1 → in_range c w →
  Z.of_nat (length (hdr w)) < UINT_MODULUS →
  Z.of_nat (length (msg w)) < UINT_MODULUS →
  capacity (sys w) !! fd c = Some caps → Forall (λ x, 1 ≤ x) caps →
  (∀ buf cap q,
     current_buffer c w = Some buf → caps = cap :: q →
     let n := Z.min cap (Z.of_nat (length buf) - write_ofs c) in
     let c1 := advance n (Z.of_nat (length buf)) (sys_time w) c in
     ∃ w1, client_write cl prev w = Some (1, w1) ∧
           deref cl w1 = Some c1 ∧ in_range c1 w1 ∧
           write_ofs c + n ≤ Z.of_nat (length buf) ∧
           sent_on (fd c) w1 =
             sent_on (fd c) w ++
             take (Z.to_nat n) (drop (Z.to_nat (write_ofs c)) buf)) ∧
  (calls_left c w ≤ Z.of_nat (length caps) →
   ∃ w', write_calls (S (length caps)) cl prev w = Some (0, w') ∧
         sent_on (fd c) w' = sent_on (fd c) w ++ remaining c w) ∧
  (state c = 0 → write_ofs c = 0 →
   remaining c w = hdr w ++ msg w ∧
   calls_left c w = Z.of_nat (length (hdr w) + length (msg w) + 2)).
Proof.
  intros Hc Hfd Hr Hh Hm Hcap Hall. split; [|split].
  - intros buf cap q Hbuf -> n c1.
    apply Forall_cons in Hall as [Hcap1 _].
    destruct (in_range_calls_left _ _ _ Hbuf Hr) as [Hofs _].
    assert (Hbl : Z.of_nat (length buf) < UINT_MODULUS).
    { by destruct (current_buffer_Some _ _ _ Hbuf) as [[_ ->]|[_ ->]]. }
    rewrite (client_write_step cl prev w c buf cap q Hc Hfd Hbuf Hofs Hbl
               Hcap ltac:(lia)).
    fold n c1. set (w1 := with_heap _ _).
    destruct (advance_progress c w w1 buf cap (sys_time w) Hbuf Hofs Hcap1
                eq_refl eq_refl) as (_ & Hr1 & _ & _).
    exists w1. split; [done|]. split; [apply deref_with_heap_insert|].
    split; [done|]. split; [subst n; lia|].
    subst w1. unfold sent_on at 1. simpl. by rewrite lookup_insert_eq.
  - intros Hlen.
    destruct (write_calls_done cl prev (S (length caps)) w c caps)
      as (w' & Hrun & Hsent & _); try done; [lia|].
    eauto.
  - apply remaining_at_start.
Qed.
(** ** A whole exchange *)

Lemma concat_chunk_length (chunks : list (list byte)) ch :
  ch ∈ chunks → (length ch ≤ length (concat chunks))%nat.
Proof.
  induction chunks as [|x chunks IH]; intros Hin; [by apply elem_of_nil in Hin|].
  simpl. rewrite length_app.
  apply elem_of_cons in Hin as [->|Hin]; [lia|].
  specialize (IH Hin). lia.
Qed.

Lemma chunks_one_read (chunks : list (list byte)) :
  Forall (λ ch, ch ≠ []) chunks →
  (length (concat chunks) ≤ HTTP_BUFSIZE)%nat →
  Forall one_read chunks.
Proof.
  intros Hall Hlen. apply Forall_forall. intros ch Hin. split.
  - by apply (proj1 (Forall_forall _ _) Hall).
  - pose proof (concat_chunk_length _ _ Hin). lia.
Qed.

(** ** [client_free] and the turns of the traversal *)

Lemma client_free_frees cl prev c w :
  load prev w = Some (Some cl) → deref cl w = Some c → fd c ≠ -1 →
  ∃ w', client_free cl prev w = Some w' ∧ freed cl prev c w w'.
Proof.
  intros Hp Hc Hfd. unfold client_free. rewrite Hp, Hc.
  cbn [mbind option_bind]. rewrite !bool_decide_eq_true_2 by done.
  cbn [assert mbind option_bind].
  destruct prev as [| |p].
  - simpl. unfold upd, deref in *. simpl. rewrite Hc. heap_simpl.
    eexists. split; [reflexivity|].
    split; simpl; try done; unfold deref; heap_simpl.
    + apply lookup_delete_eq.
    + intros q Hq _. rewrite lookup_delete_ne by done. heap_simpl. done.
  - simpl. unfold upd, deref in *. simpl. rewrite Hc. heap_simpl.
    eexists. split; [reflexivity|].
    split; simpl; try done; unfold deref; heap_simpl.
    + apply lookup_delete_eq.
    + intros q Hq _. rewrite lookup_delete_ne by done. heap_simpl. done.
  - simpl in Hp. unfold deref in *.
    destruct (heap w !! p) as [cp|] eqn:Hcp; [|done]. simpl in Hp.
    simpl. unfold upd, deref. simpl. rewrite Hcp. cbn [mbind option_bind].
    destruct (decide (p = cl)) as [->|Hpc].
    + (* the record is its own successor *)
      assert (cp = c) by congruence. subst cp. heap_simpl.
      eexists. split; [reflexivity|].
      split; simpl; try done; unfold deref; heap_simpl.
      * apply lookup_delete_eq.
      * intros Hn. congruence.
      * intros q Hq _. rewrite lookup_delete_ne by done. heap_simpl. done.
    + heap_simpl. rewrite Hc. heap_simpl.
      eexists. split; [reflexivity|].
      split; simpl; try done; unfold deref; heap_simpl.
      * apply lookup_delete_eq.
      * intros _. rewrite lookup_delete_ne by done. heap_simpl. done.
      * intros q Hq Hqp. rewrite lookup_delete_ne by done.
        heap_simpl. done.
Qed.
Lemma deref_note_youngest p c w : deref p (note_youngest c w) = deref p w.
Proof. unfold note_youngest. by case_decide. Qed.

Lemma load_note_youngest l c w : load l (note_youngest c w) = load l w.
Proof. unfold note_youngest. case_decide; by destruct l. Qed.

Lemma sys_note_youngest c w : sys (note_youngest c w) = sys w.
Proof. unfold note_youngest. by case_decide. Qed.

Lemma process_step_unfold fds foreach timeout prev w cl c :
  load prev w = Some (Some cl) → deref cl w = Some c →
  process_step fds foreach timeout prev w =
    let w := note_youngest c w in
    if decide (last c ≤ timeout) then
      w ← client_free cl prev (log_info (log_closing_timeout (fd c)) w);
      Some (Some prev, w)
    else if FD_ISSET (fd c) fds w then
      '(r, w) ← foreach cl prev w;
      if decide (r = 0) then
        c ← deref cl w;
        w ← client_free cl prev (log_info (log_closing_disconnect (fd c)) w);
        Some (Some prev, w)
      else
        c ← deref cl w; Some (Some (next_loc cl), FD_SET (fd c) fds w)
    else Some (Some (next_loc cl), FD_SET (fd c) fds w).
Proof.
  intros Hp Hc. unfold process_step. rewrite Hp. cbn [mbind option_bind].
  rewrite Hc. cbn [mbind option_bind].
  fold (note_youngest c w). rewrite deref_note_youngest, Hc.
  cbn [mbind option_bind]. reflexivity.
Qed.

(** A turn that finds an idle record. *)
Lemma process_step_idle fds foreach timeout prev w cl c :
  load prev w = Some (Some cl) → deref cl w = Some c → fd c ≠ -1 →
  last c ≤ timeout →
  ∃ w', process_step fds foreach timeout prev w = Some (Some prev, w') ∧
        freed cl prev c
          (log_info (log_closing_timeout (fd c)) (note_youngest c w)) w'.
Proof.
  intros Hp Hc Hfd Hidle.
  rewrite (process_step_unfold _ _ _ _ _ _ _ Hp Hc). cbv zeta.
  rewrite decide_True by done.
  destruct (client_free_frees cl prev c
              (log_info (log_closing_timeout (fd c)) (note_youngest c w)))
    as (w' & -> & Hfr); try done.
  - destruct prev; simpl in *; rewrite ?load_note_youngest; try done.
    + unfold note_youngest. by case_decide.
    + unfold note_youngest. by case_decide.
    + change (deref p (log_info (log_closing_timeout (fd c)) (note_youngest c w)))
        with (deref p (note_youngest c w)).
      by rewrite deref_note_youngest.
  - change (deref cl (log_info (log_closing_timeout (fd c)) (note_youngest c w)))
      with (deref cl (note_youngest c w)).
    by rewrite deref_note_youngest.
  - eauto.
Qed.
Lemma client_free_sys cl prev w w' :
  client_free cl prev w = Some w' →
  ∃ d, sys w' = with_closed (cons d) (sys w).
Proof.
  unfold client_free. intros H.
  destruct (load prev w) as [p|]; [|done]. cbn [mbind option_bind] in H.
  destruct (assert (bool_decide (p = Some cl))); [|done].
  cbn [mbind option_bind] in H.
  destruct (deref cl w) as [c|]; [|done]. cbn [mbind option_bind] in H.
  destruct (assert (bool_decide (fd c ≠ -1))); [|done].
  cbn [mbind option_bind] in H.
  destruct (store prev (next c) w) as [w1|] eqn:H1; [|done].
  cbn [mbind option_bind] in H.
  destruct (upd cl (set_next None) w1) as [w2|] eqn:H2; [|done].
  cbn [mbind option_bind] in H.
  destruct (deref cl w2) as [c2|]; [|done]. cbn [mbind option_bind] in H.
  injection H as <-. exists (fd c2). simpl.
  assert (sys w2 = sys w1) as ->.
  { unfold upd in H2. destruct (deref cl w1); [|done]. by injection H2 as <-. }
  assert (sys w1 = sys w) as ->; [|done].
  destruct prev; simpl in H1; try (by injection H1 as <-).
  unfold upd in H1. destruct (deref p0 w); [|done]. by injection H1 as <-.
Qed.

(** The order of the two checks in a turn of the traversal.  A turn that
    finds a record idle for more than the threshold closes it, whether or
    not its descriptor is set in the ready set: the turn is the same with a
    handler that would abort the program if called, so the handler is not
    called; nothing is read or written.  And in a whole traversal the
    handler is never called for a record that the idle check closes: the
    traversal is the same with a handler that aborts on such a record.
    This is about the records that the traversal finds at [*prev]. *)
Theorem idle_check_comes_first fds foreach prev w cl c :
  load prev w = Some (Some cl) → deref cl w = Some c → fd c ≠ -1 →
  HTTP_TIMEOUT < sys_time w - last c →
  (∃ w', process_step fds foreach (sys_time w - HTTP_TIMEOUT) prev w
           = Some (Some prev, w') ∧
         process_step fds never_called (sys_time w - HTTP_TIMEOUT) prev w
           = Some (Some prev, w') ∧
         deref cl w' = None ∧
         closed (sys w') = fd c :: closed (sys w) ∧
         (fd c ∉ rfds w') ∧ (fd c ∉ wfds w') ∧
         stderr (sys w') = log_closing_timeout (fd c) :: stderr (sys w) ∧
         inbound (sys w') = inbound (sys w) ∧
         capacity (sys w') = capacity (sys w) ∧
         sent (sys w') = sent (sys w)) ∧
  (∀ fuel head,
     process_generic fuel head fds foreach w =
     process_generic fuel head fds
       (guarded (sys_time w - HTTP_TIMEOUT) foreach) w).
Proof.
  intros Hp Hc Hfd Hidle. split.
  - assert (Hle : last c ≤ sys_time w - HTTP_TIMEOUT) by lia.
    destruct (process_step_idle fds foreach _ prev w cl c Hp Hc Hfd Hle)
      as (w' & Hstep & Hfr).
    destruct (process_step_idle fds never_called _ prev w cl c Hp Hc Hfd Hle)
      as (w'' & Hstep' & _).
    assert (w'' = w').
    { rewrite (process_step_unfold _ _ _ _ _ _ _ Hp Hc) in Hstep.
      rewrite (process_step_unfold _ _ _ _ _ _ _ Hp Hc) in Hstep'.
      cbv zeta in Hstep, Hstep'. rewrite decide_True in Hstep, Hstep' by done.
      congruence. }
    subst w''. exists w'. split; [done|]. split; [done|].
    split; [apply Hfr|].
    rewrite (fr_sys _ _ _ _ _ Hfr), (fr_rfds _ _ _ _ _ Hfr),
      (fr_wfds _ _ _ _ _ Hfr). simpl. rewrite sys_note_youngest.
    split; [done|].
    split; [intros [_ H]%elem_of_difference; apply H; by apply elem_of_singleton|].
    split; [intros [_ H]%elem_of_difference; apply H; by apply elem_of_singleton|].
    done.
  - intros fuel head. unfold process_generic.
    generalize (sys_time w - HTTP_TIMEOUT) as timeout. intros timeout.
    clear. revert head w.
    induction fuel as [|fuel IH]; intros head w; [done|]. simpl.
    assert (Hstep : process_step fds (guarded timeout foreach) timeout head w
                    = process_step fds foreach timeout head w).
    { destruct (load head w) as [[curr|]|] eqn:Hp;
        [|unfold process_step; by rewrite Hp..].
      destruct (deref curr w) as [c|] eqn:Hc;
        [|unfold process_step; rewrite Hp; cbn [mbind option_bind];
          by rewrite Hc].
      rewrite !(process_step_unfold _ _ _ _ _ _ _ Hp Hc). cbv zeta.
      destruct (decide (last c ≤ timeout)); [done|].
      destruct (FD_ISSET (fd c) fds (note_youngest c w)); [|done].
      unfold guarded. rewrite deref_note_youngest, Hc.
      cbn [mbind option_bind]. by rewrite decide_False by done. }
    rewrite Hstep.
    destruct (process_step fds foreach timeout head w) as [[[p|] w1]|];
      simpl; auto.
Qed.
(** C4 (amended).  A turn of the traversal closes the record it finds for
    idleness if and only if the time since its last activity has reached
    the threshold: [now - last >= HTTP_TIMEOUT], the test of the code being
    [last <= now - HTTP_TIMEOUT].  A record idle for exactly the threshold
    is closed. *)
Theorem idle_eviction_threshold fds foreach prev w cl c :
  load prev w = Some (Some cl) → deref cl w = Some c → fd c ≠ -1 →
  (timed_out fds foreach prev w cl c ↔ HTTP_TIMEOUT ≤ sys_time w - last c).
Proof.
  intros Hp Hc Hfd. split.
  - intros (w' & Hstep & Hgone & Hlog).
    destruct (decide (HTTP_TIMEOUT ≤ sys_time w - last c)) as [|Hn]; [done|].
    exfalso.
    rewrite (process_step_unfold _ _ _ _ _ _ _ Hp Hc) in Hstep.
    cbv zeta in Hstep. rewrite decide_False in Hstep by lia.
    destruct (FD_ISSET (fd c) fds (note_youngest c w)).
    + destruct (foreach cl prev (note_youngest c w)) as [[r w2]|]; [|done].
      cbn [mbind option_bind] in Hstep.
      destruct (decide (r = 0)).
      * destruct (deref cl w2) as [c2|]; [|done].
        cbn [mbind option_bind] in Hstep.
        destruct (client_free cl prev _) as [w3|] eqn:Hfree; [|done].
        injection Hstep as <-.
        apply client_free_sys in Hfree as [d Hsys].
        rewrite Hsys in Hlog. simpl in Hlog. congruence.
      * destruct (deref cl w2) as [c2|] eqn:Hc2; [|done].
        injection Hstep as _ <-.
        assert (deref cl (FD_SET (fd c2) fds w2) = deref cl w2)
          by (by destruct fds).
        congruence.
    + injection Hstep as _ <-.
      assert (deref cl (FD_SET (fd c) fds (note_youngest c w)) = deref cl w)
        by (destruct fds; apply deref_note_youngest).
      congruence.
  - intros Hidle.
    destruct (process_step_idle fds foreach (sys_time w - HTTP_TIMEOUT)
                prev w cl c Hp Hc Hfd ltac:(lia)) as (w' & Hstep & Hfr).
    exists w'. split; [done|]. split; [apply Hfr|].
    rewrite (fr_sys _ _ _ _ _ Hfr). simpl. by rewrite sys_note_youngest.
Qed.
Lemma linked_at_note_youngest cl prev c c0 w :
  linked_at cl prev c w → linked_at cl prev c (note_youngest c0 w).
Proof.
  intros (Hc & Hp & Hn & Hw). unfold linked_at.
  rewrite deref_note_youngest, load_note_youngest.
  repeat split; try done. unfold note_youngest. by case_decide.
Qed.

Lemma linked_at_FD_SET cl prev c d fds w :
  linked_at cl prev c w → linked_at cl prev c (FD_SET d fds w).
Proof.
  intros (Hc & Hp & Hn & Hw).
  repeat split; try done; destruct fds; try done; by destruct prev.
Qed.

Lemma deref_reading cl c s m w :
  deref cl (reading cl c s m w) = Some (set_state s (set_last (sys_time w) c)).
Proof. apply deref_with_heap_insert. Qed.

(** A turn of the reader traversal at a record that is not idle and whose
    descriptor is ready with a chunk that fits the buffer. *)
Lemma process_step_read cl prev c w ch q timeout :
  linked_at cl prev c w → fd c ∈ rfds w → timeout < last c →
  inbound (sys w) !! fd c = Some (ch :: q) → one_read ch →
  let wy := note_youngest c w in
  let m := <[fd c := q]> (inbound (sys w)) in
  process_step rfds_ptr client_read timeout prev w =
    match recognize (state c) ch with
    | Pending s =>
        Some (Some (next_loc cl), FD_SET (fd c) rfds_ptr (reading cl c s m wy))
    | Rejected s =>
        w' ← client_free cl prev
               (log_info (log_closing_disconnect (fd c)) (reading cl c s m wy));
        Some (Some prev, w')
    | Completed =>
        w' ← do_get cl prev (reading cl c 5 m wy);
        c' ← deref cl w';
        Some (Some (next_loc cl), FD_SET (fd c') rfds_ptr w')
    end.
Proof.
  intros Hl Hrdy Hidle Hin Hone wy m. pose proof Hl as (Hc & Hp & _).
  rewrite (process_step_unfold _ _ _ _ _ _ _ Hp Hc). cbv zeta.
  rewrite decide_False by lia. fold wy.
  assert (Hset : FD_ISSET (fd c) rfds_ptr wy = true).
  { unfold FD_ISSET. apply bool_decide_eq_true_2.
    subst wy. unfold note_youngest. by case_decide. }
  rewrite Hset.
  assert (Hcy : deref cl wy = Some c) by (subst wy; by rewrite deref_note_youngest).
  assert (Hiny : inbound (sys wy) !! fd c = Some (ch :: q)).
  { subst wy. by rewrite sys_note_youngest. }
  rewrite (client_read_recognize _ _ _ _ _ _ Hcy Hiny Hone). cbv zeta.
  assert (inbound (sys wy) = inbound (sys w)) as ->.
  { subst wy. by rewrite sys_note_youngest. }
  fold m.
  destruct (recognize (state c) ch) as [s| |s]; cbn [mbind option_bind].
  - rewrite decide_True by done. rewrite deref_reading.
    cbn [mbind option_bind]. reflexivity.
  - destruct (do_get cl prev (reading cl c 5 m wy)); cbn [mbind option_bind];
      [|done].
    rewrite decide_False by done. reflexivity.
  - rewrite decide_False by done. rewrite deref_reading.
    cbn [mbind option_bind]. reflexivity.
Qed.
(** A byte among the first four that differs from the method token and
    the space is rejected, at the first such byte. *)
Lemma recognize_mismatch bs i b b' :
  bs !! i = Some b → method_and_space !! i = Some b' → b ≠ b' →
  ∃ s, recognize 0 bs = Rejected s.
Proof.
  intros Hb Hm Hne.
  destruct bs as [|b0 bs]; [done|].
  simpl. destruct (decide (b0 = "G"%byte)) as [->|]; [|eauto].
  destruct i as [|i]; [simpl in *; congruence|].
  destruct bs as [|b1 bs]; [done|].
  simpl. destruct (decide (b1 = "E"%byte)) as [->|]; [|eauto].
  destruct i as [|i]; [simpl in *; congruence|].
  destruct bs as [|b2 bs]; [done|].
  simpl. destruct (decide (b2 = "T"%byte)) as [->|]; [|eauto].
  destruct i as [|i]; [simpl in *; congruence|].
  destruct bs as [|b3 bs]; [done|].
  simpl. destruct (decide (b3 = " "%byte)) as [->|]; [|eauto].
  destruct i as [|i]; [simpl in *; congruence|].
  done.
Qed.

(** Turns of the reader traversal at a record whose input the recognizer
    rejects: the record is released in the turn that reads the rejected
    byte, nothing having been written. *)
Lemma read_turns_rejects cl prev chunks : ∀ w c q s',
  linked_at cl prev c w → fd c ≠ -1 → fd c ∈ rfds w →
  sys_time w - HTTP_TIMEOUT < last c →
  Forall one_read chunks →
  inbound (sys w) !! fd c = Some (chunks ++ q) →
  recognize (state c) (concat chunks) = Rejected s' →
  ∃ w2, read_turns (length chunks) cl prev w = Some w2 ∧
        deref cl w2 = None ∧ load prev w2 = Some (next c) ∧
        closed (sys w2) = fd c :: closed (sys w) ∧
        stderr (sys w2) = log_closing_disconnect (fd c) :: stderr (sys w) ∧
        sent (sys w2) = sent (sys w) ∧
        capacity (sys w2) = capacity (sys w) ∧
        (fd c ∉ rfds w2) ∧ (fd c ∉ wfds w2).
Proof.
  induction chunks as [|ch chunks IH];
    intros w c q s' Hl Hfd Hrdy Hidle Hall Hin Hrej; [done|].
  apply Forall_cons in Hall as [Hone Hall].
  simpl concat in Hrej. rewrite recognize_app in Hrej.
  rewrite <- app_comm_cons in Hin.
  simpl read_turns.
  rewrite (process_step_read _ _ _ _ _ _ _ Hl Hrdy Hidle Hin Hone). cbv zeta.
  set (wy := note_youngest c w).
  set (m := <[fd c := chunks ++ q]> (inbound (sys w))).
  pose proof (linked_at_note_youngest _ _ _ c _ Hl) as Hly. fold wy in Hly.
  destruct (recognize (state c) ch) as [s| |s] eqn:Hr; [|done|].
  - (* rejected in this chunk *)
    pose proof (linked_at_reading _ _ _ s m _ Hly) as (Hc1 & Hp1 & Hn1 & _).
    destruct (client_free_frees cl prev _
                (log_info (log_closing_disconnect (fd c)) (reading cl c s m wy))
                Hp1 Hc1 Hfd) as (w2 & Hfree & Hfr).
    rewrite Hfree. cbn [mbind option_bind].
    rewrite (fr_unlinked _ _ _ _ _ Hfr Hn1). cbn [mbind option_bind].
    rewrite decide_False by exact Hn1.
    exists w2. split; [done|]. split; [apply Hfr|].
    split; [apply (fr_unlinked _ _ _ _ _ Hfr Hn1)|].
    rewrite (fr_sys _ _ _ _ _ Hfr), (fr_rfds _ _ _ _ _ Hfr),
      (fr_wfds _ _ _ _ _ Hfr). simpl. subst wy. rewrite sys_note_youngest.
    split; [done|]. split; [done|]. split; [done|]. split; [done|].
    split; intros [_ H]%elem_of_difference; apply H; by apply elem_of_singleton.
  - (* not yet: the record stays and the next turn reads on *)
    cbn [mbind option_bind].
    set (w1 := FD_SET (fd c) rfds_ptr (reading cl c s m wy)).
    pose proof (linked_at_FD_SET _ _ _ (fd c) rfds_ptr _
                  (linked_at_reading _ _ _ s m _ Hly)) as Hl1.
    fold w1 in Hl1. pose proof Hl1 as (_ & Hp1 & _).
    rewrite Hp1. cbn [mbind option_bind]. rewrite decide_True by done.
    destruct (IH w1 _ q s' Hl1) as (w2 & Hrun & Hgone & Hun & Hcl & Herr & Hsent & Hcap & Hr1 & Hr2);
      try done.
    + subst w1. simpl. apply elem_of_union_r. by apply elem_of_singleton.
    + simpl. unfold sys_time. simpl. subst wy. rewrite sys_note_youngest.
      unfold HTTP_TIMEOUT. lia.
    + simpl. subst m. apply lookup_insert_eq.
    + exists w2. split; [done|]. simpl in *.
      subst wy. rewrite sys_note_youngest in *. done.
Qed.
(** C2.  A reader at the start of a request whose input differs from
    [GET] followed by a space at one of the first four bytes (in any case
    of letters, at any cut into reads): the recognizer returns 0 at the
    first such byte, and the traversal turn in which that happens releases
    the record and closes its descriptor.  No [write] was issued and
    nothing was sent on the descriptor. *)
Theorem mismatch_closes_without_response cl prev c w chunks q i b b' :
  linked_at cl prev c w → state c = 0 → fd c ≠ -1 → fd c ∈ rfds w →
  sys_time w - last c < HTTP_TIMEOUT →
  Forall one_read chunks →
  inbound (sys w) !! fd c = Some (chunks ++ q) →
  concat chunks !! i = Some b → method_and_space !! i = Some b' → b ≠ b' →
  (∃ w1, read_calls (length chunks) cl prev w = Some (0, w1) ∧
         sent (sys w1) = sent (sys w) ∧
         capacity (sys w1) = capacity (sys w)) ∧
  (∃ w2, read_turns (length chunks) cl prev w = Some w2 ∧
         deref cl w2 = None ∧ load prev w2 = Some (next c) ∧
         closed (sys w2) = fd c :: closed (sys w) ∧
         stderr (sys w2) = log_closing_disconnect (fd c) :: stderr (sys w) ∧
         sent (sys w2) = sent (sys w) ∧
         capacity (sys w2) = capacity (sys w) ∧
         (fd c ∉ rfds w2) ∧ (fd c ∉ wfds w2)).
Proof.
  intros Hl Hs Hfd Hrdy Hidle Hall Hin Hb Hm Hne.
  destruct (recognize_mismatch _ _ _ _ Hb Hm Hne) as [s Hrej].
  assert (Hne0 : chunks ≠ []) by (intros ->; done).
  split.
  - pose proof (read_calls_recognize cl prev chunks w c q Hl Hne0 Hall Hin)
      as Hrd.
    rewrite Hs, Hrej in Hrd. destruct Hrd as [m Hrd].
    eexists. split; [exact Hrd|]. done.
  - apply (read_turns_rejects cl prev chunks w c q s); try done; [lia|].
    by rewrite Hs.
Qed.
(** ** What the handlers leave alone *)

Lemma untouched_refl w : untouched w w.
Proof. by repeat split. Qed.

Lemma untouched_trans w1 w2 w3 :
  untouched w1 w2 → untouched w2 w3 → untouched w1 w3.
Proof.
  intros (?&?&?&?&?&?) (?&?&?&?&?&?). repeat split; congruence.
Qed.

Lemma upd_untouched p f w w' : upd p f w = Some w' → untouched w w'.
Proof.
  unfold upd. destruct (deref p w); [|done]. intros [= <-]. by repeat split.
Qed.

Lemma store_untouched l v w w' : store l v w = Some w' → untouched w w'.
Proof.
  destruct l; simpl; try (intros [= <-]; by repeat split).
  apply upd_untouched.
Qed.

Lemma do_get_untouched cl prev w w' :
  do_get cl prev w = Some w' → untouched w w'.
Proof.
  unfold do_get. intros H.
  destruct (deref cl w) as [c|]; [|done]. cbn [mbind option_bind] in H.
  destruct (assert _); cbn [mbind option_bind] in H; [|done].
  destruct (store prev (next c) w) as [w1|] eqn:H1; [|done].
  cbn [mbind option_bind] in H.
  destruct (upd cl (set_next (writer_head w1)) w1) as [w2|] eqn:H2; [|done].
  cbn [mbind option_bind] in H.
  destruct (deref cl (with_writer_head (Some cl) w2)) as [c2|]; [|done].
  cbn [mbind option_bind] in H.
  destruct (upd cl (set_write_ofs 0) _) as [w3|] eqn:H3; [|done].
  cbn [mbind option_bind] in H.
  destruct (deref cl w3) as [c3|]; [|done]. cbn [mbind option_bind] in H.
  destruct (assert _); cbn [mbind option_bind] in H; [|done].
  apply store_untouched in H1. apply upd_untouched in H2, H3, H.
  destruct H1 as (?&?&?&?&?&?), H2 as (?&?&?&?&?&?),
    H3 as (?&?&?&?&?&?), H as (?&?&?&?&?&?).
  simpl in *. repeat split; congruence.
Qed.

Lemma read_loop_untouched cl prev buf : ∀ w r w',
  read_loop cl prev buf w = Some (r, w') → untouched w w'.
Proof.
  induction buf as [|b buf IH]; intros w r w' H; simpl in H.
  { injection H as _ <-. apply untouched_refl. }
  destruct (read_switch cl prev b w) as [[f w1]|] eqn:Hsw; [|done].
  cbn [mbind option_bind] in H.
  assert (untouched w w1) as Hw1.
  { unfold read_switch in Hsw.
    destruct (deref cl w) as [c|]; [|done]. cbn [mbind option_bind] in Hsw.
    assert (Hincr : ∀ g, (upd cl g w ≫= λ w0, Some (Break, w0)) = Some (f, w1)
                         → untouched w w1).
    { intros g Hg. destruct (upd cl g w) as [w0|] eqn:Hu; [|done].
      injection Hg as _ <-. by eapply upd_untouched. }
    destruct (state c) as [|p|p]; [|do 3 (try destruct p as [p|p|])|];
      repeat case_decide; simplify_eq; eauto using untouched_refl.
    destruct (do_get cl prev w) as [w0|] eqn:Hd; [|done].
    injection Hsw as _ <-. by eapply do_get_untouched. }
  destruct f as [r0|].
  - injection H as _ <-. done.
  - eapply untouched_trans; [done|]. by eapply IH.
Qed.

Lemma client_read_untouched cl prev w r w' :
  client_read cl prev w = Some (r, w') → untouched w w'.
Proof.
  unfold client_read. intros H.
  destruct (deref cl w) as [c|]; [|done]. cbn [mbind option_bind] in H.
  destruct (sys_read (fd c) HTTP_BUFSIZE w) as [[len buf] w1] eqn:Hrd.
  assert (untouched w w1) as Hw1.
  { unfold sys_read in Hrd.
    destruct (inbound (sys w) !! fd c) as [[|[|b ch] q]|];
      injection Hrd as _ _ <-; by repeat split. }
  case_decide.
  - injection H as _ <-. eapply untouched_trans; [done|]. by repeat split.
  - destruct (upd cl (set_last (sys_time w1)) w1) as [w2|] eqn:Hu; [|done].
    cbn [mbind option_bind] in H.
    eapply untouched_trans; [done|].
    eapply untouched_trans; [by eapply upd_untouched|].
    by eapply read_loop_untouched.
Qed.

Lemma client_write_untouched cl prev w r w' :
  client_write cl prev w = Some (r, w') → untouched w w'.
Proof.
  unfold client_write. intros H.
  destruct (deref cl w) as [c|]; [|done]. cbn [mbind option_bind] in H.
  destruct (match state c with 0 => Some (hdr w) | 1 => Some (msg w)
            | _ => None end) as [buf|].
  2: { injection H as _ <-. by repeat split. }
  destruct (assert (bool_decide (fd c ≠ -1)));
    cbn [mbind option_bind] in H; [|done].
  destruct (assert (bool_decide (0 ≤ write_ofs c ≤ _)));
    cbn [mbind option_bind] in H; [|done].
  destruct (sys_write (fd c) _ w) as [res w1] eqn:Hwr.
  assert (untouched w w1) as Hw1.
  { unfold sys_write in Hwr.
    destruct (capacity (sys w) !! fd c) as [[|cap q]|];
      try (injection Hwr as _ <-; by repeat split).
    destruct (decide (cap < 0)); injection Hwr as _ <-; by repeat split. }
  case_decide.
  { injection H as _ <-. eapply untouched_trans; [done|]. by repeat split. }
  destruct (upd cl _ w1) as [w2|] eqn:Hu2; [|done].
  cbn [mbind option_bind] in H.
  destruct (deref cl w2) as [c2|]; [|done]. cbn [mbind option_bind] in H.
  destruct (assert _); cbn [mbind option_bind] in H; [|done].
  match type of H with
  | (?x ≫= _) = _ => destruct x as [w3|] eqn:Hu3; [|done]
  end.
  cbn [mbind option_bind] in H.
  destruct (upd cl (set_last (sys_time w3)) w3) as [w4|] eqn:Hu4; [|done].
  injection H as _ <-.
  eapply untouched_trans; [done|].
  eapply untouched_trans; [by eapply upd_untouched|].
  eapply untouched_trans; [|by eapply upd_untouched].
  case_decide; [by eapply upd_untouched|].
  injection Hu3 as <-. apply untouched_refl.
Qed.
Lemma client_free_untouched cl prev w w' :
  client_free cl prev w = Some w' → untouched w w'.
Proof.
  unfold client_free. intros H.
  destruct (load prev w) as [p|]; [|done]. cbn [mbind option_bind] in H.
  destruct (assert (bool_decide (p = Some cl)));
    cbn [mbind option_bind] in H; [|done].
  destruct (deref cl w) as [c|]; [|done]. cbn [mbind option_bind] in H.
  destruct (assert (bool_decide (fd c ≠ -1)));
    cbn [mbind option_bind] in H; [|done].
  destruct (store prev (next c) w) as [w1|] eqn:H1; [|done].
  cbn [mbind option_bind] in H.
  destruct (upd cl (set_next None) w1) as [w2|] eqn:H2; [|done].
  cbn [mbind option_bind] in H.
  destruct (deref cl w2) as [c2|]; [|done]. cbn [mbind option_bind] in H.
  injection H as <-.
  apply store_untouched in H1. apply upd_untouched in H2.
  destruct H1 as (?&?&?&?&?&?), H2 as (?&?&?&?&?&?).
  repeat split; simpl; congruence.
Qed.

(** A turn of a traversal whose handler leaves [youngest] and the other
    untouched parts alone: [youngest] takes in the [last] field of the
    record found, whatever becomes of the record. *)
Lemma process_step_youngest fds foreach timeout prev w k w' :
  (∀ cl prev w r w', foreach cl prev w = Some (r, w') → untouched w w') →
  process_step fds foreach timeout prev w = Some (k, w') →
  backlog (sys w') = backlog (sys w) ∧ clock (sys w') = clock (sys w) ∧
  youngest w' = min_with (youngest w) (visited 1 fds foreach timeout prev w).
Proof.
  intros Hframe Hstep. simpl.
  destruct (load prev w) as [[curr|]|] eqn:Hp.
  2: { unfold process_step in Hstep. rewrite Hp in Hstep.
       by injection Hstep as _ <-. }
  2: { unfold process_step in Hstep. by rewrite Hp in Hstep. }
  destruct (deref curr w) as [c|] eqn:Hc.
  2: { unfold process_step in Hstep. rewrite Hp in Hstep.
       cbn [mbind option_bind] in Hstep. by rewrite Hc in Hstep. }
  rewrite Hstep.
  assert (Hy : youngest (note_youngest c w) = Z.min (last c) (youngest w)
               ∧ sys (note_youngest c w) = sys w).
  { unfold note_youngest. case_decide; simpl; split; try done; lia. }
  destruct Hy as [Hy Hsys].
  assert (Hgoal : untouched (note_youngest c w) w' →
    backlog (sys w') = backlog (sys w) ∧ clock (sys w') = clock (sys w) ∧
    youngest w' = min_with (youngest w)
                    (last c :: match k with Some _ => [] | None => [] end)).
  { intros (?&?&?&_). rewrite <- Hsys. split; [done|]. split; [done|].
    destruct k; simpl; congruence. }
  destruct k; apply Hgoal; clear Hgoal;
    rewrite (process_step_unfold _ _ _ _ _ _ _ Hp Hc) in Hstep;
    cbv zeta in Hstep.
  all: destruct (decide (last c ≤ timeout)).
  all: try (destruct (client_free _ _ _) as [w1|] eqn:Hfree; [|done];
            injection Hstep as _ <-; apply client_free_untouched in Hfree;
            eapply untouched_trans; [|exact Hfree]; by repeat split).
  all: destruct (FD_ISSET (fd c) fds (note_youngest c w));
    [|injection Hstep as _ <-; destruct fds; by repeat split].
  all: destruct (foreach curr prev (note_youngest c w)) as [[r w1]|] eqn:Hf;
    [|done]; cbn [mbind option_bind] in Hstep; apply Hframe in Hf.
  all: destruct (decide (r = 0));
    (destruct (deref curr w1) as [c1|]; [|done]);
    cbn [mbind option_bind] in Hstep.
  all: try (destruct (client_free _ _ _) as [w2|] eqn:Hfree; [|done];
            injection Hstep as _ <-; apply client_free_untouched in Hfree;
            eapply untouched_trans; [exact Hf|];
            eapply untouched_trans; [|exact Hfree]; by repeat split).
  all: injection Hstep as _ <-; eapply untouched_trans; [exact Hf|];
    destruct fds; by repeat split.
Qed.
Lemma min_with_min a d l : min_with (Z.min a d) l = Z.min a (min_with d l).
Proof.
  unfold min_with. induction l as [|x l IH]; simpl; [done|].
  rewrite IH. lia.
Qed.

Lemma min_with_app d l1 l2 :
  min_with d (l1 ++ l2) = min_with (min_with d l2) l1.
Proof. unfold min_with. apply foldr_app. Qed.

(** A whole traversal whose handler leaves [youngest] alone: [youngest]
    ends as the smallest of its initial value and the [last] fields found
    turn after turn, those of the records closed included. *)
Lemma process_loop_youngest fds foreach timeout :
  (∀ cl prev w r w', foreach cl prev w = Some (r, w') → untouched w w') →
  ∀ fuel prev w w',
    process_loop fuel fds foreach timeout prev w = Some w' →
    backlog (sys w') = backlog (sys w) ∧ clock (sys w') = clock (sys w) ∧
    youngest w' =
      min_with (youngest w) (visited fuel fds foreach timeout prev w).
Proof.
  intros Hframe. induction fuel as [|fuel IH]; intros prev w w' Hrun; [done|].
  simpl in Hrun.
  destruct (process_step fds foreach timeout prev w) as [[k w1]|] eqn:Hstep;
    [|done].
  cbn [mbind option_bind] in Hrun.
  destruct (process_step_youngest _ _ _ _ _ _ _ Hframe Hstep)
    as (Hb1 & Hc1 & Hy1).
  destruct k as [prev'|].
  - destruct (IH _ _ _ Hrun) as (Hb & Hc & Hy).
    split; [congruence|]. split; [congruence|].
    rewrite Hy, Hy1. clear Hy Hy1. simpl.
    destruct (load prev w) as [[curr|]|] eqn:Hp.
    2: { unfold process_step in Hstep. rewrite Hp in Hstep. done. }
    2: { unfold process_step in Hstep. by rewrite Hp in Hstep. }
    destruct (deref curr w) as [c|] eqn:Hc0.
    2: { unfold process_step in Hstep. rewrite Hp in Hstep.
         cbn [mbind option_bind] in Hstep. by rewrite Hc0 in Hstep. }
    rewrite Hstep. unfold min_with at 2. simpl.
    fold (min_with (youngest w) (visited fuel fds foreach timeout prev' w1)).
    fold (min_with (youngest w) []).
    rewrite <- min_with_min. f_equal.
  - injection Hrun as <-. split; [done|]. split; [done|].
    rewrite Hy1. simpl.
    destruct (load prev w) as [[curr|]|]; [|done..].
    destruct (deref curr w); [|done]. by rewrite Hstep.
Qed.
(** ** Accepting connections *)

Lemma process_generic_backlog fuel head fds foreach w w' :
  (∀ cl prev w r w', foreach cl prev w = Some (r, w') → untouched w w') →
  process_generic fuel head fds foreach w = Some w' →
  backlog (sys w') = backlog (sys w) ∧ clock (sys w') = clock (sys w).
Proof.
  intros Hframe Hrun. unfold process_generic in Hrun.
  destruct (process_loop_youngest _ _ _ Hframe _ _ _ _ Hrun) as (?&?&_).
  done.
Qed.

(** C3 (amended).  In a turn of the main loop in which the listening
    descriptor is reported ready, [accept] is called once: with nothing
    pending nothing changes; otherwise exactly the first pending connection
    is accepted and becomes a new record at the head of the reader list,
    in recognizer state 0, with the current time as its last activity and
    its descriptor in the read set.  The connections behind it stay
    pending until later turns. *)
Theorem one_accept_per_turn listen_fd w :
  listen_fd ∈ rfds w →
  match reader_head w with Some p => is_Some (deref p w) | None => True end →
  (backlog (sys w) = [] → accept_step listen_fd w = Some w) ∧
  (∀ d rest, backlog (sys w) = d :: rest → 0 ≤ d →
     ∃ w', accept_step listen_fd w = Some w' ∧
           backlog (sys w') = rest ∧
           deref (calloc w) w = None ∧
           reader_head w' = Some (calloc w) ∧
           deref (calloc w) w' =
             Some (Client d 0 (reader_head w) (sys_time w) 0) ∧
           rfds w' = rfds w ∪ {[d]} ∧
           (∀ q, q ≠ calloc w → deref q w' = deref q w) ∧
           writer_head w' = writer_head w ∧
           fd_max w' = Z.max (fd_max w) d) ∧
  (∀ fuel w', after_select fuel listen_fd w = Some w' →
              backlog (sys w') = tail (backlog (sys w))).
Proof.
  intros Hrdy Hhead.
  assert (Hset : FD_ISSET listen_fd rfds_ptr w = true)
    by (by apply bool_decide_eq_true_2).
  assert (Hfresh : deref (calloc w) w = None).
  { unfold deref, calloc. apply not_elem_of_dom. apply is_fresh. }
  assert (Hacc : ∀ d rest, backlog (sys w) = d :: rest → 0 ≤ d →
     accept_step listen_fd w =
       Some ((if decide (d > fd_max w) then with_fd_max d else id)
               (FD_SET d rfds_ptr
                  (with_reader_head (Some (calloc w))
                     (with_heap <[calloc w :=
                          Client d 0 (reader_head w) (sys_time w) 0]>
                        (log_info (log_new_client d)
                           (with_sys (with_backlog rest) w))))))).
  { intros d rest Hb Hd. unfold accept_step. rewrite Hset.
    unfold client_accept, sys_accept. rewrite Hb.
    rewrite decide_False by lia. simpl.
    rewrite bool_decide_eq_true_2.
    - simpl. by case_decide.
    - destruct (reader_head w) as [p|]; [|done].
      intros [= E]. rewrite <- E in Hhead.
      change (calloc (log_info (log_new_client d)
                (with_sys (with_backlog rest) w))) with (calloc w) in Hhead.
      rewrite Hfresh in Hhead. by destruct Hhead. }
  split; [|split].
  - intros Hb. unfold accept_step. rewrite Hset.
    unfold client_accept, sys_accept. rewrite Hb. reflexivity.
  - intros d rest Hb Hd. eexists. split; [by apply Hacc|].
    case_decide; simpl.
    + split; [done|]. split; [done|]. split; [done|].
      split; [apply deref_with_heap_insert|]. split; [done|].
      split; [intros q Hq; unfold deref; simpl; by rewrite lookup_insert_ne|].
      split; [done|]. lia.
    + split; [done|]. split; [done|]. split; [done|].
      split; [apply deref_with_heap_insert|]. split; [done|].
      split; [intros q Hq; unfold deref; simpl; by rewrite lookup_insert_ne|].
      split; [done|]. lia.
  - intros fuel w' Hrun. unfold after_select in Hrun.
    destruct (accept_step listen_fd w) as [wa|] eqn:Ha; [|done].
    cbn [mbind option_bind] in Hrun.
    destruct (process_readers fuel _) as [wr|] eqn:Hr; [|done].
    cbn [mbind option_bind] in Hrun.
    apply process_generic_backlog in Hr as [Hr _];
      [|apply client_read_untouched].
    apply process_generic_backlog in Hrun as [Hw _];
      [|apply client_write_untouched].
    rewrite Hw, Hr. simpl.
    destruct (backlog (sys w)) as [|d rest] eqn:Hb.
    + unfold accept_step in Ha. rewrite Hset in Ha.
      unfold client_accept, sys_accept in Ha. rewrite Hb in Ha.
      simpl in Ha. injection Ha as <-. done.
    + unfold accept_step in Ha. rewrite Hset in Ha.
      unfold client_accept, sys_accept in Ha. rewrite Hb in Ha.
      case_decide; [by injection Ha as <-|].
      simpl in Ha.
      destruct (assert _); [|done]. simpl in Ha. injection Ha as <-.
      by case_decide.
Qed.

(** C3 as stated fails: with two connections pending and the listening
    descriptor ready, the turn ends with one of them still pending. *)
Lemma accept_does_not_drain :
  ¬ (∀ w', after_select 4 3 two_pending = Some w' → backlog (sys w') = []).
Proof.
  intros H.
  assert (∃ w', after_select 4 3 two_pending = Some w' ∧
                backlog (sys w') = [5]) as (w' & Hrun & Hb).
  { eexists. split; [vm_compute; reflexivity|reflexivity]. }
  specialize (H w' Hrun). congruence.
Qed.
(** ** The idle threshold and the next wait *)

(** C4 as stated fails: a reader idle for exactly the threshold (last
    activity at 5, clock at 10) is closed for idleness. *)
Lemma idle_for_exactly_the_threshold_is_closed :
  ¬ (timed_out rfds_ptr client_read reader_head_loc
       (one_reader 5 (quiet 10)) 1%positive (fresh_reader 5)
     ↔ HTTP_TIMEOUT < sys_time (one_reader 5 (quiet 10)) - last (fresh_reader 5)).
Proof.
  intros [H _].
  assert (timed_out rfds_ptr client_read reader_head_loc
            (one_reader 5 (quiet 10)) 1%positive (fresh_reader 5)) as Ht.
  { eexists. split; [vm_compute; reflexivity|]. split; reflexivity. }
  apply H in Ht. vm_compute in Ht. discriminate.
Qed.

Lemma select_timeout_clamped w :
  select_timeout w =
    if decide (youngest w = INT_MAX) then None
    else Some (Z.max 0 (youngest w + HTTP_TIMEOUT - sys_time w)).
Proof.
  unfold select_timeout. repeat case_decide; try done; f_equal; lia.
Qed.

(** C5 as stated fails: a turn that closes the only connection for
    idleness leaves no connection, yet [youngest] holds the last activity
    of the closed record and the next wait is 0 seconds, not without
    limit. *)
Lemma closed_record_counts_in_youngest :
  ¬ (∀ w', main_turn 4 3 ∅ ∅ 10 (one_reader 0 (quiet 0)) = Some w' →
           heap w' = ∅ → select_timeout w' = None).
Proof.
  intros H.
  assert (∃ w', main_turn 4 3 ∅ ∅ 10 (one_reader 0 (quiet 0)) = Some w' ∧
                heap w' = ∅ ∧ youngest w' = 0 ∧
                select_timeout w' = Some 0) as (w' & Hrun & Hh & _ & Ht).
  { eexists. split; [vm_compute; reflexivity|]. repeat split. }
  specialize (H w' Hrun Hh). congruence.
Qed.
(** ** The two lists *)

Lemma seg_app w l1 : ∀ p l2 q,
  seg w p (l1 ++ l2) q ↔ ∃ m, seg w p l1 m ∧ seg w m l2 q.
Proof.
  induction l1 as [|a l1 IH]; intros p l2 q; simpl.
  - split; [eauto|]. by intros (m & -> & ?).
  - split.
    + intros (-> & nx & Hn & Hs). apply IH in Hs as (m & ? & ?). eauto 8.
    + intros (m & (-> & nx & Hn & Hs) & Hs'). split; [done|].
      exists nx. split; [done|]. apply IH. eauto.
Qed.

Lemma seg_same w w' l : ∀ p q,
  (∀ a, a ∈ l → next_of w' a = next_of w a) →
  seg w p l q → seg w' p l q.
Proof.
  induction l as [|a l IH]; intros p q Hsame; simpl; [done|].
  intros (-> & nx & Hn & Hs). split; [done|]. exists nx. split.
  - rewrite Hsame; [done|]. apply elem_of_cons. by left.
  - apply IH; [|done]. intros b Hb. apply Hsame. apply elem_of_cons. by right.
Qed.

Lemma seg_det w l1 : ∀ l2 p,
  seg w p l1 None → seg w p l2 None → l1 = l2.
Proof.
  induction l1 as [|a l1 IH]; intros [|b l2] p; simpl; try done.
  - intros -> (? & _). done.
  - intros (-> & _) ?. done.
  - intros (-> & nx & Hn & Hs) ([= <-] & nx' & Hn' & Hs').
    f_equal. rewrite Hn in Hn'. injection Hn' as <-. by eapply IH.
Qed.

Lemma seg_head w p l q :
  seg w p l q → l ≠ [] → p = head l.
Proof. destruct l; [done|]. by intros (-> & _) _. Qed.

Lemma seg_nil_head w p l :
  seg w p l None → p = head l.
Proof. destruct l; simpl; [done|]. by intros (-> & _). Qed.
Lemma cursor_loc_nil s : cursor_loc s [] = head_loc s.
Proof. done. Qed.

Lemma cursor_loc_snoc s pre p : cursor_loc s (pre ++ [p]) = next_loc p.
Proof. unfold cursor_loc. by rewrite last_snoc. Qed.

Lemma head_loc_ne s p : head_loc s ≠ next_loc p.
Proof. by destruct s. Qed.

Lemma load_head_loc s w :
  load (head_loc s) w = Some (head_of s w).
Proof. by destruct s. Qed.

Lemma load_next_loc p w : load (next_loc p) w = next_of w p.
Proof. done. Qed.

(** Where the cursor stands, [*prev] is the first record still to come. *)
Lemma seg_cursor_load w s pre rest :
  seg w (head_of s w) (pre ++ rest) None →
  load (cursor_loc s pre) w = Some (head rest).
Proof.
  intros Hs. apply seg_app in Hs as (m & Hpre & Hrest).
  apply seg_nil_head in Hrest. subst m.
  destruct pre as [|x pre'] using rev_ind.
  - rewrite cursor_loc_nil, load_head_loc. simpl in Hpre. by rewrite Hpre.
  - clear IHpre'. rewrite cursor_loc_snoc, load_next_loc.
    apply seg_app in Hpre as (m & _ & Hx). simpl in Hx.
    destruct Hx as (_ & nx & Hn & <-). done.
Qed.

(** Unlinking the record the cursor stands at: the records before it now
    lead to its successor. *)
Lemma seg_bypass w w' s pre curr hd hd' nx :
  seg w hd pre (Some curr) →
  curr ∉ pre → NoDup pre →
  (∀ q, q ≠ curr → next_loc q ≠ cursor_loc s pre →
        next_of w' q = next_of w q) →
  load (cursor_loc s pre) w' = Some nx →
  (pre = [] → hd' = nx) → (pre ≠ [] → hd' = hd) →
  seg w' hd' pre nx.
Proof.
  intros Hs Hcurr Hnd Hsame Hload Hnil Hcons.
  destruct pre as [|p pre'] using rev_ind.
  - simpl. by apply Hnil.
  - clear IHpre'. rewrite cursor_loc_snoc in Hsame, Hload.
    rewrite (Hcons ltac:(by destruct pre')).
    apply seg_app in Hs as (m & Hpre & Hp).
    apply seg_app. exists m. split.
    + eapply seg_same; [|done]. intros a Ha. apply Hsame.
      * intros ->. apply Hcurr. apply elem_of_app. by left.
      * intros [= ->]. apply NoDup_app in Hnd as (_ & Hd & _).
        apply (Hd p Ha). by apply list_elem_of_singleton.
    + simpl in *. destruct Hp as (-> & _). split; [done|].
      exists nx. by rewrite <- load_next_loc.
Qed.
Lemma cursor_loc_next s pre q : cursor_loc s pre = next_loc q → q ∈ pre.
Proof.
  unfold cursor_loc. destruct (list.last pre) as [p|] eqn:Hl.
  - intros [= ->]. by apply last_Some_elem_of.
  - by destruct s.
Qed.

Lemma cursor_loc_head s s' pre : cursor_loc s pre = head_loc s' → s' = s ∧ pre = [].
Proof.
  unfold cursor_loc. destruct (list.last pre) as [p|] eqn:Hl.
  - by destruct s'.
  - apply last_None in Hl. by destruct s, s'.
Qed.

Lemma well_formed_same_links w w' rs ws :
  same_links w w' → well_formed w rs ws → well_formed w' rs ws.
Proof.
  intros (Hr & Hw & Hn) (Hrs & Hws & Hnd). split; [|split]; [| |done].
  - rewrite Hr. eapply seg_same; [|done]. auto.
  - rewrite Hw. eapply seg_same; [|done]. auto.
Qed.

Lemma same_links_refl w : same_links w w.
Proof. by repeat split. Qed.

Lemma same_links_trans w1 w2 w3 :
  same_links w1 w2 → same_links w2 w3 → same_links w1 w3.
Proof.
  intros (?&?&H1) (?&?&H2). split; [congruence|]. split; [congruence|].
  intros p. by rewrite H2, H1.
Qed.

(** The pieces of a list around the record the cursor stands at. *)
Lemma seg_at_cursor w hd pre curr rest :
  seg w hd (pre ++ curr :: rest) None →
  NoDup (pre ++ curr :: rest) →
  ∃ nx, seg w hd pre (Some curr) ∧ next_of w curr = Some nx ∧
        seg w nx rest None ∧ nx ≠ Some curr ∧ nx = head rest.
Proof.
  intros Hs Hnd. apply seg_app in Hs as (m & Hpre & Hrest).
  simpl in Hrest. destruct Hrest as (-> & nx & Hn & Hrest).
  exists nx. split; [done|]. split; [done|]. split; [done|].
  pose proof (seg_nil_head _ _ _ Hrest) as ->.
  split; [|done].
  apply NoDup_app in Hnd as (_ & _ & Hnd). apply NoDup_cons in Hnd as [Hni _].
  destruct rest as [|a rest]; [done|]. simpl. intros [= ->].
  apply Hni. apply elem_of_cons. by left.
Qed.

(** The lists after [client_free] at the cursor. *)
Lemma well_formed_free w w' rs ws prev s pre curr rest c :
  well_formed w rs ws → at_cursor prev s pre (curr :: rest) rs ws →
  deref curr w = Some c → freed curr prev c w w' →
  let rs' := match s with readers => pre ++ rest | writers => rs end in
  let ws' := match s with readers => ws | writers => pre ++ rest end in
  well_formed w' rs' ws' ∧ at_cursor prev s pre rest rs' ws'.
Proof.
  intros (Hrs & Hws & Hnd) [-> Hside] Hc Hfr rs' ws'.
  assert (Hothers : ∀ q, q ≠ curr → next_loc q ≠ cursor_loc s pre →
                         next_of w' q = next_of w q).
  { intros q ? ?. unfold next_of. by rewrite (fr_others _ _ _ _ _ Hfr). }
  destruct s; simpl in Hside; subst.
  - (* the cursor is in the reader list *)
    assert (Hnd1 : NoDup (pre ++ curr :: rest))
      by (by apply NoDup_app in Hnd as (? & _)).
    destruct (seg_at_cursor _ _ _ _ _ Hrs Hnd1) as (nx & Hpre & Hn & Hrest & Hne & _).
    assert (nx = next c) as ->.
    { unfold next_of in Hn. rewrite Hc in Hn. by injection Hn. }
    pose proof (fr_unlinked _ _ _ _ _ Hfr Hne) as Hload.
    apply NoDup_app in Hnd as (_ & Hdisj & Hndw).
    apply NoDup_app in Hnd1 as (Hndp & Hpc & Hndc).
    apply NoDup_cons in Hndc as [Hcr Hndr].
    split; [|by split].
    split; [|split].
    + apply seg_app. exists (next c). split.
      * eapply (seg_bypass w w' readers); try done.
        -- intros Hin. apply (Hpc _ Hin). apply elem_of_cons. by left.
        -- intros ->. simpl in Hload. by injection Hload.
        -- intros Hp. apply (fr_reader_head _ _ _ _ _ Hfr).
           intros He.
           apply (cursor_loc_head readers readers) in He as [_ ?]. done.
      * eapply seg_same; [|done]. intros a Ha. apply Hothers.
        -- intros ->. done.
        -- intros He. symmetry in He. apply cursor_loc_next in He.
           apply (Hpc _ He). apply elem_of_cons. by right.
    + rewrite (fr_writer_head _ _ _ _ _ Hfr).
      * eapply seg_same; [|done]. intros a Ha. apply Hothers.
        -- intros ->. apply (Hdisj curr); [|done].
           apply elem_of_app. right. apply elem_of_cons. by left.
        -- intros He. symmetry in He. apply cursor_loc_next in He.
           apply (Hdisj a); [|done]. apply elem_of_app. by left.
      * intros He.
        by apply (cursor_loc_head readers writers) in He as [? _].
    + apply NoDup_app. split; [|split]; [|  |done].
      * apply NoDup_app. split; [done|]. split; [|done].
        intros x Hx Hx'. apply (Hpc x Hx). apply elem_of_cons. by right.
      * intros x Hx. apply Hdisj. apply elem_of_app in Hx as [?|?];
          apply elem_of_app; [by left|right]. apply elem_of_cons. by right.
  - (* the cursor is in the writer list *)
    assert (Hnd1 : NoDup (pre ++ curr :: rest))
      by (by apply NoDup_app in Hnd as (_ & _ & ?)).
    destruct (seg_at_cursor _ _ _ _ _ Hws Hnd1) as (nx & Hpre & Hn & Hrest & Hne & _).
    assert (nx = next c) as ->.
    { unfold next_of in Hn. rewrite Hc in Hn. by injection Hn. }
    pose proof (fr_unlinked _ _ _ _ _ Hfr Hne) as Hload.
    apply NoDup_app in Hnd as (Hndr' & Hdisj & _).
    apply NoDup_app in Hnd1 as (Hndp & Hpc & Hndc).
    apply NoDup_cons in Hndc as [Hcr Hndr].
    split; [|by split].
    split; [|split].
    + rewrite (fr_reader_head _ _ _ _ _ Hfr).
      * eapply seg_same; [|done]. intros a Ha. apply Hothers.
        -- intros ->. apply (Hdisj curr); [done|].
           apply elem_of_app. right. apply elem_of_cons. by left.
        -- intros He. symmetry in He. apply cursor_loc_next in He.
           apply (Hdisj a); [done|]. apply elem_of_app. by left.
      * intros He.
        by apply (cursor_loc_head writers readers) in He as [? _].
    + apply seg_app. exists (next c). split.
      * eapply (seg_bypass w w' writers); try done.
        -- intros Hin. apply (Hpc _ Hin). apply elem_of_cons. by left.
        -- intros ->. simpl in Hload. by injection Hload.
        -- intros Hp. apply (fr_writer_head _ _ _ _ _ Hfr).
           intros He.
           apply (cursor_loc_head writers writers) in He as [_ ?]. done.
      * eapply seg_same; [|done]. intros a Ha. apply Hothers.
        -- intros ->. done.
        -- intros He. symmetry in He. apply cursor_loc_next in He.
           apply (Hpc _ He). apply elem_of_cons. by right.
    + apply NoDup_app. split; [done|]. split.
      * intros x Hx Hx'. apply (Hdisj x Hx).
        apply elem_of_app in Hx' as [?|?];
          apply elem_of_app; [by left|right]. apply elem_of_cons. by right.
      * apply NoDup_app. split; [done|]. split; [|done].
        intros x Hx Hx'. apply (Hpc x Hx). apply elem_of_cons. by right.
Qed.
(** The lists after [do_get] at the cursor: the traversal goes on behind
    the moved record, in the writer list. *)
Lemma well_formed_move w w' rs ws prev s pre curr rest c :
  well_formed w rs ws → at_cursor prev s pre (curr :: rest) rs ws →
  (s = writers → pre ≠ []) →
  deref curr w = Some c → moved_to_writers curr prev c w w' →
  let rs' := match s with readers => pre ++ rest | writers => rs end in
  let ws' := match s with
             | readers => curr :: ws
             | writers => curr :: pre ++ rest
             end in
  let remaining := match s with readers => ws | writers => pre ++ rest end in
  well_formed w' rs' ws' ∧
  at_cursor (next_loc curr) writers [curr] remaining rs' ws'.
Proof.
  intros (Hrs & Hws & Hnd) [-> Hside] Hpre0 Hc Hmv rs' ws' remaining.
  assert (Hothers : ∀ q, q ≠ curr → next_loc q ≠ cursor_loc s pre →
                         next_of w' q = next_of w q).
  { intros q ? ?. unfold next_of. by rewrite (mtw_others _ _ _ _ _ Hmv). }
  assert (Hcurr : next_of w' curr = Some (writer_head w)).
  { unfold next_of. by rewrite (mtw_record _ _ _ _ _ Hmv). }
  pose proof (mtw_unlinked _ _ _ _ _ Hmv) as Hload.
  pose proof (mtw_writer_head _ _ _ _ _ Hmv) as Hwh.
  destruct s; simpl in Hside; subst.
  - (* the cursor is in the reader list *)
    assert (Hnd1 : NoDup (pre ++ curr :: rest))
      by (by apply NoDup_app in Hnd as (? & _)).
    destruct (seg_at_cursor _ _ _ _ _ Hrs Hnd1) as (nx & Hpre & Hn & Hrest & Hne & _).
    assert (nx = next c) as ->.
    { unfold next_of in Hn. rewrite Hc in Hn. by injection Hn. }
    apply NoDup_app in Hnd as (_ & Hdisj & Hndw).
    apply NoDup_app in Hnd1 as (Hndp & Hpc & Hndc).
    apply NoDup_cons in Hndc as [Hcr Hndr].
    assert (Hcw : curr ∉ ws).
    { apply Hdisj. apply elem_of_app. right. apply elem_of_cons. by left. }
    split; [|by split].
    split; [|split].
    + apply seg_app. exists (next c). split.
      * eapply (seg_bypass w w' readers); try done.
        -- intros Hin. apply (Hpc _ Hin). apply elem_of_cons. by left.
        -- intros ->. simpl in Hload. by injection Hload.
        -- intros Hp. apply (mtw_reader_head _ _ _ _ _ Hmv).
           intros He.
           apply (cursor_loc_head readers readers) in He as [_ ?]. done.
      * eapply seg_same; [|done]. intros a Ha. apply Hothers.
        -- intros ->. done.
        -- intros He. symmetry in He. apply cursor_loc_next in He.
           apply (Hpc _ He). apply elem_of_cons. by right.
    + rewrite Hwh. simpl. split; [done|]. exists (writer_head w).
      split; [done|].
      eapply seg_same; [|done]. intros a Ha. apply Hothers.
      * intros ->. done.
      * intros He. symmetry in He. apply cursor_loc_next in He.
        apply (Hdisj a); [|done]. apply elem_of_app. by left.
    + apply NoDup_app. split; [|split].
      * apply NoDup_app. split; [done|]. split; [|done].
        intros x Hx Hx'. apply (Hpc x Hx). apply elem_of_cons. by right.
      * intros x Hx Hx'. apply elem_of_cons in Hx' as [->|Hx'].
        -- apply elem_of_app in Hx as [Hx|Hx]; [|done].
           apply (Hpc _ Hx). apply elem_of_cons. by left.
        -- apply (Hdisj x); [|done].
           apply elem_of_app in Hx as [?|?];
             apply elem_of_app; [by left|right]. apply elem_of_cons. by right.
      * apply NoDup_cons. by split.
  - (* the cursor is in the writer list, behind its head *)
    specialize (Hpre0 eq_refl).
    assert (Hnd1 : NoDup (pre ++ curr :: rest))
      by (by apply NoDup_app in Hnd as (_ & _ & ?)).
    destruct (seg_at_cursor _ _ _ _ _ Hws Hnd1) as (nx & Hpre & Hn & Hrest & Hne & _).
    assert (nx = next c) as ->.
    { unfold next_of in Hn. rewrite Hc in Hn. by injection Hn. }
    apply NoDup_app in Hnd as (Hndr' & Hdisj & _).
    apply NoDup_app in Hnd1 as (Hndp & Hpc & Hndc).
    apply NoDup_cons in Hndc as [Hcr Hndr].
    split; [|by split].
    split; [|split].
    + rewrite (mtw_reader_head _ _ _ _ _ Hmv).
      * eapply seg_same; [|done]. intros a Ha. apply Hothers.
        -- intros ->. apply (Hdisj curr); [done|].
           apply elem_of_app. right. apply elem_of_cons. by left.
        -- intros He. symmetry in He. apply cursor_loc_next in He.
           apply (Hdisj a); [done|]. apply elem_of_app. by left.
      * intros He.
        by apply (cursor_loc_head writers readers) in He as [? _].
    + rewrite Hwh. simpl. split; [done|]. exists (writer_head w).
      split; [done|].
      apply seg_app. exists (next c). split.
      * eapply (seg_bypass w w' writers); try done.
        intros Hin. apply (Hpc _ Hin). apply elem_of_cons. by left.
      * eapply seg_same; [|done]. intros a Ha. apply Hothers.
        -- intros ->. done.
        -- intros He. symmetry in He. apply cursor_loc_next in He.
           apply (Hpc _ He). apply elem_of_cons. by right.
    + apply NoDup_app. split; [done|]. split.
      * intros x Hx Hx'. apply (Hdisj x Hx).
        apply elem_of_cons in Hx' as [->|Hx'].
        { apply elem_of_app. right. apply elem_of_cons. by left. }
        apply elem_of_app in Hx' as [?|?];
          apply elem_of_app; [by left|right]. apply elem_of_cons. by right.
      * apply NoDup_cons. split.
        -- intros Hx. apply elem_of_app in Hx as [Hx|Hx]; [|done].
           apply (Hpc _ Hx). apply elem_of_cons. by left.
        -- apply NoDup_app. split; [done|]. split; [|done].
           intros x Hx Hx'. apply (Hpc x Hx). apply elem_of_cons. by right.
Qed.

(** The cursor after a turn that keeps the record. *)
Lemma at_cursor_advance prev s pre curr rest rs ws :
  at_cursor prev s pre (curr :: rest) rs ws →
  at_cursor (next_loc curr) s (pre ++ [curr]) rest rs ws.
Proof.
  intros [_ Hside]. split; [by rewrite cursor_loc_snoc|].
  by rewrite <- app_assoc.
Qed.

Lemma at_cursor_load w prev s pre rest rs ws :
  well_formed w rs ws → at_cursor prev s pre rest rs ws →
  load prev w = Some (head rest).
Proof.
  intros (Hrs & Hws & _) [-> Hside].
  apply seg_cursor_load. destruct s; simpl in *; by subst.
Qed.
(** ** Pending input *)

Lemma pending_input_insert (m : gmap Z (list (list byte))) d q q' :
  m !! d = Some q →
  map_fold (λ _ q n, (chunk_cost q + n)%nat) 0%nat (<[d := q']> m) =
  (chunk_cost q' +
   map_fold (λ _ q n, (chunk_cost q + n)%nat) 0%nat (delete d m))%nat ∧
  map_fold (λ _ q n, (chunk_cost q + n)%nat) 0%nat m =
  (chunk_cost q +
   map_fold (λ _ q n, (chunk_cost q + n)%nat) 0%nat (delete d m))%nat.
Proof.
  intros Hm. split.
  - rewrite <- insert_delete_eq.
    rewrite map_fold_insert_L; [done| |apply lookup_delete_eq].
    intros. lia.
  - rewrite (map_fold_delete_L _ _ d q m); [done| |done].
    intros. lia.
Qed.

Lemma chunk_cost_read ch q :
  ch ≠ [] →
  (chunk_cost (match drop HTTP_BUFSIZE ch with [] => q | r => r :: q end)
   < chunk_cost (ch :: q))%nat.
Proof.
  intros Hne. unfold chunk_cost.
  destruct (drop HTTP_BUFSIZE ch) as [|b r] eqn:Hd;
    rewrite !fmap_cons; cbn [sum_list]; unfold id; [lia|].
  assert (length (drop HTTP_BUFSIZE ch) = S (length r)) as Hl
    by (by rewrite Hd).
  rewrite length_drop in Hl. unfold HTTP_BUFSIZE in *.
  cbn [length]. lia.
Qed.

Lemma pending_input_reading cl c s w ch q :
  inbound (sys w) !! fd c = Some (ch :: q) → ch ≠ [] →
  (pending_input
     (reading cl c s
        (<[fd c := match drop HTTP_BUFSIZE ch with [] => q | r => r :: q end]>
           (inbound (sys w))) w)
   < pending_input w)%nat.
Proof.
  intros Hin Hne. unfold pending_input. simpl.
  destruct (pending_input_insert _ _ _
              (match drop HTTP_BUFSIZE ch with [] => q | r => r :: q end) Hin)
    as [-> ->].
  pose proof (chunk_cost_read ch q Hne). lia.
Qed.

Lemma same_links_reading cl c s m w :
  deref cl w = Some c → same_links w (reading cl c s m w).
Proof.
  intros Hc. split; [done|]. split; [done|].
  intros p. unfold next_of, deref in *. simpl.
  destruct (decide (p = cl)) as [->|].
  - rewrite lookup_insert_eq, Hc. done.
  - by rewrite lookup_insert_ne.
Qed.

(** [client_read] leaves the links alone, or consumes input and calls
    [do_get]. *)
Lemma client_read_spec : handler_spec true client_read.
Proof.
  intros cl prev w r w' Hrd.
  destruct (deref cl w) as [c|] eqn:Hc;
    [|unfold client_read in Hrd; by rewrite Hc in Hrd].
  destruct (inbound (sys w) !! fd c) as [[|[|b ch] q]|] eqn:Hin.
  - rewrite (client_read_nodata _ _ _ _ Hc) in Hrd by auto.
    injection Hrd as _ <-. left. split; [by repeat split|done].
  - rewrite (client_read_nodata _ _ _ _ Hc) in Hrd by eauto.
    injection Hrd as _ <-. left. split; [by repeat split|done].
  - destruct (client_read_any cl prev w c _ q Hc Hin ltac:(done)) as [_ Hr].
    rewrite Hr in Hrd. clear Hr.
    pose proof (pending_input_reading cl c) as Hlt.
    destruct (recognize (state c) (take HTTP_BUFSIZE (b :: ch))) as [s| |s].
    + injection Hrd as _ <-. left.
      split; [by apply same_links_reading|].
      apply Nat.lt_le_incl. exact (Hlt s w _ q Hin ltac:(done)).
    + right. split; [done|].
      destruct (do_get cl prev _) as [w1|] eqn:Hdo; [|done].
      injection Hrd as <- <-. split; [done|].
      eexists _, _. split; [by apply same_links_reading|].
      split; [apply (Hlt 5 w _ q Hin); done|].
      split; [apply deref_reading|done].
    + injection Hrd as _ <-. left.
      split; [by apply same_links_reading|].
      apply Nat.lt_le_incl. exact (Hlt s w _ q Hin ltac:(done)).
  - rewrite (client_read_nodata _ _ _ _ Hc) in Hrd by auto.
    injection Hrd as _ <-. left. split; [by repeat split|done].
Qed.
Lemma steady_refl w : steady w w.
Proof. split; [apply same_links_refl|done]. Qed.

Lemma steady_trans w1 w2 w3 : steady w1 w2 → steady w2 w3 → steady w1 w3.
Proof.
  intros [? ?] [? ?]. split; [by eapply same_links_trans|congruence].
Qed.

Lemma steady_pending w w' : steady w w' → pending_input w' = pending_input w.
Proof. intros [_ H]. unfold pending_input. by rewrite H. Qed.

Lemma upd_steady p f w w' :
  (∀ c, next (f c) = next c) → upd p f w = Some w' → steady w w'.
Proof.
  intros Hf. unfold upd. destruct (deref p w) as [c|] eqn:Hc; [|done].
  intros [= <-]. split; [|done]. split; [done|]. split; [done|].
  intros q. unfold next_of, deref in *. simpl.
  destruct (decide (q = p)) as [->|].
  - rewrite lookup_insert_eq, Hc. simpl. by rewrite Hf.
  - by rewrite lookup_insert_ne.
Qed.

(** [client_write] leaves the links and the pending input alone. *)
Lemma client_write_steady cl prev w r w' :
  client_write cl prev w = Some (r, w') → steady w w'.
Proof.
  unfold client_write. intros H.
  destruct (deref cl w) as [c|]; [|done]. cbn [mbind option_bind] in H.
  destruct (match state c with 0 => Some (hdr w) | 1 => Some (msg w)
            | _ => None end) as [buf|].
  2: { injection H as _ <-. split; [by repeat split|done]. }
  destruct (assert (bool_decide (fd c ≠ -1)));
    cbn [mbind option_bind] in H; [|done].
  destruct (assert (bool_decide (0 ≤ write_ofs c ≤ _)));
    cbn [mbind option_bind] in H; [|done].
  destruct (sys_write (fd c) _ w) as [res w1] eqn:Hwr.
  assert (steady w w1) as Hw1.
  { unfold sys_write in Hwr.
    destruct (capacity (sys w) !! fd c) as [[|cap q]|];
      try (injection Hwr as _ <-; split; [by repeat split|done]).
    destruct (decide (cap < 0)); injection Hwr as _ <-;
      (split; [by repeat split|done]). }
  case_decide.
  { injection H as _ <-. eapply steady_trans; [done|].
    split; [by repeat split|done]. }
  destruct (upd cl _ w1) as [w2|] eqn:Hu2; [|done].
  cbn [mbind option_bind] in H.
  destruct (deref cl w2) as [c2|]; [|done]. cbn [mbind option_bind] in H.
  destruct (assert _); cbn [mbind option_bind] in H; [|done].
  match type of H with
  | (?x ≫= _) = _ => destruct x as [w3|] eqn:Hu3; [|done]
  end.
  cbn [mbind option_bind] in H.
  destruct (upd cl (set_last (sys_time w3)) w3) as [w4|] eqn:Hu4; [|done].
  injection H as _ <-.
  eapply steady_trans; [done|].
  eapply steady_trans; [eapply upd_steady; [|exact Hu2]; done|].
  eapply steady_trans; [|eapply upd_steady; [|exact Hu4]; done].
  case_decide; [eapply upd_steady; [|exact Hu3]; done|].
  injection Hu3 as <-. apply steady_refl.
Qed.

Lemma client_write_spec : handler_spec false client_write.
Proof.
  intros cl prev w r w' H. left.
  apply client_write_steady in H. split; [apply H|].
  by rewrite (steady_pending _ _ H).
Qed.
(** ** A turn of the traversal, case by case *)

Lemma client_free_inv cl prev w w' :
  client_free cl prev w = Some w' →
  ∃ c, deref cl w = Some c ∧ freed cl prev c w w'.
Proof.
  intros H. pose proof H as H0. unfold client_free in H0.
  destruct (load prev w) as [p|] eqn:Hp; [|done].
  cbn [mbind option_bind] in H0.
  destruct (decide (p = Some cl)) as [->|];
    [|by rewrite bool_decide_eq_false_2 in H0].
  rewrite bool_decide_eq_true_2 in H0 by done.
  cbn [assert mbind option_bind] in H0.
  destruct (deref cl w) as [c|] eqn:Hc; [|done].
  cbn [mbind option_bind] in H0.
  destruct (decide (fd c ≠ -1)) as [Hfd|];
    [|by rewrite bool_decide_eq_false_2 in H0].
  destruct (client_free_frees cl prev c w Hp Hc Hfd) as (w'' & Hfree & Hfr).
  exists c. split; [done|]. congruence.
Qed.

Lemma frame_same_links w w' :
  heap w' = heap w → reader_head w' = reader_head w →
  writer_head w' = writer_head w → same_links w w'.
Proof.
  intros Hh ? ?. split; [done|]. split; [done|].
  intros p. unfold next_of, deref. by rewrite Hh.
Qed.

Lemma frame_pending w w' :
  inbound (sys w') = inbound (sys w) → pending_input w' = pending_input w.
Proof. unfold pending_input. by intros ->. Qed.

Lemma note_youngest_frame c w :
  heap (note_youngest c w) = heap w ∧
  reader_head (note_youngest c w) = reader_head w ∧
  writer_head (note_youngest c w) = writer_head w ∧
  sys (note_youngest c w) = sys w.
Proof. unfold note_youngest. by case_decide. Qed.

Lemma process_step_turn moves fds foreach timeout prev w curr k w' :
  handler_spec moves foreach →
  load prev w = Some (Some curr) →
  process_step fds foreach timeout prev w = Some (k, w') →
  (∃ w0 c0, k = Some prev ∧ same_links w w0 ∧
            (pending_input w0 ≤ pending_input w)%nat ∧
            deref curr w0 = Some c0 ∧ freed curr prev c0 w0 w') ∨
  (k = Some (next_loc curr) ∧ same_links w w' ∧
   (pending_input w' ≤ pending_input w)%nat) ∨
  (moves = true ∧ k = Some (next_loc curr) ∧
   ∃ w0 c0 w1, same_links w w0 ∧
               (pending_input w0 < pending_input w)%nat ∧
               deref curr w0 = Some c0 ∧ do_get curr prev w0 = Some w1 ∧
               same_links w1 w' ∧ pending_input w' = pending_input w1).
Proof.
  intros Hspec Hp Hstep.
  destruct (deref curr w) as [c|] eqn:Hc.
  2: { unfold process_step in Hstep. rewrite Hp in Hstep.
       cbn [mbind option_bind] in Hstep. by rewrite Hc in Hstep. }
  rewrite (process_step_unfold _ _ _ _ _ _ _ Hp Hc) in Hstep.
  cbv zeta in Hstep.
  destruct (note_youngest_frame c w) as (Hh & Hr & Hw & Hs).
  set (wy := note_youngest c w) in *.
  assert (Hwy : same_links w wy) by (by apply frame_same_links).
  assert (Hpy : pending_input wy = pending_input w)
    by (apply frame_pending; by rewrite Hs).
  destruct (decide (last c ≤ timeout)).
  { destruct (client_free curr prev _) as [w1|] eqn:Hfree; [|done].
    injection Hstep as <- <-. left.
    apply client_free_inv in Hfree as (c0 & Hc0 & Hfr).
    eexists _, c0. split; [done|]. split; [|split; [|split; [exact Hc0|exact Hfr]]].
    - eapply same_links_trans; [exact Hwy|]. by apply frame_same_links.
    - rewrite <- Hpy. apply Nat.eq_le_incl. by apply frame_pending. }
  destruct (FD_ISSET (fd c) fds wy).
  2: { injection Hstep as <- <-. right. left. split; [done|]. split.
       - eapply same_links_trans; [exact Hwy|].
         destruct fds; by apply frame_same_links.
       - rewrite <- Hpy. apply Nat.eq_le_incl.
         destruct fds; by apply frame_pending. }
  destruct (foreach curr prev wy) as [[r w2]|] eqn:Hf; [|done].
  cbn [mbind option_bind] in Hstep.
  destruct (Hspec _ _ _ _ _ Hf) as [[Hl2 Hp2]|(Hm & Hr0 & w0 & c0 & Hl0 & Hp0 & Hc0 & Hdo)].
  - destruct (deref curr w2) as [c2|] eqn:Hc2;
      [|by destruct (decide (r = 0))].
    cbn [mbind option_bind] in Hstep.
    destruct (decide (r = 0)).
    + destruct (client_free curr prev _) as [w3|] eqn:Hfree; [|done].
      injection Hstep as <- <-. left.
      apply client_free_inv in Hfree as (c3 & Hc3 & Hfr).
      eexists _, c3. split; [done|].
      split; [|split; [|split; [exact Hc3|exact Hfr]]].
      * eapply same_links_trans; [exact Hwy|].
        eapply same_links_trans; [exact Hl2|]. by apply frame_same_links.
      * etrans; [|rewrite <- Hpy; exact Hp2].
        apply Nat.eq_le_incl. by apply frame_pending.
    + injection Hstep as <- <-. right. left. split; [done|]. split.
      * eapply same_links_trans; [exact Hwy|].
        eapply same_links_trans; [exact Hl2|].
        destruct fds; by apply frame_same_links.
      * etrans; [|rewrite <- Hpy; exact Hp2].
        apply Nat.eq_le_incl. destruct fds; by apply frame_pending.
  - rewrite decide_False in Hstep by done.
    destruct (deref curr w2) as [c2|] eqn:Hc2; [|done].
    injection Hstep as <- <-. right. right.
    split; [done|]. split; [done|].
    exists w0, c0, w2. split; [by eapply same_links_trans|].
    split; [lia|]. split; [done|]. split; [done|]. split.
    + destruct fds; by apply frame_same_links.
    + destruct fds; by apply frame_pending.
Qed.
(** The record the cursor stands at can be moved. *)
Lemma cursor_linked_at w rs ws prev s pre curr rest c :
  well_formed w rs ws → at_cursor prev s pre (curr :: rest) rs ws →
  (s = writers → pre ≠ []) → deref curr w = Some c →
  linked_at curr prev c w.
Proof.
  intros Hwf Hcur Hpre Hc.
  pose proof (at_cursor_load _ _ _ _ _ _ _ Hwf Hcur) as Hload.
  destruct Hwf as (Hrs & Hws & Hnd). destruct Hcur as [-> Hside].
  split; [done|]. split; [done|].
  destruct s; simpl in Hside; subst.
  - assert (Hnd1 : NoDup (pre ++ curr :: rest))
      by (by apply NoDup_app in Hnd as (? & _)).
    destruct (seg_at_cursor _ _ _ _ _ Hrs Hnd1) as (nx & _ & Hn & _ & Hne & _).
    unfold next_of in Hn. rewrite Hc in Hn. injection Hn as <-.
    split; [done|].
    rewrite (seg_nil_head _ _ _ Hws). destruct ws as [|a ws]; [done|].
    simpl. intros [= ->]. apply NoDup_app in Hnd as (_ & Hd & _).
    apply (Hd curr).
    + apply elem_of_app. right. apply elem_of_cons. by left.
    + apply elem_of_cons. by left.
  - assert (Hnd1 : NoDup (pre ++ curr :: rest))
      by (by apply NoDup_app in Hnd as (_ & _ & ?)).
    destruct (seg_at_cursor _ _ _ _ _ Hws Hnd1) as (nx & _ & Hn & _ & Hne & _).
    unfold next_of in Hn. rewrite Hc in Hn. injection Hn as <-.
    split; [done|].
    rewrite (seg_nil_head _ _ _ Hws).
    destruct pre as [|p pre]; [by specialize (Hpre eq_refl)|].
    simpl. intros [= ->]. apply NoDup_cons in Hnd1 as [Hni _].
    apply Hni. apply elem_of_app. right. apply elem_of_cons. by left.
Qed.

(** Every traversal of well-formed lists comes to an end: it finishes, in
    a world whose lists are well formed, or the program aborts on the
    way. *)
Lemma traversal_runs moves fds foreach timeout :
  handler_spec moves foreach →
  ∀ n m w prev s pre rest rs ws,
    (pending_input w ≤ n)%nat → (length rest ≤ m)%nat →
    well_formed w rs ws → at_cursor prev s pre rest rs ws →
    (moves = true → s = writers → pre ≠ []) →
    ∃ r, runs fds foreach timeout prev w r ∧
         ∀ w', r = Some w' → ∃ rs' ws', well_formed w' rs' ws'.
Proof.
  intros Hspec.
  assert (Hend : ∀ w prev s pre rs ws,
    well_formed w rs ws → at_cursor prev s pre [] rs ws →
    ∃ r, runs fds foreach timeout prev w r ∧
         ∀ w', r = Some w' → ∃ rs' ws', well_formed w' rs' ws').
  { intros w prev s pre rs ws Hwf Hcur.
    pose proof (at_cursor_load _ _ _ _ _ _ _ Hwf Hcur) as Hload.
    exists (Some w). split; [|intros w' [= <-]; eauto].
    apply runs_end. unfold process_step. by rewrite Hload. }
  induction n as [n IHn] using lt_wf_ind.
  induction m as [|m IHm];
    intros w prev s pre rest rs ws Hpend Hlen Hwf Hcur Hside.
  { destruct rest; [by eapply Hend|simpl in Hlen; lia]. }
  destruct rest as [|curr rest]; [by eapply Hend|]. simpl in Hlen.
  pose proof (at_cursor_load _ _ _ _ _ _ _ Hwf Hcur) as Hload.
  simpl in Hload.
  destruct (process_step fds foreach timeout prev w) as [[k w']|] eqn:Hstep.
  2: { exists None. split; [by apply runs_abort|done]. }
  destruct (process_step_turn _ _ _ _ _ _ _ _ _ Hspec Hload Hstep)
    as [(w0 & c0 & -> & Hl0 & Hp0 & Hc0 & Hfr)
       |[(-> & Hl' & Hp')
        |(Hmv & -> & w0 & c0 & w1 & Hl0 & Hp0 & Hc0 & Hdo & Hl1 & Hp1)]].
  - (* the record was released *)
    pose proof (well_formed_same_links _ _ _ _ Hl0 Hwf) as Hwf0.
    destruct (well_formed_free _ _ _ _ _ _ _ _ _ _ Hwf0 Hcur Hc0 Hfr)
      as [Hwf' Hcur'].
    assert (Hpw : pending_input w' = pending_input w0).
    { apply frame_pending. by rewrite (fr_sys _ _ _ _ _ Hfr). }
    edestruct (IHm w' prev s pre rest) as (r & Hruns & Hfinal);
      [| |exact Hwf'|exact Hcur'|exact Hside|]; [lia|lia|].
    exists r. split; [|done]. eapply runs_step; [exact Hstep|exact Hruns].
  - (* the record stays *)
    pose proof (well_formed_same_links _ _ _ _ Hl' Hwf) as Hwf'.
    edestruct (IHm w' (next_loc curr) s (pre ++ [curr]) rest rs ws)
      as (r & Hruns & Hfinal); [| |exact Hwf'| | |]; [lia|lia| | |].
    + eapply at_cursor_advance. exact Hcur.
    + intros _ _. by destruct pre.
    + exists r. split; [|done]. eapply runs_step; [exact Hstep|exact Hruns].
  - (* the record moved to the writer list *)
    pose proof (well_formed_same_links _ _ _ _ Hl0 Hwf) as Hwf0.
    pose proof (cursor_linked_at _ _ _ _ _ _ _ _ _ Hwf0 Hcur (Hside Hmv) Hc0)
      as Hlinked.
    destruct (do_get_moves _ _ _ _ Hlinked) as (w1' & Hdo' & Hmoved).
    assert (w1' = w1) by congruence. subst w1'.
    destruct (well_formed_move _ _ _ _ _ _ _ _ _ _ Hwf0 Hcur (Hside Hmv) Hc0 Hmoved)
      as [Hwf1 Hcur1].
    pose proof (well_formed_same_links _ _ _ _ Hl1 Hwf1) as Hwf'.
    assert (Hpw : pending_input w1 = pending_input w0).
    { apply frame_pending. by rewrite (mtw_sys _ _ _ _ _ Hmoved). }
    assert (Hlt : (pending_input w' < n)%nat) by lia.
    edestruct (IHn (pending_input w') Hlt) as (r & Hruns & Hfinal);
      [apply Nat.le_refl|apply Nat.le_refl|exact Hwf'|exact Hcur1|done|].
    exists r. split; [|done]. eapply runs_step; [exact Hstep|exact Hruns].
Qed.
(** ** Traversals and fuel *)

Lemma process_loop_more fds foreach timeout fuel : ∀ fuel' prev w w',
  (fuel ≤ fuel')%nat →
  process_loop fuel fds foreach timeout prev w = Some w' →
  process_loop fuel' fds foreach timeout prev w = Some w'.
Proof.
  induction fuel as [|fuel IH]; intros fuel' prev w w' Hle Hrun; [done|].
  destruct fuel' as [|fuel']; [lia|]. simpl in *.
  destruct (process_step fds foreach timeout prev w) as [[[p|] w1]|];
    simpl in *; try done.
  apply IH; [lia|done].
Qed.

(** A traversal that ends in a world is a run of the loop with enough
    fuel; a traversal that aborts is a run that fails whatever the
    fuel. *)
Lemma runs_process_loop fds foreach timeout prev w r :
  runs fds foreach timeout prev w r →
  match r with
  | Some w' => ∃ fuel, process_loop fuel fds foreach timeout prev w = Some w'
  | None => ∀ fuel, process_loop fuel fds foreach timeout prev w = None
  end.
Proof.
  induction 1 as [prev w w' Hstep|prev w Hstep|prev w prev' w' r Hstep _ IH].
  - exists 1%nat. simpl. by rewrite Hstep.
  - intros [|fuel]; [done|]. simpl. by rewrite Hstep.
  - destruct r as [w''|].
    + destruct IH as [fuel IH]. exists (S fuel). simpl. by rewrite Hstep.
    + intros [|fuel]; [done|]. simpl. rewrite Hstep. simpl. apply IH.
Qed.

(** ** Accepting keeps the lists well formed *)

Lemma seg_allocated w l : ∀ p q a,
  seg w p l q → a ∈ l → is_Some (deref a w).
Proof.
  induction l as [|b l IH]; intros p q a Hs Ha; [by apply elem_of_nil in Ha|].
  simpl in Hs. destruct Hs as (-> & nx & Hn & Hs).
  apply elem_of_cons in Ha as [->|Ha]; [|by eapply IH].
  unfold next_of in Hn. destruct (deref b w); [eauto|done].
Qed.

Lemma accept_step_well_formed listen_fd w rs ws :
  well_formed w rs ws →
  ∃ wa rs', accept_step listen_fd w = Some wa ∧ well_formed wa rs' ws.
Proof.
  intros Hwf. unfold accept_step.
  destruct (FD_ISSET listen_fd rfds_ptr w); [|eauto].
  unfold client_accept, sys_accept.
  destruct (backlog (sys w)) as [|d rest] eqn:Hb; [eauto|].
  case_decide.
  { eexists _, rs. split; [done|].
    eapply well_formed_same_links; [|done]. by apply frame_same_links. }
  cbv zeta.
  set (new := calloc (log_info (log_new_client d)
                        (with_sys (with_backlog rest) w))).
  assert (Hfresh : deref new w = None).
  { unfold deref. apply not_elem_of_dom.
    change (fresh (dom (heap w)) ∉ dom (heap w)). apply is_fresh. }
  destruct Hwf as (Hrs & Hws & Hnd).
  assert (Hnew : ∀ l p, seg w p l None → new ∉ l).
  { intros l p Hs Hin. destruct (seg_allocated _ _ _ _ _ Hs Hin) as [c Hc].
    congruence. }
  rewrite bool_decide_eq_true_2.
  2: { cbn [next]. change (reader_head (log_info _ _)) with (reader_head w).
       rewrite (seg_nil_head _ _ _ Hrs). destruct rs as [|a rs]; [done|].
       cbn [head]. intros [= Ha]. apply (Hnew _ _ Hrs). rewrite Ha.
       apply elem_of_cons. by left. }
  cbn [assert mbind option_bind]. eexists _, (new :: rs). split; [done|].
  assert (Hsame : ∀ wx : world,
    heap wx = <[new := Client d 0 (reader_head w) (clock (sys w)) 0]> (heap w) →
    ∀ a, a ≠ new → next_of wx a = next_of w a).
  { intros wx Hh a Ha. unfold next_of, deref. rewrite Hh.
    by rewrite lookup_insert_ne. }
  split; [|split].
  - assert (reader_head (if decide (d > fd_max w) then _ else _) = Some new)
      as -> by (by case_decide).
    simpl. split; [done|]. exists (reader_head w). split.
    + unfold next_of, deref. case_decide; simpl; by rewrite lookup_insert_eq.
    + eapply seg_same; [|exact Hrs]. intros a Ha. apply Hsame.
      * by case_decide.
      * intros ->. by apply (Hnew _ _ Hrs).
  - assert (writer_head (if decide (d > fd_max w) then _ else _)
            = writer_head w) as -> by (by case_decide).
    eapply seg_same; [|exact Hws]. intros a Ha. apply Hsame.
    + by case_decide.
    + intros ->. by apply (Hnew _ _ Hws).
  - simpl. apply NoDup_cons. split; [|done].
    intros Hin. apply elem_of_app in Hin as [Hin|Hin].
    + by apply (Hnew _ _ Hrs).
    + by apply (Hnew _ _ Hws).
Qed.
(** ** Every turn of the main loop comes to an end *)

(** From a world whose two lists are well formed, the part of a turn of
    the main loop that follows [select] finishes, given enough fuel, in a
    world whose lists are again well formed, unless the program aborts in
    one of the two traversals.  The reader traversal may move records to
    the writer list and go on there; what bounds it is the input pending
    in the sockets. *)
Theorem turn_ends listen_fd w rs ws :
  well_formed w rs ws →
  (∃ fuel w' rs' ws',
     after_select fuel listen_fd w = Some w' ∧ well_formed w' rs' ws') ∨
  turn_aborts listen_fd w.
Proof.
  intros Hwf.
  destruct (accept_step_well_formed listen_fd _ _ _ Hwf)
    as (wa & rs1 & Ha & Hwfa).
  set (w0 := with_youngest INT_MAX (FD_SET listen_fd rfds_ptr wa)).
  assert (Hwf0 : well_formed w0 rs1 ws).
  { eapply well_formed_same_links; [|exact Hwfa]. by apply frame_same_links. }
  destruct (traversal_runs true rfds_ptr client_read
              (sys_time w0 - HTTP_TIMEOUT) client_read_spec
              (pending_input w0) (length rs1) w0 reader_head_loc readers []
              rs1 rs1 ws) as (r1 & Hr1 & Hf1); try done.
  destruct r1 as [wr|].
  2: { right. exists wa. split; [done|]. left. exact Hr1. }
  destruct (Hf1 wr eq_refl) as (rs2 & ws2 & Hwfr).
  destruct (traversal_runs false wfds_ptr client_write
              (sys_time wr - HTTP_TIMEOUT) client_write_spec
              (pending_input wr) (length ws2) wr writer_head_loc writers []
              ws2 rs2 ws2) as (r2 & Hr2 & Hf2); try done.
  destruct r2 as [w'|].
  2: { right. exists wa. split; [done|]. right. exists wr. split; done. }
  destruct (Hf2 w' eq_refl) as (rs3 & ws3 & Hwf').
  left.
  apply runs_process_loop in Hr1 as [f1 Hr1], Hr2 as [f2 Hr2].
  exists (f1 `max` f2)%nat, w', rs3, ws3. split; [|done].
  unfold after_select. rewrite Ha. cbn [mbind option_bind]. fold w0.
  unfold process_readers, process_writers, process_generic.
  rewrite (process_loop_more _ _ _ f1 _ _ _ _ (Nat.le_max_l _ _) Hr1).
  cbn [mbind option_bind].
  apply (process_loop_more _ _ _ f2 _ _ _ _ (Nat.le_max_r _ _) Hr2).
Qed.

(** ** The activity floor after a turn *)

Lemma min_with_bounds d l :
  min_with d l ≤ d ∧ (∀ t, t ∈ l → min_with d l ≤ t) ∧
  (min_with d l = d ∨ min_with d l ∈ l).
Proof.
  unfold min_with. induction l as [|x l (IH1 & IH2 & IH3)]; simpl.
  { split; [lia|]. split; [|by left]. intros t Ht. by apply elem_of_nil in Ht. }
  split; [lia|]. split.
  - intros t [->|Ht]%elem_of_cons; [lia|]. specialize (IH2 t Ht). lia.
  - destruct (Z.min_spec x (foldr Z.min d l)) as [[_ ->]|[_ ->]].
    + right. apply elem_of_cons. by left.
    + destruct IH3 as [->|IH3]; [by left|]. right. apply elem_of_cons. by right.
Qed.

Lemma min_with_below d l :
  Forall (λ t, t < d) l → (min_with d l = d ↔ l = []).
Proof.
  intros Hall. split; [|by intros ->].
  destruct l as [|x l]; [done|]. intros Hmin. exfalso.
  apply Forall_cons in Hall as [Hx _].
  destruct (min_with_bounds d (x :: l)) as (_ & Hle & _).
  specialize (Hle x ltac:(apply elem_of_cons; by left)). lia.
Qed.

(** C5 (amended).  From a world whose lists are well formed, the part of a
    turn of the main loop that follows [select] comes to an end (it
    finishes, given enough fuel, or the program aborts in a traversal).
    When it has finished, [youngest] is the smallest of [INT_MAX], the
    value it is given before the traversals, and the [last] fields of the
    records that the two traversals found, each as it stood when found,
    before the idle check and the handler: the records closed in that turn
    are counted too.  The next wait is without limit when [youngest] is
    [INT_MAX] and lasts [youngest + HTTP_TIMEOUT - now] seconds, or 0 if
    that is negative, otherwise.  So when the [last] fields found are all
    below [INT_MAX], the wait is without limit exactly when the traversals
    found no record. *)
Theorem youngest_after_turn listen_fd w rs ws :
  well_formed w rs ws →
  ((∃ fuel w', after_select fuel listen_fd w = Some w') ∨
   turn_aborts listen_fd w) ∧
  ∀ fuel w', after_select fuel listen_fd w = Some w' →
    ∃ wa wr,
      accept_step listen_fd w = Some wa ∧
      let w0 := with_youngest INT_MAX (FD_SET listen_fd rfds_ptr wa) in
      process_readers fuel w0 = Some wr ∧
      process_writers fuel wr = Some w' ∧
      let found :=
        visited fuel wfds_ptr client_write (sys_time wr - HTTP_TIMEOUT)
          writer_head_loc wr ++
        visited fuel rfds_ptr client_read (sys_time w0 - HTTP_TIMEOUT)
          reader_head_loc w0 in
      youngest w' = min_with INT_MAX found ∧
      youngest w' ≤ INT_MAX ∧
      (∀ t, t ∈ found → youngest w' ≤ t) ∧
      (youngest w' = INT_MAX ∨ youngest w' ∈ found) ∧
      select_timeout w' =
        (if decide (youngest w' = INT_MAX) then None
         else Some (Z.max 0 (youngest w' + HTTP_TIMEOUT - sys_time w'))) ∧
      (Forall (λ t, t < INT_MAX) found →
       (select_timeout w' = None ↔ found = [])).
Proof.
  intros Hwf. split.
  { destruct (turn_ends listen_fd _ _ _ Hwf)
      as [(fuel & w' & _ & _ & Hrun & _)|Habort]; eauto. }
  intros fuel w' Hrun. unfold after_select in Hrun.
  destruct (accept_step listen_fd w) as [wa|] eqn:Ha; [|done].
  cbn [mbind option_bind] in Hrun.
  destruct (process_readers fuel _) as [wr|] eqn:Hr; [|done].
  cbn [mbind option_bind] in Hrun.
  exists wa, wr. split; [done|]. cbv zeta. split; [done|]. split; [done|].
  destruct (process_loop_youngest _ _ _ client_read_untouched _ _ _ _ Hr)
    as (_ & _ & Hy1).
  destruct (process_loop_youngest _ _ _ client_write_untouched _ _ _ _ Hrun)
    as (_ & _ & Hy2).
  match goal with |- _ = min_with _ ?l ∧ _ => set (found := l) end.
  assert (Hy : youngest w' = min_with INT_MAX found).
  { unfold found. rewrite min_with_app, Hy2, Hy1. reflexivity. }
  destruct (min_with_bounds INT_MAX found) as (Hle & Hall & Hin).
  rewrite <- Hy in Hle, Hall, Hin.
  do 4 (split; [done|]).
  split; [apply select_timeout_clamped|].
  intros Hbelow. rewrite select_timeout_clamped.
  rewrite <- (min_with_below INT_MAX found Hbelow), <- Hy.
  case_decide; [done|]. split; [done|]. intros; done.
Qed.

(** ** The reader traversal after a completed request *)

(** When [client_read] has moved its record to the writer list,
    [process_generic] sets the read bit of that record again and takes
    [&curr->next] as its next [prev]: the traversal goes on in the writer
    list, with the read set and [client_read].  In the world [crossing]
    the idle reader behind the moved record is not looked at in this
    traversal (it stays, and does not count in [youngest]), and the writer
    is handed to [client_read], which rejects the byte its peer has sent
    and has the connection closed in the middle of the response. *)
Remark reader_traversal_goes_on_in_the_writer_list :
  ∃ w', process_readers 3 crossing = Some w' ∧
        reader_head w' = Some 2%positive ∧
        deref 2%positive w' = Some idle_reader ∧
        writer_head w' = Some 1%positive ∧
        deref 1%positive w' = Some (Client 4 0 None 10 0) ∧
        deref 3%positive w' = None ∧
        closed (sys w') = [6] ∧
        stderr (sys w') = [log_closing_disconnect 6] ∧
        sent (sys w') = ∅ ∧
        rfds w' = {[4]} ∧ wfds w' = {[4]} ∧
        youngest w' = 10.
Proof.
  eexists. split; [vm_compute; reflexivity|].
  repeat split; vm_compute; reflexivity.
Qed.

(** The two handlers, each called for its record alone.  A reader at the
    start of a request whose input is exactly [GET / HTTP/1.0] followed by
    two line ends, however it is cut into reads: [client_read], called
    until the record leaves the reader list (at the first carriage return
    of the empty line), moves the record from where it stands to the head
    of the writer list, clears its read interest, sets its write interest
    and resets phase and offset; if the lists were well formed, with the
    record in the reader list, they are again, with the record out of the
    reader list and first in the writer list; [client_write], called with a
    transport that takes at least one byte per call until it returns 0,
    then writes exactly the header followed by the body on that
    descriptor. *)
Theorem request_is_served cl prev c w chunks q caps :
  linked_at cl prev c w → state c = 0 → fd c ≠ -1 →
  chunks ≠ [] → Forall (λ ch, ch ≠ []) chunks → concat chunks = request →
  inbound (sys w) !! fd c = Some (chunks ++ q) →
  Z.of_nat (length (hdr w)) < UINT_MODULUS →
  Z.of_nat (length (msg w)) < UINT_MODULUS →
  capacity (sys w) !! fd c = Some caps → Forall (λ x, 1 ≤ x) caps →
  (length (hdr w) + length (msg w) + 2 ≤ length caps)%nat →
  ∃ m w1 w2,
    read_calls (length chunks) cl prev w = Some (1, w1) ∧
    moved_to_writers cl prev (set_state 5 (set_last (sys_time w) c))
      (reading cl c 5 m w) w1 ∧
    (fd c ∉ rfds w1) ∧ (fd c ∈ wfds w1) ∧
    deref cl w1 = Some (Client (fd c) 0 (writer_head w) (sys_time w) 0) ∧
    (∀ rs ws pre rest,
       well_formed w rs ws → at_cursor prev readers pre (cl :: rest) rs ws →
       well_formed w1 (pre ++ rest) (cl :: ws)) ∧
    sent_on (fd c) w1 = sent_on (fd c) w ∧
    write_calls (S (length caps)) cl writer_head_loc w1 = Some (0, w2) ∧
    sent_on (fd c) w2 = sent_on (fd c) w ++ hdr w ++ msg w.
Proof.
  intros Hl Hs Hfd Hne Hall Hreq Hin Hh Hm Hcap Hcaps Hlen.
  assert (Hone : Forall one_read chunks).
  { apply chunks_one_read; [done|]. rewrite Hreq. vm_compute. lia. }
  pose proof (read_calls_recognize cl prev chunks w c q Hl Hne Hone Hin) as Hrd.
  rewrite Hs, Hreq in Hrd.
  change (recognize 0 request) with Completed in Hrd.
  destruct Hrd as [m Hrd].
  destruct (do_get_moves _ _ _ _ (linked_at_reading _ _ _ 5 m _ Hl))
    as (w1 & Hdo & Hmv).
  rewrite Hdo in Hrd. simpl in Hrd.
  pose proof (mtw_record _ _ _ _ _ Hmv) as Hc1. simpl in Hc1.
  pose proof (mtw_sys _ _ _ _ _ Hmv) as Hsys. simpl in Hsys.
  pose proof (mtw_hdr _ _ _ _ _ Hmv) as Hhdr. simpl in Hhdr.
  pose proof (mtw_msg _ _ _ _ _ Hmv) as Hmsg. simpl in Hmsg.
  set (c1 := Client (fd c) 0 (writer_head w) (sys_time w) 0) in *.
  assert (Hsent1 : sent_on (fd c) w1 = sent_on (fd c) w).
  { unfold sent_on. by rewrite Hsys. }
  destruct (remaining_at_start c1 w1 eq_refl eq_refl) as [Hrem Hleft].
  destruct (write_calls_done cl writer_head_loc (S (length caps)) w1 c1 caps)
    as (w2 & Hwr & Hsent & _); try done.
  - unfold in_range. simpl. lia.
  - by rewrite Hhdr.
  - by rewrite Hmsg.
  - by rewrite Hsys.
  - rewrite Hleft, Hhdr, Hmsg. lia.
  - rewrite Hleft, Hhdr, Hmsg. lia.
  - exists m, w1, w2. split; [done|]. split; [done|].
    rewrite (mtw_rfds _ _ _ _ _ Hmv), (mtw_wfds _ _ _ _ _ Hmv). simpl.
    split; [intros [_ H]%elem_of_difference; apply H; by apply elem_of_singleton|].
    split; [apply elem_of_union_r; by apply elem_of_singleton|].
    split; [done|].
    split.
    { intros rs ws pre rest Hwf Hcur.
      pose proof Hl as (Hc & _).
      pose proof (well_formed_same_links _ _ _ _
                    (same_links_reading cl c 5 m w Hc) Hwf) as Hwf0.
      destruct (well_formed_move _ _ _ _ _ _ _ _ _ _ Hwf0 Hcur
                  ltac:(done) (deref_reading _ _ _ _ _) Hmv) as [Hwf1 _].
      exact Hwf1. }
    split; [done|]. split; [done|].
    change (fd c1) with (fd c) in Hsent.
    by rewrite Hsent, Hrem, Hsent1, Hhdr, Hmsg.
Qed.

(** ** Two connections *)

Ltac by_running := vm_compute; reflexivity.

(** C1.  A request that is not served.  Two connections are pending on a
    server that has just started; the first sends exactly the request, its
    last byte in a read of its own, the second a whole request.  In the
    first turn the first connection is accepted, read, moved to the writer
    list by [do_get] and sent the first byte of the header; but
    [process_generic], after [client_read] has returned, sets its
    descriptor in [rfds] again.  In the second turn [select] reports that
    descriptor readable (the last byte of the request is waiting); the
    second connection is accepted and its request completed, and the
    reader traversal goes on at the [next] field of the record just moved,
    which leads to the first connection in the writer list: [client_read]
    is called for it with [state] 0, the phase of a writer, and returns 0
    on the line feed.  The connection is closed with one byte of the nine
    of the response sent. *)
Theorem request_cut_before_its_last_byte_is_not_served :
  request_but_last ++ [x0a] = request ∧
  ∃ w1 w2,
    main_turn 4 3 {[3]} ∅ 10 (two_callers [request_but_last; [x0a]] [request])
      = Some w1 ∧
    reader_head w1 = None ∧ writer_head w1 = Some 1%positive ∧
    deref 1%positive w1 = Some (Client 4 0 None 10 1) ∧
    rfds w1 = {[3; 4]} ∧ wfds w1 = {[4]} ∧
    sent_on 4 w1 = ["H"]%byte ∧
    inbound (sys w1) !! 4 = Some [[x0a]] ∧
    backlog (sys w1) = [5] ∧
    main_turn 4 3 {[3; 4]} {[4]} 10 w1 = Some w2 ∧
    deref 1%positive w2 = None ∧
    closed (sys w2) = [4] ∧
    stderr (sys w2) =
      [log_closing_disconnect 4; log_new_client 5; log_new_client 4] ∧
    sent_on 4 w2 = ["H"]%byte ∧
    hdr w2 ++ msg w2 = sample_hdr ++ sample_msg ∧
    writer_head w2 = Some 2%positive ∧
    deref 2%positive w2 = Some (Client 5 0 None 10 1).
Proof.
  split; [reflexivity|].
  eexists _, _. split; [by_running|].
  do 8 (split; [by_running|]).
  split; [by_running|].
  repeat split; by_running.
Qed.

(** C6.  The same bytes, cut differently, with different outcomes.  On the
    server of the two connections, the eighteen bytes of the request of
    the first connection come in one read, or in a read of seventeen and a
    read of one.  In one read: the last byte is dropped with the rest of
    the buffer, nothing is left to read, and the connection is sent the
    header and the body and closed as completed.  In two reads: the turn
    after the request is complete, [client_read] is called again for the
    record, now a writer with [state] 0, and returns 0 on the last byte;
    the connection is closed with one byte sent. *)
Theorem cut_before_the_last_byte_changes_the_outcome :
  concat [request_but_last; [x0a]] = concat [request] ∧
  (∃ w1 w2 w3 w4,
     main_turn 4 3 {[3]} ∅ 10 (two_callers [request] [request]) = Some w1 ∧
     deref 1%positive w1 = Some (Client 4 0 None 10 1) ∧
     inbound (sys w1) !! 4 = Some [] ∧
     main_turn 4 3 {[3]} {[4]} 10 w1 = Some w2 ∧
     main_turn 4 3 ∅ {[4; 5]} 10 w2 = Some w3 ∧
     main_turn 4 3 ∅ {[4; 5]} 10 w3 = Some w4 ∧
     sent_on 4 w4 = sample_hdr ++ sample_msg ∧
     stderr (sys w4) =
       [log_closing_disconnect 4; log_closing_completed 4;
        log_new_client 5; log_new_client 4]) ∧
  (∃ w1 w2,
     main_turn 4 3 {[3]} ∅ 10 (two_callers [request_but_last; [x0a]] [request])
       = Some w1 ∧
     deref 1%positive w1 = Some (Client 4 0 None 10 1) ∧
     inbound (sys w1) !! 4 = Some [[x0a]] ∧
     main_turn 4 3 {[3; 4]} {[4]} 10 w1 = Some w2 ∧
     deref 1%positive w2 = None ∧
     sent_on 4 w2 = ["H"]%byte ∧
     stderr (sys w2) =
       [log_closing_disconnect 4; log_new_client 5; log_new_client 4]).
Proof.
  split; [reflexivity|]. split.
  - eexists _, _, _, _. do 7 (split; [by_running|]). by_running.
  - eexists _, _. do 6 (split; [by_running|]). by_running.
Qed.

(** C8.  An idle record that a traversal does not close.  The first
    connection is accepted at time 0 and sends one byte, then another.  At
    time 6 the second connection is accepted with its whole request
    waiting, and [select] reports the descriptor of the first readable.
    The reader list is then the second connection followed by the first,
    which has been idle for 6 seconds, more than [HTTP_TIMEOUT].  The
    reader traversal completes the request of the second connection and
    goes on at the [next] field of the record just moved, where the
    writer list ends: it never looks at the first connection, which stays
    allocated, with its descriptor open and in [rfds]; its [last] does not
    count in [youngest], and the next [select] waits up to five seconds
    more. *)
Theorem idle_reader_behind_a_completed_request_is_kept :
  ∃ w1 w2,
    main_turn 4 3 {[3]} ∅ 0 (two_callers [["G"]; ["E"]]%byte [request])
      = Some w1 ∧
    reader_head w1 = Some 1%positive ∧
    deref 1%positive w1 = Some (Client 4 1 None 0 0) ∧
    inbound (sys w1) !! 4 = Some [["E"]%byte] ∧
    main_turn 4 3 {[3; 4]} ∅ 6 w1 = Some w2 ∧
    sys_time w2 = 6 ∧
    reader_head w2 = Some 1%positive ∧
    deref 1%positive w2 = Some (Client 4 1 None 0 0) ∧
    writer_head w2 = Some 2%positive ∧
    deref 2%positive w2 = Some (Client 5 0 None 6 1) ∧
    rfds w2 = {[3; 4; 5]} ∧
    closed (sys w2) = [] ∧
    stderr (sys w2) = [log_new_client 5; log_new_client 4] ∧
    inbound (sys w2) !! 4 = Some [["E"]%byte] ∧
    youngest w2 = 6 ∧
    select_timeout w2 = Some 5.
Proof.
  eexists _, _. do 4 (split; [by_running|]). split; [by_running|].
  repeat split; by_running.
Qed.

(** C10.  A rejection after the method was matched.  The first connection
    sends [GET] and a space, which brings its recognizer to state 4; the
    second is accepted and sends the first two bytes of a request.  The
    first then sends a line end and a carriage return, which completes its
    request: it is moved to the writer list, its [state] set to 0, one
    byte of the header is sent to it, and its descriptor is set in [rfds]
    again.  Its next byte, a line feed, arrives as the second connection
    sends the rest of its request: the reader traversal completes that
    request, goes on into the writer list and calls [client_read] for the
    first connection, which returns 0 at [case 0] of the [switch].  The
    connection is closed: not at end of stream, not on an error of [read]
    or [write], not finished and not idle; the only line printed for it is
    the one of the caller. *)
Theorem rejection_after_the_method_was_matched :
  ∃ w1 w2 w3 w4,
    main_turn 4 3 {[3]} ∅ 10
      (two_callers [method_and_space; [x0d; x0a; x0d]; [x0a]]
                   [take 2 request; drop 2 request]) = Some w1 ∧
    deref 1%positive w1 = Some (Client 4 4 None 10 0) ∧
    main_turn 4 3 {[3]} ∅ 10 w1 = Some w2 ∧
    reader_head w2 = Some 2%positive ∧
    deref 2%positive w2 = Some (Client 5 2 (Some 1%positive) 10 0) ∧
    deref 1%positive w2 = Some (Client 4 4 None 10 0) ∧
    main_turn 4 3 {[4]} ∅ 10 w2 = Some w3 ∧
    writer_head w3 = Some 1%positive ∧
    deref 1%positive w3 = Some (Client 4 0 None 10 1) ∧
    rfds w3 = {[3; 4; 5]} ∧
    inbound (sys w3) !! 4 = Some [[x0a]] ∧
    main_turn 4 3 {[4; 5]} {[4]} 10 w3 = Some w4 ∧
    deref 1%positive w4 = None ∧
    closed (sys w4) = [4] ∧
    stderr (sys w4) =
      [log_closing_disconnect 4; log_new_client 5; log_new_client 4] ∧
    sent_on 4 w4 = ["H"]%byte.
Proof.
  eexists _, _, _, _. do 2 (split; [by_running|]). split; [by_running|].
  do 3 (split; [by_running|]). split; [by_running|].
  do 4 (split; [by_running|]). split; [by_running|].
  repeat split; by_running.
Qed.
(** ** The theorems at concrete worlds *)

Ltac by_evaluation :=
  first
    [ reflexivity
    | done
    | lia
    | vm_compute; reflexivity
    | vm_compute; lia
    | apply bool_decide_unpack; vm_compute; exact I
    | progress (repeat split); by_evaluation ].

Lemma chunking_invariance_witness :
  ∃ r wa wb,
    read_calls 2 1%positive reader_head_loc
      (reader_with_input [["G"]; ["E"; "T"]]%byte) = Some (r, wa) ∧
    client_read 1%positive reader_head_loc
      (with_sys (with_inbound <[4 := [["G"; "E"; "T"]%byte]]>)
         (reader_with_input [["G"]; ["E"; "T"]]%byte)) = Some (r, wb) ∧
    program_state wa = program_state wb.
Proof.
  apply (chunking_invariance 1%positive reader_head_loc (fresh_reader 10)
           (reader_with_input [["G"]; ["E"; "T"]]%byte)
           [["G"]; ["E"; "T"]]%byte []).
  - by_evaluation.
  - by_evaluation.
  - repeat constructor; by_evaluation.
  - split; by_evaluation.
  - by_evaluation.
Defined.

Lemma request_is_served_witness :
  ∃ m w1 w2,
    read_calls 3 1%positive reader_head_loc reader_with_request
      = Some (1, w1) ∧
    moved_to_writers 1%positive reader_head_loc
      (set_state 5 (set_last 10 (fresh_reader 10)))
      (reading 1%positive (fresh_reader 10) 5 m reader_with_request) w1 ∧
    (4 ∉ rfds w1) ∧ (4 ∈ wfds w1) ∧
    deref 1%positive w1 = Some (Client 4 0 None 10 0) ∧
    (∀ rs ws pre rest,
       well_formed reader_with_request rs ws →
       at_cursor reader_head_loc readers pre (1%positive :: rest) rs ws →
       well_formed w1 (pre ++ rest) (1%positive :: ws)) ∧
    sent_on 4 w1 = sent_on 4 reader_with_request ∧
    write_calls 12 1%positive writer_head_loc w1 = Some (0, w2) ∧
    sent_on 4 w2 = sent_on 4 reader_with_request ++ sample_hdr ++ sample_msg.
Proof.
  apply (request_is_served 1%positive reader_head_loc (fresh_reader 10)
           reader_with_request request_in_three [] (replicate 11 1)).
  - by_evaluation.
  - by_evaluation.
  - by_evaluation.
  - by_evaluation.
  - repeat constructor; by_evaluation.
  - by_evaluation.
  - by_evaluation.
  - by_evaluation.
  - by_evaluation.
  - by_evaluation.
  - repeat constructor; by_evaluation.
  - by_evaluation.
Defined.

Lemma mismatch_closes_without_response_witness :
  (∃ w1, read_calls 1 1%positive reader_head_loc
           (reader_with_input [["g"; "e"; "t"; " "]]%byte) = Some (0, w1) ∧
         sent (sys w1) = ∅ ∧ capacity (sys w1) = ∅) ∧
  (∃ w2, read_turns 1 1%positive reader_head_loc
           (reader_with_input [["g"; "e"; "t"; " "]]%byte) = Some w2 ∧
         deref 1%positive w2 = None ∧ load reader_head_loc w2 = Some None ∧
         closed (sys w2) = [4] ∧
         stderr (sys w2) = [log_closing_disconnect 4] ∧
         sent (sys w2) = ∅ ∧ capacity (sys w2) = ∅ ∧
         (4 ∉ rfds w2) ∧ (4 ∉ wfds w2)).
Proof.
  apply (mismatch_closes_without_response 1%positive reader_head_loc
           (fresh_reader 10) (reader_with_input [["g"; "e"; "t"; " "]]%byte)
           [["g"; "e"; "t"; " "]]%byte [] 0%nat "g"%byte "G"%byte).
  - by_evaluation.
  - by_evaluation.
  - by_evaluation.
  - by_evaluation.
  - by_evaluation.
  - repeat constructor; by_evaluation.
  - by_evaluation.
  - by_evaluation.
  - by_evaluation.
  - by_evaluation.
Defined.

Lemma one_accept_per_turn_witness :
  (backlog (sys two_pending) = [] → accept_step 3 two_pending = Some two_pending) ∧
  (∀ d rest, backlog (sys two_pending) = d :: rest → 0 ≤ d →
     ∃ w', accept_step 3 two_pending = Some w' ∧
           backlog (sys w') = rest ∧
           deref (calloc two_pending) two_pending = None ∧
           reader_head w' = Some (calloc two_pending) ∧
           deref (calloc two_pending) w' =
             Some (Client d 0 (reader_head two_pending) (sys_time two_pending) 0) ∧
           rfds w' = rfds two_pending ∪ {[d]} ∧
           (∀ q, q ≠ calloc two_pending → deref q w' = deref q two_pending) ∧
           writer_head w' = writer_head two_pending ∧
           fd_max w' = Z.max (fd_max two_pending) d) ∧
  (∀ fuel w', after_select fuel 3 two_pending = Some w' →
              backlog (sys w') = tail (backlog (sys two_pending))).
Proof.
  apply (one_accept_per_turn 3 two_pending).
  - by_evaluation.
  - exact I.
Defined.

Lemma idle_eviction_threshold_witness :
  timed_out rfds_ptr client_read reader_head_loc
    (one_reader 5 (quiet 10)) 1%positive (fresh_reader 5)
  ↔ HTTP_TIMEOUT ≤ sys_time (one_reader 5 (quiet 10)) - last (fresh_reader 5).
Proof.
  apply (idle_eviction_threshold rfds_ptr client_read reader_head_loc
           (one_reader 5 (quiet 10)) 1%positive (fresh_reader 5)).
  - by_evaluation.
  - by_evaluation.
  - by_evaluation.
Defined.

Lemma youngest_after_turn_witness :
  let w := one_reader 0 (quiet 10) in
  ((∃ fuel w', after_select fuel 3 w = Some w') ∨ turn_aborts 3 w) ∧
  ∀ fuel w', after_select fuel 3 w = Some w' →
    ∃ wa wr,
      accept_step 3 w = Some wa ∧
      let w0 := with_youngest INT_MAX (FD_SET 3 rfds_ptr wa) in
      process_readers fuel w0 = Some wr ∧
      process_writers fuel wr = Some w' ∧
      let found :=
        visited fuel wfds_ptr client_write (sys_time wr - HTTP_TIMEOUT)
          writer_head_loc wr ++
        visited fuel rfds_ptr client_read (sys_time w0 - HTTP_TIMEOUT)
          reader_head_loc w0 in
      youngest w' = min_with INT_MAX found ∧
      youngest w' ≤ INT_MAX ∧
      (∀ t, t ∈ found → youngest w' ≤ t) ∧
      (youngest w' = INT_MAX ∨ youngest w' ∈ found) ∧
      select_timeout w' =
        (if decide (youngest w' = INT_MAX) then None
         else Some (Z.max 0 (youngest w' + HTTP_TIMEOUT - sys_time w'))) ∧
      (Forall (λ t, t < INT_MAX) found →
       (select_timeout w' = None ↔ found = [])).
Proof.
  apply (youngest_after_turn 3 (one_reader 0 (quiet 10)) [1%positive] []).
  split; [|split].
  - simpl. split; [reflexivity|]. exists None. split; reflexivity.
  - reflexivity.
  - apply NoDup_singleton.
Defined.

Lemma response_writer_delivers_witness :
  (∀ buf cap q,
     current_buffer fresh_writer one_writer = Some buf →
     replicate 11 1 = cap :: q →
     let n := Z.min cap (Z.of_nat (length buf) - write_ofs fresh_writer) in
     let c1 := advance n (Z.of_nat (length buf)) (sys_time one_writer)
                 fresh_writer in
     ∃ w1, client_write 1%positive writer_head_loc one_writer = Some (1, w1) ∧
           deref 1%positive w1 = Some c1 ∧ in_range c1 w1 ∧
           write_ofs fresh_writer + n ≤ Z.of_nat (length buf) ∧
           sent_on 4 w1 =
             sent_on 4 one_writer ++
             take (Z.to_nat n) (drop (Z.to_nat (write_ofs fresh_writer)) buf)) ∧
  (calls_left fresh_writer one_writer ≤ 11 →
   ∃ w', write_calls 12 1%positive writer_head_loc one_writer = Some (0, w') ∧
         sent_on 4 w' = sent_on 4 one_writer ++ remaining fresh_writer one_writer) ∧
  (state fresh_writer = 0 → write_ofs fresh_writer = 0 →
   remaining fresh_writer one_writer = sample_hdr ++ sample_msg ∧
   calls_left fresh_writer one_writer = 11).
Proof.
  apply (response_writer_delivers 1%positive writer_head_loc one_writer
           fresh_writer (replicate 11 1)).
  - by_evaluation.
  - by_evaluation.
  - by_evaluation.
  - by_evaluation.
  - by_evaluation.
  - by_evaluation.
  - repeat constructor; by_evaluation.
Defined.

Lemma idle_check_comes_first_witness :
  (∃ w', process_step rfds_ptr client_read
           (sys_time (one_reader 0 (quiet 10)) - HTTP_TIMEOUT) reader_head_loc
           (one_reader 0 (quiet 10)) = Some (Some reader_head_loc, w') ∧
         process_step rfds_ptr never_called
           (sys_time (one_reader 0 (quiet 10)) - HTTP_TIMEOUT) reader_head_loc
           (one_reader 0 (quiet 10)) = Some (Some reader_head_loc, w') ∧
         deref 1%positive w' = None ∧
         closed (sys w') = [4] ∧
         (4 ∉ rfds w') ∧ (4 ∉ wfds w') ∧
         stderr (sys w') = [log_closing_timeout 4] ∧
         inbound (sys w') = ∅ ∧ capacity (sys w') = ∅ ∧ sent (sys w') = ∅) ∧
  (∀ fuel head,
     process_generic fuel head rfds_ptr client_read (one_reader 0 (quiet 10)) =
     process_generic fuel head rfds_ptr
       (guarded (sys_time (one_reader 0 (quiet 10)) - HTTP_TIMEOUT) client_read)
       (one_reader 0 (quiet 10))).
Proof.
  apply (idle_check_comes_first rfds_ptr client_read reader_head_loc
           (one_reader 0 (quiet 10)) 1%positive (fresh_reader 0)).
  - by_evaluation.
  - by_evaluation.
  - by_evaluation.
  - by_evaluation.
Defined.

Lemma line_start_blank_or_header_witness :
  let w := reader_past_method 5 [] in
  let c := reader_in_state 5 in
  (∀ b rest, b = x0d ∨ b = x0a →
     ∃ w', read_loop 1%positive reader_head_loc (b :: rest) w = Some (1, w') ∧
           moved_to_writers 1%positive reader_head_loc c w w') ∧
  (∀ b line rest, b ≠ x0d → b ≠ x0a → x0a ∉ line →
     read_loop 1%positive reader_head_loc (b :: line) w =
       Some (1, with_heap <[1%positive := set_state 6 c]> w) ∧
     read_loop 1%positive reader_head_loc (b :: line ++ x0a :: rest) w
       = read_loop 1%positive reader_head_loc rest w).
Proof.
  apply (line_start_blank_or_header 1%positive reader_head_loc
           (reader_in_state 5) (reader_past_method 5 [])).
  - by_evaluation.
  - by_evaluation.
Defined.

Lemma no_rejection_past_method_witness :
  let w := reader_past_method 4 [["/"; x0d; x0a]%byte] in
  let c := reader_in_state 4 in
  (∀ b, ∃ f w', read_switch 1%positive reader_head_loc b w = Some (f, w') ∧
                f ≠ Return 0) ∧
  (∃ r w', client_read 1%positive reader_head_loc w = Some (r, w') ∧
     (r = 0 ↔ (sys_read (fd c) HTTP_BUFSIZE w).1.1 ≤ 0) ∧
     (r ≠ 0 → r = 1 ∧
        ((∃ c', linked_at 1%positive reader_head_loc c' w' ∧
                past_method (state c'))
         ∨ writer_at_start 1%positive w'))) ∧
  (∀ chunks q n,
     Forall (λ ch, ch ≠ []) chunks →
     inbound (sys w) !! fd c = Some (chunks ++ q) →
     (n ≤ length chunks)%nat →
     ∃ w', read_calls n 1%positive reader_head_loc w = Some (1, w') ∧
       ((∃ c', linked_at 1%positive reader_head_loc c' w' ∧
               past_method (state c'))
        ∨ writer_at_start 1%positive w')).
Proof.
  apply (no_rejection_past_method 1%positive reader_head_loc
           (reader_in_state 4) (reader_past_method 4 [["/"; x0d; x0a]%byte])).
  - by_evaluation.
  - left. reflexivity.
Defined.
(** * Further properties of the program *)

(** ** What a turn of a traversal can be *)

Lemma process_step_inv fds foreach timeout prev w k w' :
  process_step fds foreach timeout prev w = Some (k, w') →
  (load prev w = Some None ∧ k = None ∧ w' = w) ∨
  ∃ curr c, load prev w = Some (Some curr) ∧ deref curr w = Some c ∧
    ((last c ≤ timeout ∧ k = Some prev ∧
      client_free curr prev
        (log_info (log_closing_timeout (fd c)) (note_youngest c w)) = Some w') ∨
     (timeout < last c ∧ FD_ISSET (fd c) fds (note_youngest c w) = false ∧
      k = Some (next_loc curr) ∧ w' = FD_SET (fd c) fds (note_youngest c w)) ∨
     (timeout < last c ∧ FD_ISSET (fd c) fds (note_youngest c w) = true ∧
      ∃ r w1 c1, foreach curr prev (note_youngest c w) = Some (r, w1) ∧
        deref curr w1 = Some c1 ∧
        ((r = 0 ∧ k = Some prev ∧
          client_free curr prev
            (log_info (log_closing_disconnect (fd c1)) w1) = Some w') ∨
         (r ≠ 0 ∧ k = Some (next_loc curr) ∧ w' = FD_SET (fd c1) fds w1)))).
Proof.
  intros Hstep.
  destruct (load prev w) as [[curr|]|] eqn:Hp.
  2: { left. unfold process_step in Hstep. rewrite Hp in Hstep.
       by injection Hstep as <- <-. }
  2: { unfold process_step in Hstep. by rewrite Hp in Hstep. }
  destruct (deref curr w) as [c|] eqn:Hc.
  2: { unfold process_step in Hstep. rewrite Hp in Hstep.
       cbn [mbind option_bind] in Hstep. by rewrite Hc in Hstep. }
  right. exists curr, c. split; [done|]. split; [done|].
  rewrite (process_step_unfold _ _ _ _ _ _ _ Hp Hc) in Hstep.
  cbv zeta in Hstep.
  destruct (decide (last c ≤ timeout)) as [Hidle|Hidle].
  { left. destruct (client_free _ _ _) as [w1|] eqn:Hfree; [|done].
    by injection Hstep as <- <-. }
  right.
  destruct (FD_ISSET (fd c) fds (note_youngest c w)) eqn:Hset.
  2: { left. injection Hstep as <- <-. repeat split; try done; lia. }
  right. split; [lia|]. split; [done|].
  destruct (foreach curr prev (note_youngest c w)) as [[r w1]|] eqn:Hf; [|done].
  cbn [mbind option_bind] in Hstep.
  destruct (decide (r = 0)) as [Hr|Hr];
    (destruct (deref curr w1) as [c1|] eqn:Hc1; [|done]);
    cbn [mbind option_bind] in Hstep; exists r, w1, c1; (split; [done|]);
    (split; [done|]).
  - left. destruct (client_free _ _ _) as [w2|] eqn:Hfree; [|done].
    by injection Hstep as <- <-.
  - right. by injection Hstep as <- <-.
Qed.

(** A property of the world that every part of a traversal turn keeps is
    kept by the turn, and by the whole traversal. *)
Lemma process_step_preserves (P : world → Prop) fds foreach timeout :
  (∀ c w, P w → P (note_youngest c w)) →
  (∀ l w, P w → P (log_info l w)) →
  (∀ cl prev w w', P w → client_free cl prev w = Some w' → P w') →
  (∀ cl prev w r w', P w → foreach cl prev w = Some (r, w') → P w') →
  (∀ p c w, P w → deref p w = Some c → P (FD_SET (fd c) fds w)) →
  ∀ prev w k w',
    P w → process_step fds foreach timeout prev w = Some (k, w') → P w'.
Proof.
  intros Hy Hl Hfree Hf Hset prev w k w' HP Hstep.
  apply process_step_inv in Hstep
    as [(_ & _ & ->)|(curr & c & Hp & Hc & Hcases)]; [done|].
  destruct Hcases as [(_ & _ & Hfr)|[(_ & _ & _ & ->)|(_ & _ & r & w1 & c1 & Hh & Hc1 & Hcases)]].
  - eapply Hfree; [|exact Hfr]. by apply Hl, Hy.
  - apply (Hset curr); [by apply Hy|].
    by rewrite deref_note_youngest.
  - assert (HP1 : P w1) by (eapply Hf; [|exact Hh]; by apply Hy).
    destruct Hcases as [(_ & _ & Hfr)|(_ & _ & ->)].
    + eapply Hfree; [|exact Hfr]. by apply Hl.
    + by apply (Hset curr).
Qed.

Lemma process_loop_preserves (P : world → Prop) fds foreach timeout :
  (∀ c w, P w → P (note_youngest c w)) →
  (∀ l w, P w → P (log_info l w)) →
  (∀ cl prev w w', P w → client_free cl prev w = Some w' → P w') →
  (∀ cl prev w r w', P w → foreach cl prev w = Some (r, w') → P w') →
  (∀ p c w, P w → deref p w = Some c → P (FD_SET (fd c) fds w)) →
  ∀ fuel prev w w',
    P w → process_loop fuel fds foreach timeout prev w = Some w' → P w'.
Proof.
  intros Hy Hl Hfree Hf Hset fuel.
  induction fuel as [|fuel IH]; intros prev w w' HP Hloop; [done|].
  simpl in Hloop.
  destruct (process_step fds foreach timeout prev w) as [[k w1]|] eqn:Hstep;
    [|done].
  cbn [mbind option_bind] in Hloop.
  pose proof (process_step_preserves P fds foreach timeout Hy Hl Hfree Hf Hset
                _ _ _ _ HP Hstep) as HP1.
  destruct k as [prev'|]; [by eapply IH|by injection Hloop as <-].
Qed.
Lemma upd_inv p f w w' :
  upd p f w = Some w' →
  ∃ c, deref p w = Some c ∧ w' = with_heap <[p := f c]> w.
Proof.
  unfold upd. destruct (deref p w) as [c|]; [|done].
  intros [= <-]. by exists c.
Qed.

Lemma live_upd d p f w w' :
  upd p f w = Some w' → (∀ c, fd (f c) = fd c) → live d w ↔ live d w'.
Proof.
  intros (c & Hc & ->)%upd_inv Hf. split; intros (q & cq & Hq & Hd).
  - destruct (decide (q = p)) as [->|Hne].
    + exists p, (f c). rewrite deref_with_heap_insert. split; [done|].
      rewrite Hf. congruence.
    + exists q, cq. by rewrite deref_with_heap_insert_ne.
  - destruct (decide (q = p)) as [->|Hne].
    + rewrite deref_with_heap_insert in Hq. injection Hq as <-.
      exists p, c. by rewrite <- Hf.
    + rewrite deref_with_heap_insert_ne in Hq by done. by exists q, cq.
Qed.

Lemma upd_fd p f w w' q :
  upd p f w = Some w' → (∀ c, fd (f c) = fd c) →
  fd <$> deref q w' = fd <$> deref q w.
Proof.
  intros (c & Hc & ->)%upd_inv Hf.
  destruct (decide (q = p)) as [->|Hne].
  - rewrite deref_with_heap_insert, Hc. simpl. by rewrite Hf.
  - by rewrite deref_with_heap_insert_ne.
Qed.

Lemma store_fd l v w w' q :
  store l v w = Some w' → fd <$> deref q w' = fd <$> deref q w.
Proof.
  destruct l; simpl; try (by intros [= <-]).
  intros Hu. by apply (upd_fd _ _ _ _ _ Hu).
Qed.

Section keeps.
Variable P : world → Prop.
Hypothesis P_upd : ∀ p f w w',
  (∀ c, fd (f c) = fd c) → upd p f w = Some w' → P w → P w'.
Hypothesis P_reader_head : ∀ v w, P w → P (with_reader_head v w).
Hypothesis P_writer_head : ∀ v w, P w → P (with_writer_head v w).
Hypothesis P_youngest : ∀ v w, P w → P (with_youngest v w).
Hypothesis P_inbound : ∀ f w, P w → P (with_sys (with_inbound f) w).
Hypothesis P_capacity : ∀ f w, P w → P (with_sys (with_capacity f) w).
Hypothesis P_sent : ∀ f w, P w → P (with_sys (with_sent f) w).
Hypothesis P_stderr : ∀ f w, P w → P (with_sys (with_stderr f) w).
Hypothesis P_clr : ∀ d s w, live d w → P w → P (FD_CLR d s w).
Hypothesis P_set : ∀ d s w, live d w → P w → P (FD_SET d s w).
Hypothesis P_free : ∀ cl c w,
  deref cl w = Some c → fd c ≠ -1 → P w →
  P (with_heap (delete cl)
       (FD_CLR (fd c) wfds_ptr (FD_CLR (fd c) rfds_ptr (sys_close (fd c) w)))).

Lemma store_keeps l v w w' : store l v w = Some w' → P w → P w'.
Proof using P_upd P_reader_head P_writer_head.
  destruct l; simpl.
  - intros [= <-]. apply P_reader_head.
  - intros [= <-]. apply P_writer_head.
  - by apply P_upd.
Qed.

Lemma do_get_keeps cl prev w w' : do_get cl prev w = Some w' → P w → P w'.
Proof using P_upd P_reader_head P_writer_head P_clr P_set.
  unfold do_get. intros H HP.
  apply bind_Some in H as (c & Hc & H).
  apply bind_Some in H as (_ & _ & H).
  apply bind_Some in H as (w1 & H1 & H).
  apply bind_Some in H as (w2 & H2 & H).
  apply bind_Some in H as (c2 & Hc2 & H).
  apply bind_Some in H as (w3 & H3 & H).
  apply bind_Some in H as (c3 & Hc3 & H).
  apply bind_Some in H as (_ & _ & H).
  pose proof (store_keeps _ _ _ _ H1 HP) as HP1.
  assert (P w2) as HP2 by (eapply P_upd; [|exact H2|exact HP1]; done).
  eapply P_upd; [|exact H|]; [done|].
  eapply P_upd; [|exact H3|]; [done|].
  assert (live (fd c2) (with_writer_head (Some cl) w2)) as Hl
    by (by exists cl, c2).
  apply P_set; [by destruct Hl as (q & cq & ? & ?); exists q, cq|].
  apply P_clr; [done|]. by apply P_writer_head.
Qed.

Lemma read_switch_keeps cl prev b w f w' :
  read_switch cl prev b w = Some (f, w') → P w → P w'.
Proof using P_upd P_reader_head P_writer_head P_clr P_set.
  unfold read_switch. intros H HP.
  apply bind_Some in H as (c & Hc & H).
  assert (Hincr : ∀ g, (∀ c, fd (g c) = fd c) →
            (upd cl g w ≫= λ w0, Some (Break, w0)) = Some (f, w') → P w').
  { intros g Hg Hu. apply bind_Some in Hu as (w0 & Hu & [= _ <-]).
    by eapply P_upd. }
  destruct (state c) as [|p|p]; [|do 3 (try destruct p as [p|p|])|];
    repeat case_decide; simplify_eq; eauto.
  all: try (eapply Hincr; [|exact H]; done).
  apply bind_Some in H as (w0 & Hd & [= _ <-]). by eapply do_get_keeps.
Qed.

Lemma read_loop_keeps cl prev buf : ∀ w r w',
  read_loop cl prev buf w = Some (r, w') → P w → P w'.
Proof using P_upd P_reader_head P_writer_head P_clr P_set.
  induction buf as [|b buf IH]; intros w r w' H HP; simpl in H.
  { by injection H as _ <-. }
  apply bind_Some in H as ([f w1] & Hsw & H).
  pose proof (read_switch_keeps _ _ _ _ _ _ Hsw HP) as HP1.
  destruct f as [r0|]; [by injection H as _ <-|by eapply IH].
Qed.

Lemma client_read_keeps cl prev w r w' :
  client_read cl prev w = Some (r, w') → P w → P w'.
Proof using P_upd P_reader_head P_writer_head P_clr P_set P_inbound P_stderr.
  unfold client_read. intros H HP.
  apply bind_Some in H as (c & Hc & H).
  destruct (sys_read (fd c) HTTP_BUFSIZE w) as [[len buf] w1] eqn:Hrd.
  assert (P w1) as HP1.
  { unfold sys_read in Hrd.
    destruct (inbound (sys w) !! fd c) as [[|[|b ch] q]|];
      injection Hrd as _ _ <-; try done. by apply P_inbound. }
  case_decide.
  - injection H as _ <-. by apply P_stderr.
  - apply bind_Some in H as (w2 & Hu & H).
    eapply read_loop_keeps; [exact H|].
    eapply P_upd; [|exact Hu|exact HP1]; done.
Qed.

Lemma client_write_keeps cl prev w r w' :
  client_write cl prev w = Some (r, w') → P w → P w'.
Proof using P_upd P_capacity P_sent P_stderr.
  unfold client_write. intros H HP.
  apply bind_Some in H as (c & Hc & H).
  destruct (match state c with 0 => Some (hdr w) | 1 => Some (msg w)
            | _ => None end) as [buf|].
  2: { injection H as _ <-. by apply P_stderr. }
  apply bind_Some in H as (_ & _ & H).
  apply bind_Some in H as (_ & _ & H).
  destruct (sys_write (fd c) _ w) as [res w1] eqn:Hwr.
  assert (P w1) as HP1.
  { unfold sys_write in Hwr.
    destruct (capacity (sys w) !! fd c) as [[|cap q]|];
      try (by injection Hwr as _ <-).
    destruct (decide (cap < 0)); injection Hwr as _ <-.
    - by apply P_capacity.
    - by apply P_sent, P_capacity. }
  case_decide.
  { injection H as _ <-. by apply P_stderr. }
  apply bind_Some in H as (w2 & Hu2 & H).
  apply bind_Some in H as (c2 & Hc2 & H).
  apply bind_Some in H as (_ & _ & H).
  apply bind_Some in H as (w3 & Hu3 & H).
  apply bind_Some in H as (w4 & Hu4 & [= _ <-]).
  eapply P_upd; [|exact Hu4|]; [done|].
  assert (P w2) as HP2 by (eapply P_upd; [|exact Hu2|exact HP1]; done).
  case_decide; [|by injection Hu3 as <-].
  eapply P_upd; [|exact Hu3|exact HP2]; done.
Qed.

Lemma client_free_keeps cl prev w w' :
  client_free cl prev w = Some w' → P w → P w'.
Proof using P_upd P_reader_head P_writer_head P_free.
  unfold client_free. intros H HP.
  apply bind_Some in H as (p & Hp & H).
  apply bind_Some in H as (_ & _ & H).
  apply bind_Some in H as (c & Hc & H).
  apply bind_Some in H as ([] & Hfd & H).
  apply bind_Some in H as (w1 & H1 & H).
  apply bind_Some in H as (w2 & H2 & H).
  apply bind_Some in H as (c2 & Hc2 & [= <-]).
  pose proof (store_keeps _ _ _ _ H1 HP) as HP1.
  assert (P w2) as HP2 by (eapply P_upd; [|exact H2|exact HP1]; done).
  apply P_free; [done| |done].
  unfold assert in Hfd. case_bool_decide; [|done].
  assert (fd <$> deref cl w2 = fd <$> deref cl w) as Hsame.
  { rewrite (upd_fd _ _ _ _ cl H2) by done.
    by rewrite (store_fd _ _ _ _ cl H1). }
  rewrite Hc2, Hc in Hsame. simpl in Hsame. congruence.
Qed.

Lemma process_loop_keeps fds foreach timeout :
  (∀ cl prev w r w', foreach cl prev w = Some (r, w') → P w → P w') →
  ∀ fuel prev w w',
    process_loop fuel fds foreach timeout prev w = Some w' → P w → P w'.
Proof using P_upd P_reader_head P_writer_head P_free P_youngest P_stderr P_set.
  intros Hf fuel prev w w' Hloop HP.
  eapply (process_loop_preserves P fds foreach timeout); [..|exact HP|exact Hloop].
  - intros c w0 HP0. unfold note_youngest. case_decide; [|done].
    by apply P_youngest.
  - intros l w0 HP0. by apply P_stderr.
  - intros cl prev0 w0 w0' HP0 Hfr. by eapply client_free_keeps.
  - intros cl prev0 w0 r w0' HP0 Hh. by eapply Hf.
  - intros p c w0 HP0 Hc. apply P_set; [by exists p, c|done].
Qed.

Lemma process_readers_keeps fuel w w' :
  process_readers fuel w = Some w' → P w → P w'.
Proof using All.
  apply process_loop_keeps. intros cl prev w0 r w0'. apply client_read_keeps.
Qed.

Lemma process_writers_keeps fuel w w' :
  process_writers fuel w = Some w' → P w → P w'.
Proof using All.
  apply process_loop_keeps. intros cl prev w0 r w0'. apply client_write_keeps.
Qed.
End keeps.
Lemma calloc_fresh w : deref (calloc w) w = None.
Proof.
  unfold deref, calloc. apply not_elem_of_dom. apply is_fresh.
Qed.

(** What [client_accept] does: nothing when [accept] fails, and otherwise
    one new record on the accepted descriptor. *)
Lemma client_accept_inv w w' :
  client_accept w = Some w' →
  (heap w' = heap w ∧ rfds w' = rfds w ∧ wfds w' = wfds w ∧
   fd_max w' = fd_max w ∧ closed (sys w') = closed (sys w) ∧
   reader_head w' = reader_head w ∧ writer_head w' = writer_head w) ∨
  ∃ d rest, backlog (sys w) = d :: rest ∧ 0 ≤ d ∧
    heap w' = <[calloc w := Client d 0 (reader_head w) (sys_time w) 0]> (heap w) ∧
    rfds w' = rfds w ∪ {[d]} ∧ wfds w' = wfds w ∧
    fd_max w' = Z.max (fd_max w) d ∧ closed (sys w') = closed (sys w) ∧
    reader_head w' = Some (calloc w) ∧ writer_head w' = writer_head w.
Proof.
  unfold client_accept, sys_accept.
  destruct (backlog (sys w)) as [|d rest] eqn:Hb.
  { rewrite decide_True by lia. intros [= <-]. left. by repeat split. }
  destruct (decide (d < 0)) as [Hd|Hd].
  { intros [= <-]. left. by repeat split. }
  cbv zeta. intros H. apply bind_Some in H as (_ & _ & [= <-]).
  right. exists d, rest. split; [done|]. split; [lia|].
  split; [by case_decide|]. split; [by case_decide|].
  split; [by case_decide|]. split; [case_decide; simpl in *; lia|].
  split; [by case_decide|]. split; by case_decide.
Qed.

Lemma after_select_inv fuel listen_fd w w' :
  after_select fuel listen_fd w = Some w' →
  ∃ wa wr, accept_step listen_fd w = Some wa ∧
    process_readers fuel
      (with_youngest INT_MAX (FD_SET listen_fd rfds_ptr wa)) = Some wr ∧
    process_writers fuel wr = Some w'.
Proof.
  unfold after_select. intros H.
  apply bind_Some in H as (wa & Ha & H).
  apply bind_Some in H as (wr & Hr & H).
  by exists wa, wr.
Qed.

Lemma accept_step_inv listen_fd w wa :
  accept_step listen_fd w = Some wa → wa = w ∨ client_accept w = Some wa.
Proof.
  unfold accept_step. destruct (FD_ISSET _ _ _); [by right|].
  intros [= <-]. by left.
Qed.

(** ** [fd_max] *)

Lemma covered_kept listen_fd w w' :
  fd_max w' = fd_max w →
  (∀ p c', deref p w' = Some c' → ∃ q c, deref q w = Some c ∧ fd c' = fd c) →
  covered listen_fd w → covered listen_fd w'.
Proof.
  intros Hm Hk [Hl Hc]. split; [by rewrite Hm|].
  intros p c' Hc'. destruct (Hk _ _ Hc') as (q & c & Hq & ->).
  rewrite Hm. by eapply Hc.
Qed.

Lemma covered_traversals listen_fd fuel w w' :
  (process_readers fuel w = Some w' ∨ process_writers fuel w = Some w') →
  covered listen_fd w ∧ fd_max w = fd_max w →
  covered listen_fd w' ∧ fd_max w' = fd_max w.
Proof.
  intros Hrun HP.
  set (P := λ w0, covered listen_fd w0 ∧ fd_max w0 = fd_max w).
  assert (∀ p f w1 w2, (∀ c, fd (f c) = fd c) → upd p f w1 = Some w2 →
            P w1 → P w2) as P_upd.
  { intros p f w1 w2 Hf Hu [Hc Hm].
    pose proof Hu as (c & Hp & ->)%upd_inv. split; [|done].
    eapply covered_kept; [| |exact Hc]; [done|].
    intros q c' Hq. pose proof (upd_fd _ _ _ _ q Hu Hf) as Hfd.
    rewrite Hq in Hfd. simpl in Hfd.
    destruct (deref q w1) as [c0|] eqn:Hq0; [|done].
    exists q, c0. split; [done|]. simpl in Hfd. congruence. }
  assert (∀ cl c w1, deref cl w1 = Some c → fd c ≠ -1 → P w1 →
            P (with_heap (delete cl)
                 (FD_CLR (fd c) wfds_ptr
                    (FD_CLR (fd c) rfds_ptr (sys_close (fd c) w1))))) as P_free.
  { intros cl c w1 Hc Hfd [Hcov Hm]. split; [|done].
    eapply covered_kept; [| |exact Hcov]; [done|].
    intros q c' Hq. exists q, c'. split; [|done].
    unfold deref in *. simpl in Hq.
    by apply lookup_delete_Some in Hq as [_ ?]. }
  destruct Hrun as [Hrun|Hrun].
  - eapply (process_readers_keeps P); try exact Hrun; try exact HP; try done.
    all: intros; destruct s; done.
  - eapply (process_writers_keeps P); try exact Hrun; try exact HP; try done.
    all: intros; destruct s; done.
Qed.

Lemma covered_accept listen_fd w wa :
  accept_step listen_fd w = Some wa →
  covered listen_fd w → covered listen_fd wa ∧ fd_max w ≤ fd_max wa.
Proof.
  intros [->|Hacc]%accept_step_inv Hcov; [split; [done|lia]|].
  destruct Hcov as [Hl Hc].
  apply client_accept_inv in Hacc
    as [(Hh & _ & _ & Hm & _)|(d & rest & _ & Hd & Hh & _ & _ & Hm & _)].
  - split; [|lia]. split; [lia|]. intros p c. unfold deref. rewrite Hh, Hm.
    apply Hc.
  - split; [|lia]. split; [lia|]. intros p c. unfold deref. rewrite Hh, Hm.
    intros [[_ <-]|[_ Hp]]%lookup_insert_Some; simpl; [lia|].
    specialize (Hc p c Hp). lia.
Qed.

(** X1.  Every turn of the main loop keeps [fd_max] at or above the
    listening descriptor and the descriptor of every allocated record, and
    never lowers it: the [select] of the next turn, called with
    [fd_max + 1], looks at every open connection. *)
Theorem fd_max_covers_every_descriptor fuel listen_fd ready_r ready_w now w w' :
  covered listen_fd w →
  main_turn fuel listen_fd ready_r ready_w now w = Some w' →
  covered listen_fd w' ∧ fd_max w ≤ fd_max w'.
Proof.
  intros Hcov Hturn. unfold main_turn in Hturn.
  apply after_select_inv in Hturn as (wa & wr & Ha & Hr & Hw).
  assert (covered listen_fd (sys_select ready_r ready_w now w)) as Hcov0
    by done.
  destruct (covered_accept _ _ _ Ha Hcov0) as [Hcova Hle].
  assert (covered listen_fd
            (with_youngest INT_MAX (FD_SET listen_fd rfds_ptr wa))) as Hcov1
    by done.
  destruct (covered_traversals listen_fd fuel _ _ (or_introl Hr)
              (conj Hcov1 eq_refl)) as [Hcovr Hmr].
  destruct (covered_traversals listen_fd fuel _ _ (or_intror Hw)
              (conj Hcovr eq_refl)) as [Hcovw Hmw].
  split; [done|]. rewrite Hmw, Hmr. exact Hle.
Qed.
(** ** The interest sets *)

Lemma live_delete d cl c w (f : world → world) :
  deref cl w = Some c → d ≠ fd c → heap (f w) = heap w →
  live d w → live d (with_heap (delete cl) (f w)).
Proof.
  intros Hc Hd Hf (q & cq & Hq & Hfd).
  exists q, cq. split; [|done]. unfold deref in *. simpl. rewrite Hf.
  apply lookup_delete_Some. split; [|done]. intros ->. congruence.
Qed.

Lemma interest_is_live_traversals listen_fd fuel w w' :
  (process_readers fuel w = Some w' ∨ process_writers fuel w = Some w') →
  interest_is_live listen_fd w → interest_is_live listen_fd w'.
Proof.
  intros Hrun HP.
  set (P := interest_is_live listen_fd).
  assert (∀ p f w1 w2, (∀ c, fd (f c) = fd c) → upd p f w1 = Some w2 →
            P w1 → P w2) as P_upd.
  { intros p f w1 w2 Hf Hu [Hr Hw].
    pose proof Hu as (c & Hp & Hw2)%upd_inv.
    split; intros d Hd.
    - destruct (Hr d) as [?|Hl]; [by subst w2|by left|].
      right. by apply (live_upd d _ _ _ _ Hu Hf).
    - apply (live_upd d _ _ _ _ Hu Hf). apply Hw. by subst w2. }
  assert (∀ d s w1, live d w1 → P w1 → P (FD_CLR d s w1)) as P_clr.
  { intros d s w1 _ [Hr Hw]. destruct s; split; intros e He; simpl in He.
    - apply elem_of_difference in He as [He _]. by apply Hr.
    - by apply Hw.
    - by apply Hr.
    - apply elem_of_difference in He as [He _]. by apply Hw. }
  assert (∀ d s w1, live d w1 → P w1 → P (FD_SET d s w1)) as P_set.
  { intros d s w1 Hl [Hr Hw]. destruct s; split; intros e He; simpl in He.
    - apply elem_of_union in He as [He| ->%elem_of_singleton];
        [by apply Hr|by right].
    - by apply Hw.
    - by apply Hr.
    - apply elem_of_union in He as [He| ->%elem_of_singleton];
        [by apply Hw|done]. }
  assert (∀ cl c w1, deref cl w1 = Some c → fd c ≠ -1 → P w1 →
            P (with_heap (delete cl)
                 (FD_CLR (fd c) wfds_ptr
                    (FD_CLR (fd c) rfds_ptr (sys_close (fd c) w1))))) as P_free.
  { intros cl c w1 Hc Hfd [Hr Hw]. split; intros e He; simpl in He.
    - apply elem_of_difference in He as [He Hne].
      rewrite elem_of_singleton in Hne.
      destruct (Hr e He) as [?|Hl]; [by left|right].
      by apply (live_delete e cl c w1
                  (λ w, FD_CLR (fd c) wfds_ptr
                          (FD_CLR (fd c) rfds_ptr (sys_close (fd c) w)))).
    - apply elem_of_difference in He as [He Hne].
      rewrite elem_of_singleton in Hne.
      by apply (live_delete e cl c w1
                  (λ w, FD_CLR (fd c) wfds_ptr
                          (FD_CLR (fd c) rfds_ptr (sys_close (fd c) w)))),
               Hw. }
  destruct Hrun as [Hrun|Hrun].
  - by eapply (process_readers_keeps P).
  - by eapply (process_writers_keeps P).
Qed.

Lemma live_accept d w wa :
  client_accept w = Some wa → live d w → live d wa.
Proof.
  intros Hacc (q & cq & Hq & Hfd).
  apply client_accept_inv in Hacc
    as [(Hh & _)|(e & rest & _ & _ & Hh & _)];
    exists q, cq; (split; [|done]); unfold deref in *; rewrite Hh; [done|].
  rewrite lookup_insert_ne; [done|]. intros <-.
  pose proof (calloc_fresh w) as Hfr. unfold deref in Hfr. congruence.
Qed.

(** X2.  Every turn of the main loop keeps the interest sets to open
    descriptors: a member of [rfds] is the listening descriptor or the
    descriptor of an allocated record, a member of [wfds] is the descriptor
    of an allocated record. *)
Theorem interest_sets_name_open_descriptors
    fuel listen_fd ready_r ready_w now w w' :
  interest_is_live listen_fd w →
  main_turn fuel listen_fd ready_r ready_w now w = Some w' →
  interest_is_live listen_fd w'.
Proof.
  intros [Hr Hw] Hturn. unfold main_turn in Hturn.
  apply after_select_inv in Hturn as (wa & wr & Ha & Hrd & Hwr).
  assert (interest_is_live listen_fd (sys_select ready_r ready_w now w))
    as H0.
  { split; intros d Hd; simpl in Hd; apply elem_of_intersection in Hd as [Hd _].
    - destruct (Hr d Hd) as [?|(q & cq & ? & ?)]; [by left|right].
      by exists q, cq.
    - destruct (Hw d Hd) as (q & cq & ? & ?). by exists q, cq. }
  assert (interest_is_live listen_fd wa) as Ha1.
  { apply accept_step_inv in Ha as [->|Hacc]; [done|].
    destruct H0 as [Hr0 Hw0].
    pose proof (live_accept) as Hlive.
    pose proof Hacc as Hinv. apply client_accept_inv in Hinv
      as [(Hh & Hrf & Hwf & _)|(e & rest & _ & _ & Hh & Hrf & Hwf & _)].
    - split; intros d Hd.
      + rewrite Hrf in Hd. destruct (Hr0 d Hd); [by left|right]. by eapply Hlive.
      + rewrite Hwf in Hd. by eapply Hlive, Hw0.
    - split; intros d Hd.
      + rewrite Hrf in Hd.
        apply elem_of_union in Hd as [Hd| ->%elem_of_singleton].
        * destruct (Hr0 d Hd); [by left|right]. by eapply Hlive.
        * right. exists (calloc (sys_select ready_r ready_w now w)).
          eexists. unfold deref. rewrite Hh, lookup_insert_eq. done.
      + rewrite Hwf in Hd. by eapply Hlive, Hw0. }
  assert (interest_is_live listen_fd
            (with_youngest INT_MAX (FD_SET listen_fd rfds_ptr wa))) as H1.
  { destruct Ha1 as [Hr1 Hw1]. split; intros d Hd; simpl in Hd.
    - apply elem_of_union in Hd as [Hd| ->%elem_of_singleton]; [|by left].
      destruct (Hr1 d Hd) as [?|(q & cq & ? & ?)]; [by left|right].
      by exists q, cq.
    - destruct (Hw1 d Hd) as (q & cq & ? & ?). by exists q, cq. }
  eapply interest_is_live_traversals; [right; exact Hwr|].
  eapply interest_is_live_traversals; [left; exact Hrd|]. exact H1.
Qed.
(** ** The listening socket *)

Lemma listening_traversals listen_fd before fuel w w' :
  (process_readers fuel w = Some w' ∨ process_writers fuel w = Some w') →
  listening listen_fd before w → listening listen_fd before w'.
Proof.
  intros Hrun HP.
  set (P := listening listen_fd before).
  assert (∀ d w1, live d w1 → P w1 → d ≠ listen_fd) as Hne.
  { intros d w1 (q & cq & Hq & <-) (_ & Hap & _). by eapply Hap. }
  assert (∀ p f w1 w2, (∀ c, fd (f c) = fd c) → upd p f w1 = Some w2 →
            P w1 → P w2) as P_upd.
  { intros p f w1 w2 Hf Hu (Hin & Hap & Hcl).
    pose proof Hu as (c & Hp & Hw2)%upd_inv.
    split; [by subst w2|]. split; [|by subst w2].
    intros q c' Hq. pose proof (upd_fd _ _ _ _ q Hu Hf) as Hfd.
    rewrite Hq in Hfd. destruct (deref q w1) as [c0|] eqn:Hq0; [|done].
    simpl in Hfd. injection Hfd as ->. by eapply Hap. }
  assert (∀ d s w1, live d w1 → P w1 → P (FD_CLR d s w1)) as P_clr.
  { intros d s w1 Hl HP1. pose proof (Hne _ _ Hl HP1) as Hd.
    destruct HP1 as (Hin & Hap & Hcl).
    destruct s; (split; [|by split]); simpl; [|done].
    apply elem_of_difference. split; [done|].
    rewrite elem_of_singleton. congruence. }
  assert (∀ d s w1, live d w1 → P w1 → P (FD_SET d s w1)) as P_set.
  { intros d s w1 Hl (Hin & Hap & Hcl).
    destruct s; (split; [|by split]); simpl; [|done].
    apply elem_of_union. by left. }
  assert (∀ cl c w1, deref cl w1 = Some c → fd c ≠ -1 → P w1 →
            P (with_heap (delete cl)
                 (FD_CLR (fd c) wfds_ptr
                    (FD_CLR (fd c) rfds_ptr (sys_close (fd c) w1))))) as P_free.
  { intros cl c w1 Hc Hfd (Hin & Hap & ds & Hcl & Hds).
    pose proof (Hap _ _ Hc) as Hd.
    split; [|split].
    - simpl. apply elem_of_difference. split; [done|].
      rewrite elem_of_singleton. congruence.
    - intros q c' Hq. unfold deref in Hq. simpl in Hq.
      apply lookup_delete_Some in Hq as [_ Hq]. by eapply Hap.
    - exists (fd c :: ds). unfold closed_since in *. simpl. rewrite Hcl.
      split; [done|]. rewrite not_elem_of_cons. split; [congruence|done]. }
  destruct Hrun as [Hrun|Hrun].
  - by eapply (process_readers_keeps P).
  - by eapply (process_writers_keeps P).
Qed.

(** X3.  When no record holds the listening descriptor and the pending
    connection, if any, comes on another descriptor, a turn of the main
    loop ends with the listening descriptor in [rfds], with no record
    holding it, and without having closed it. *)
Theorem listening_socket_stays_armed fuel listen_fd ready_r ready_w now w w' :
  listener_apart listen_fd w →
  head (backlog (sys w)) ≠ Some listen_fd →
  main_turn fuel listen_fd ready_r ready_w now w = Some w' →
  listen_fd ∈ rfds w' ∧ listener_apart listen_fd w' ∧
  ∃ ds, closed (sys w') = ds ++ closed (sys w) ∧ listen_fd ∉ ds.
Proof.
  intros Hap Hb Hturn. unfold main_turn in Hturn.
  apply after_select_inv in Hturn as (wa & wr & Ha & Hrd & Hwr).
  set (w0 := sys_select ready_r ready_w now w) in *.
  assert (listener_apart listen_fd wa ∧ closed (sys wa) = closed (sys w))
    as [Hapa Hcla].
  { apply accept_step_inv in Ha as [->|Hacc]; [done|].
    apply client_accept_inv in Hacc
      as [(Hh & _ & _ & _ & Hc & _)|(d & rest & Hbk & _ & Hh & _ & _ & _ & Hc & _)].
    - split; [|done]. intros q c. unfold deref. rewrite Hh. apply Hap.
    - split; [|done]. intros q c. unfold deref. rewrite Hh.
      intros [[_ <-]|[_ Hq]]%lookup_insert_Some; simpl; [|by eapply Hap].
      intros ->. apply Hb. change (backlog (sys w0)) with (backlog (sys w)) in Hbk.
      by rewrite Hbk. }
  assert (listening listen_fd (closed (sys w))
            (with_youngest INT_MAX (FD_SET listen_fd rfds_ptr wa))) as H1.
  { split; [|split].
    - simpl. apply elem_of_union_r. by apply elem_of_singleton.
    - exact Hapa.
    - exists []. split; [exact Hcla|]. apply not_elem_of_nil. }
  apply (listening_traversals _ _ _ _ _ (or_introl Hrd)) in H1.
  apply (listening_traversals _ _ _ _ _ (or_intror Hwr)) in H1.
  exact H1.
Qed.
(** ** Reading and writing *)

Lemma process_readers_outbound fuel w w' :
  process_readers fuel w = Some w' →
  sent (sys w') = sent (sys w) ∧ capacity (sys w') = capacity (sys w).
Proof.
  intros Hrun.
  set (P := λ w0, sent (sys w0) = sent (sys w) ∧
                  capacity (sys w0) = capacity (sys w)).
  assert (∀ p f w1 w2, (∀ c, fd (f c) = fd c) → upd p f w1 = Some w2 →
            P w1 → P w2) as P_upd.
  { intros p f w1 w2 _ (c & _ & ->)%upd_inv HP. exact HP. }
  eapply (process_loop_keeps P); try exact Hrun; try done.
  - intros d s w1 _ HP. by destruct s.
  - intros cl prev w1 r w2 Hrd HP.
    eapply (client_read_keeps P); try exact Hrd; try done.
    all: intros d s w0 _ HP0; by destruct s.
Qed.

Lemma process_writers_inbound fuel w w' :
  process_writers fuel w = Some w' → inbound (sys w') = inbound (sys w).
Proof.
  intros Hrun.
  set (P := λ w0, inbound (sys w0) = inbound (sys w)).
  assert (∀ p f w1 w2, (∀ c, fd (f c) = fd c) → upd p f w1 = Some w2 →
            P w1 → P w2) as P_upd.
  { intros p f w1 w2 _ (c & _ & ->)%upd_inv HP. exact HP. }
  eapply (process_loop_keeps P); try exact Hrun; try done.
  - intros d s w1 _ HP. by destruct s.
  - intros cl prev w1 r w2 Hwr HP.
    eapply (client_write_keeps P); try exact Hwr; done.
Qed.

(** X4.  In the two traversals of a turn, whatever the lists hold: the
    reader traversal transmits nothing and uses up none of the transport's
    capacity, the writer traversal consumes no input, and neither accepts
    a connection. *)
Theorem traversals_keep_to_their_direction fuel w wr w' :
  process_readers fuel w = Some wr →
  process_writers fuel wr = Some w' →
  sent (sys wr) = sent (sys w) ∧ capacity (sys wr) = capacity (sys w) ∧
  inbound (sys w') = inbound (sys wr) ∧
  backlog (sys w') = backlog (sys w).
Proof.
  intros Hr Hw.
  destruct (process_readers_outbound _ _ _ Hr) as [Hs Hc].
  split; [done|]. split; [done|].
  split; [by eapply process_writers_inbound|].
  destruct (process_generic_backlog _ _ _ _ _ _ client_read_untouched Hr)
    as [Hb1 _].
  destruct (process_generic_backlog _ _ _ _ _ _ client_write_untouched Hw)
    as [Hb2 _].
  congruence.
Qed.
(** ** The writer traversal *)

Lemma upd_body p f w w' q :
  upd p f w = Some w' → (∀ c, body (f c) = body c) →
  body <$> deref q w' = body <$> deref q w.
Proof.
  intros (c & Hc & ->)%upd_inv Hf.
  destruct (decide (q = p)) as [->|Hne].
  - rewrite deref_with_heap_insert, Hc. simpl. by rewrite Hf.
  - by rewrite deref_with_heap_insert_ne.
Qed.

Lemma store_body l v w w' q :
  store l v w = Some w' → body <$> deref q w' = body <$> deref q w.
Proof.
  destruct l; simpl; try (by intros [= <-]).
  intros Hu. by apply (upd_body _ _ _ _ _ Hu).
Qed.

(** [client_free] changes no field of another record but a link. *)
Lemma client_free_body cl prev w w' q :
  client_free cl prev w = Some w' → q ≠ cl →
  body <$> deref q w' = body <$> deref q w.
Proof.
  unfold client_free. intros H Hq.
  apply bind_Some in H as (p & Hp & H).
  apply bind_Some in H as (_ & _ & H).
  apply bind_Some in H as (c & Hc & H).
  apply bind_Some in H as (_ & _ & H).
  apply bind_Some in H as (w1 & H1 & H).
  apply bind_Some in H as (w2 & H2 & H).
  apply bind_Some in H as (c2 & Hc2 & [= <-]).
  unfold deref at 1. simpl. rewrite lookup_delete_ne by done.
  change (heap w2 !! q) with (deref q w2).
  rewrite (upd_body _ _ _ _ q H2) by done.
  by rewrite (store_body _ _ _ _ q H1).
Qed.

Lemma in_range_body c c' w w' :
  body c' = body c → hdr w' = hdr w → msg w' = msg w →
  in_range c w → in_range c' w'.
Proof.
  unfold body, in_range, current_buffer. intros [= Hfd Hst Hl Ho] Hh Hm.
  by rewrite Hst, Ho, Hh, Hm.
Qed.

Lemma advance_in_range n buflen now c w w1 buf :
  current_buffer c w = Some buf → buflen = Z.of_nat (length buf) →
  0 ≤ write_ofs c → 0 ≤ n ≤ buflen - write_ofs c →
  hdr w1 = hdr w → msg w1 = msg w →
  in_range (advance n buflen now c) w1.
Proof.
  intros Hbuf -> Ho Hn Hh Hm. unfold advance.
  apply current_buffer_Some in Hbuf as [[Hs ->]|[Hs ->]];
    case_decide; unfold in_range, current_buffer; simpl; rewrite Hs; simpl;
    rewrite ?Hh, ?Hm; lia.
Qed.

(** [client_write] on a record it can serve never aborts; it touches no
    other record, no link and no interest set; when it returns 0 the
    record is as it was, and when it returns 1 the record can be served
    again and its last activity is now. *)
Lemma client_write_total cl prev w c :
  deref cl w = Some c → fd c ≠ -1 → in_range c w → buffers_fit w →
  ∃ r w', client_write cl prev w = Some (r, w') ∧
    (∀ q, q ≠ cl → deref q w' = deref q w) ∧
    reader_head w' = reader_head w ∧ writer_head w' = writer_head w ∧
    rfds w' = rfds w ∧ wfds w' = wfds w ∧
    ((r = 0 ∧ deref cl w' = Some c) ∨
     (r = 1 ∧ ∃ c', deref cl w' = Some c' ∧ fd c' = fd c ∧ next c' = next c ∧
                    last c' = sys_time w ∧ in_range c' w')).
Proof.
  intros Hc Hfd Hin [Hh Hm].
  destruct (current_buffer c w) as [buf|] eqn:Hbuf.
  2: { destruct (current_buffer_None cl prev c w Hc Hbuf) as (_ & _ & ->).
       eexists 0, _. split; [done|]. repeat split; try done. by left. }
  assert (Hofs : 0 ≤ write_ofs c ≤ Z.of_nat (length buf)).
  { unfold in_range in Hin. by rewrite Hbuf in Hin. }
  assert (Hlen : Z.of_nat (length buf) < UINT_MODULUS).
  { by apply current_buffer_Some in Hbuf as [[_ ->]|[_ ->]]. }
  destruct (capacity (sys w) !! fd c) as [[|cap q]|] eqn:Hcap.
  3: { eexists 0, (log_info (log_closing_errno (fd c)) w).
       split; [|repeat split; try done; by left].
       unfold client_write. rewrite Hc. cbn [mbind option_bind].
       assert (Hsel : match state c with 0 => Some (hdr w) | 1 => Some (msg w)
                      | _ => None end = Some buf) by exact Hbuf.
       rewrite Hsel. rewrite !bool_decide_eq_true_2 by done.
       cbn [assert mbind option_bind].
       unfold sys_write. rewrite Hcap. by rewrite decide_True by lia. }
  1: { eexists 0, (log_info (log_closing_errno (fd c)) w).
       split; [|repeat split; try done; by left].
       unfold client_write. rewrite Hc. cbn [mbind option_bind].
       assert (Hsel : match state c with 0 => Some (hdr w) | 1 => Some (msg w)
                      | _ => None end = Some buf) by exact Hbuf.
       rewrite Hsel. rewrite !bool_decide_eq_true_2 by done.
       cbn [assert mbind option_bind].
       unfold sys_write. rewrite Hcap. by rewrite decide_True by lia. }
  destruct (decide (cap < 0)) as [Hneg|Hpos].
  { eexists 0, (log_info (log_closing_errno (fd c))
                  (with_sys (with_capacity <[fd c := q]>) w)).
    split; [|repeat split; try done; by left].
    unfold client_write. rewrite Hc. cbn [mbind option_bind].
    assert (Hsel : match state c with 0 => Some (hdr w) | 1 => Some (msg w)
                   | _ => None end = Some buf) by exact Hbuf.
    rewrite Hsel. rewrite !bool_decide_eq_true_2 by done.
    cbn [assert mbind option_bind].
    unfold sys_write. rewrite Hcap. rewrite decide_True by lia.
    by rewrite decide_True by lia. }
  rewrite (client_write_step cl prev w c buf cap q) by (done || lia).
  eexists 1, _. split; [done|].
  split. { intros q' Hq'. by rewrite deref_with_heap_insert_ne. }
  repeat (split; [done|]). right. split; [done|].
  eexists. split; [apply deref_with_heap_insert|].
  split; [unfold advance; by case_decide|].
  split; [unfold advance; by case_decide|].
  split; [unfold advance; by case_decide|].
  eapply advance_in_range; try done; lia.
Qed.
Lemma same_heap_links w w' :
  (∀ q, deref q w' = deref q w) →
  reader_head w' = reader_head w → writer_head w' = writer_head w →
  same_links w w'.
Proof.
  intros Hd Hr Hw. split; [done|]. split; [done|].
  intros p. unfold next_of. by rewrite Hd.
Qed.

(** Releasing the record the writer traversal stands at. *)
Lemma writer_dropped w0 w rs pre curr rest c l :
  well_formed w rs (pre ++ curr :: rest) →
  deref curr w = Some c → fd c ≠ -1 →
  (∀ q, deref q w0 = deref q w) →
  reader_head w0 = reader_head w → writer_head w0 = writer_head w →
  ∃ w1, client_free curr (cursor_loc writers pre) (log_info l w0) = Some w1 ∧
    hdr w1 = hdr w0 ∧ msg w1 = msg w0 ∧ sys_time w1 = sys_time w0 ∧
    reader_head w1 = reader_head w ∧
    (∀ a, a ≠ curr → body <$> deref a w1 = body <$> deref a w) ∧
    (∀ a, a ≠ curr → next_loc a ≠ cursor_loc writers pre →
          deref a w1 = deref a w) ∧
    well_formed w1 rs (pre ++ rest) ∧ deref curr w1 = None ∧
    wfds w1 = wfds w0 ∖ {[fd c]} ∧ rfds w1 = rfds w0 ∖ {[fd c]}.
Proof.
  intros Hwf Hc Hfd Hd Hrh Hwh.
  set (prev := cursor_loc writers pre).
  assert (Hcur : at_cursor prev writers pre (curr :: rest) rs
                   (pre ++ curr :: rest)) by (by split).
  assert (Hsl : same_links w (log_info l w0)) by (by apply same_heap_links).
  pose proof (well_formed_same_links _ _ _ _ Hsl Hwf) as Hwf0.
  pose proof (at_cursor_load _ _ _ _ _ _ _ Hwf0 Hcur) as Hp. simpl in Hp.
  assert (Hc0 : deref curr (log_info l w0) = Some c).
  { change (deref curr (log_info l w0)) with (deref curr w0). by rewrite Hd. }
  destruct (client_free_frees _ _ _ _ Hp Hc0 Hfd) as (w1 & Hfree & Hfr).
  exists w1. split; [done|].
  destruct (well_formed_free _ _ _ _ _ _ _ _ _ _ Hwf0 Hcur Hc0 Hfr)
    as [Hwf1 _]. simpl in Hwf1.
  split; [by rewrite (fr_hdr _ _ _ _ _ Hfr)|].
  split; [by rewrite (fr_msg _ _ _ _ _ Hfr)|].
  split; [unfold sys_time; by rewrite (fr_sys _ _ _ _ _ Hfr)|].
  split.
  { rewrite (fr_reader_head _ _ _ _ _ Hfr); [done|].
    unfold prev, cursor_loc. by destruct (list.last pre). }
  split.
  { intros a Ha. rewrite (client_free_body _ _ _ _ a Hfree Ha).
    change (deref a (log_info l w0)) with (deref a w0). by rewrite Hd. }
  split.
  { intros a Ha Hn. rewrite (fr_others _ _ _ _ _ Hfr a Ha Hn).
    change (deref a (log_info l w0)) with (deref a w0). by rewrite Hd. }
  split; [done|]. split; [by apply (fr_gone _ _ _ _ _ Hfr)|].
  split; [by rewrite (fr_wfds _ _ _ _ _ Hfr)|by rewrite (fr_rfds _ _ _ _ _ Hfr)].
Qed.

(** One turn of the writer traversal at a record that can be served: the
    turn does not abort; either the record is released and the traversal
    stays where it is, or the record stays, servable and active after
    [timeout], with write interest, and the traversal moves on past it. *)
Lemma writer_step timeout w rs pre curr rest c :
  well_formed w rs (pre ++ curr :: rest) →
  deref curr w = Some c → fd c ≠ -1 → in_range c w → buffers_fit w →
  timeout < sys_time w →
  ∃ k w1,
    process_step wfds_ptr client_write timeout (cursor_loc writers pre) w
      = Some (Some k, w1) ∧
    hdr w1 = hdr w ∧ msg w1 = msg w ∧ sys_time w1 = sys_time w ∧
    reader_head w1 = reader_head w ∧
    (∀ a, a ≠ curr → body <$> deref a w1 = body <$> deref a w) ∧
    (∀ a, a ≠ curr → next_loc a ≠ cursor_loc writers pre →
          deref a w1 = deref a w) ∧
    ((k = cursor_loc writers pre ∧ well_formed w1 rs (pre ++ rest) ∧
      deref curr w1 = None ∧ wfds w1 = wfds w ∖ {[fd c]}) ∨
     (k = next_loc curr ∧ well_formed w1 rs (pre ++ curr :: rest) ∧
      wfds w1 = wfds w ∪ {[fd c]} ∧
      ∃ c', deref curr w1 = Some c' ∧ fd c' = fd c ∧ in_range c' w1 ∧
            timeout < last c')).
Proof.
  intros Hwf Hc Hfd Hin Hfit Hnow.
  set (prev := cursor_loc writers pre).
  assert (Hcur : at_cursor prev writers pre (curr :: rest) rs
                   (pre ++ curr :: rest)) by (by split).
  pose proof (at_cursor_load _ _ _ _ _ _ _ Hwf Hcur) as Hp. simpl in Hp.
  rewrite (process_step_unfold _ _ _ _ _ _ _ Hp Hc). cbv zeta.
  set (wy := note_youngest c w).
  assert (Hdy : ∀ q, deref q wy = deref q w)
    by (intros q; apply deref_note_youngest).
  destruct (note_youngest_frame c w) as (Hyh & Hyr & Hyw & Hys).
  fold wy in Hyh, Hyr, Hyw, Hys.
  assert (Hyhdr : hdr wy = hdr w ∧ msg wy = msg w ∧ wfds wy = wfds w).
  { unfold wy, note_youngest. by case_decide. }
  destruct Hyhdr as (Hyhdr & Hymsg & Hywfds).
  destruct (decide (last c ≤ timeout)) as [Hidle|Hidle].
  { destruct (writer_dropped wy w rs pre curr rest c
                (log_closing_timeout (fd c)) Hwf Hc Hfd Hdy Hyr Hyw)
      as (w1 & Hfree & Hh & Hm & Ht & Hr & Hb & Hd & Hwf1 & Hgone & Hwfds & _).
    fold prev in Hfree. rewrite Hfree. cbn [mbind option_bind].
    exists prev, w1. split; [done|].
    split; [congruence|]. split; [congruence|].
    split; [unfold sys_time in *; rewrite Ht, Hys; done|].
    split; [done|]. split; [done|]. split; [done|].
    left. split; [done|]. split; [done|]. split; [done|]. congruence. }
  destruct (FD_ISSET (fd c) wfds_ptr wy) eqn:Hset.
  2: { exists (next_loc curr), (FD_SET (fd c) wfds_ptr wy).
       split; [done|]. split; [done|]. split; [done|].
       split; [unfold sys_time; simpl; by rewrite Hys|].
       split; [done|].
       split; [intros a _; simpl; by rewrite <- (Hdy a)|].
       split; [intros a _ _; exact (Hdy a)|].
       right. split; [done|]. split.
       { eapply well_formed_same_links; [|exact Hwf].
         by apply same_heap_links. }
       split; [simpl; by rewrite Hywfds|].
       exists c. split; [by rewrite <- Hc, <- (Hdy curr)|]. split; [done|].
       split; [|lia]. eapply in_range_body; [done| | |exact Hin]; done. }
  assert (Hcy : deref curr wy = Some c) by (by rewrite Hdy).
  assert (Hiny : in_range c wy)
    by (eapply in_range_body; [done| | |exact Hin]; done).
  assert (Hfity : buffers_fit wy)
    by (unfold buffers_fit; by rewrite Hyhdr, Hymsg).
  destruct (client_write_total curr prev wy c Hcy Hfd Hiny Hfity)
    as (r & wh & Hwr & Hoth & Hrh & Hwh & Hrf & Hwf' & Hres).
  assert (Huntouched : untouched wy wh) by (by eapply client_write_untouched).
  destruct Huntouched as (_ & Hclk & _ & _ & Hhh & Hhm).
  rewrite Hwr. cbn [mbind option_bind].
  destruct Hres as [[-> Hch]|[-> (c' & Hch & Hfd' & Hnx & Hlast & Hin')]].
  - rewrite decide_True by done. rewrite Hch. cbn [mbind option_bind].
    assert (Hdh : ∀ q, deref q wh = deref q w).
    { intros q. destruct (decide (q = curr)) as [->|Hq]; [congruence|].
      rewrite Hoth by done. by rewrite Hdy. }
    destruct (writer_dropped wh w rs pre curr rest c
                (log_closing_disconnect (fd c)) Hwf Hc Hfd Hdh)
      as (w1 & Hfree & Hh & Hm & Ht & Hr & Hb & Hd & Hwf1 & Hgone & Hwfds & _);
      [congruence|congruence|].
    fold prev in Hfree. rewrite Hfree. cbn [mbind option_bind].
    exists prev, w1. split; [done|].
    split; [congruence|]. split; [congruence|].
    split; [unfold sys_time in *; rewrite Ht, Hclk, Hys; done|].
    split; [done|]. split; [done|]. split; [done|].
    left. split; [done|]. split; [done|]. split; [done|]. congruence.
  - rewrite decide_False by done. rewrite Hch. cbn [mbind option_bind].
    exists (next_loc curr), (FD_SET (fd c') wfds_ptr wh).
    split; [done|]. split; [simpl; congruence|]. split; [simpl; congruence|].
    split; [unfold sys_time in *; simpl; rewrite Hclk, Hys; done|].
    split; [simpl; congruence|].
    split; [intros a Ha;
            change (deref a (FD_SET (fd c') wfds_ptr wh)) with (deref a wh);
            rewrite Hoth by done; by rewrite Hdy|].
    split; [intros a Ha _;
            change (deref a (FD_SET (fd c') wfds_ptr wh)) with (deref a wh);
            rewrite Hoth by done; by rewrite Hdy|].
    right. split; [done|]. split.
    { eapply well_formed_same_links; [|exact Hwf].
      split; [simpl; congruence|]. split; [simpl; congruence|].
      intros p. unfold next_of.
      change (deref p (FD_SET (fd c') wfds_ptr wh)) with (deref p wh).
      destruct (decide (p = curr)) as [->|Hpc].
      - rewrite Hch, Hc. simpl. by rewrite Hnx.
      - rewrite Hoth by done. by rewrite Hdy. }
    split; [simpl; congruence|].
    exists c'. split; [done|]. split; [done|].
    split; [|unfold sys_time in *; rewrite Hlast, Hys; lia].
    eapply in_range_body; [reflexivity| | |exact Hin']; done.
Qed.
Lemma writable_body w w1 a :
  body <$> deref a w1 = body <$> deref a w →
  hdr w1 = hdr w → msg w1 = msg w →
  writable w a → writable w1 a.
Proof.
  intros Hb Hh Hm (c & Hc & Hfd & Hin). rewrite Hc in Hb.
  destruct (deref a w1) as [c1|] eqn:Hc1; simpl in Hb; [|done].
  assert (Hbb : body c1 = body c) by congruence.
  exists c1. split; [done|]. split.
  - unfold body in Hbb. assert (fd c1 = fd c) by congruence. congruence.
  - by eapply in_range_body.
Qed.

(** The writer traversal from a cursor with the records [pre] behind it
    and the servable records [rest] before it: it ends within
    [length rest + 1] turns, and keeps of [rest] the records [kept]. *)
Lemma writers_sweep timeout : ∀ rest pre w rs,
  well_formed w rs (pre ++ rest) → buffers_fit w → timeout < sys_time w →
  Forall (writable w) rest →
  ∃ w' kept,
    process_loop (S (length rest)) wfds_ptr client_write timeout
      (cursor_loc writers pre) w = Some w' ∧
    well_formed w' rs (pre ++ kept) ∧ kept `sublist_of` rest ∧
    Forall (λ a, ∃ c, deref a w' = Some c ∧ fd c ≠ -1 ∧ in_range c w' ∧
                      timeout < last c) kept ∧
    (∀ a, a ∈ rest → a ∉ kept → deref a w' = None) ∧
    (∀ a, a ∉ rest → body <$> deref a w' = body <$> deref a w) ∧
    (∀ a, a ∉ pre → a ∉ rest → deref a w' = deref a w) ∧
    hdr w' = hdr w ∧ msg w' = msg w ∧ sys_time w' = sys_time w ∧
    reader_head w' = reader_head w ∧
    (∀ a c', deref a w' = Some c' →
             ∃ c, deref a w = Some c ∧ fd c' = fd c) ∧
    (∀ d, d ∈ wfds w →
          d ∈ wfds w' ∨
          (∃ b cb, b ∈ rest ∧ (b ∉ kept) ∧ deref b w = Some cb ∧ fd cb = d)) ∧
    (∀ a c', a ∈ kept → deref a w' = Some c' →
             fd c' ∈ wfds w' ∨
             (∃ b cb, b ∈ rest ∧ (b ∉ kept) ∧ deref b w = Some cb ∧
                      fd cb = fd c')).
Proof.
  induction rest as [|curr rest IH]; intros pre w rs Hwf Hfit Hnow Hok.
  { assert (Hcur : at_cursor (cursor_loc writers pre) writers pre [] rs
                     (pre ++ [])) by (by split).
    pose proof (at_cursor_load _ _ _ _ _ _ _ Hwf Hcur) as Hp. simpl in Hp.
    exists w, []. split.
    { simpl. unfold process_step. by rewrite Hp. }
    split; [done|]. split; [done|]. split; [apply Forall_nil_2|].
    split; [by intros a Ha%elem_of_nil|].
    do 6 (split; [done|]).
    split; [intros a c' Ha; by exists c'|].
    split; [intros d Hd; by left|]. by intros a c' Ha%elem_of_nil. }
  apply Forall_cons in Hok as [(c & Hc & Hfd & Hin) Hok].
  pose proof Hwf as (_ & _ & Hnd).
  apply NoDup_app in Hnd as (_ & _ & Hnd).
  apply NoDup_app in Hnd as (_ & Hpre & Hnd).
  apply NoDup_cons in Hnd as [Hcr _].
  assert (Hcp : curr ∉ pre).
  { intros Hi. apply (Hpre _ Hi). by left. }
  destruct (writer_step timeout w rs pre curr rest c Hwf Hc Hfd Hin Hfit Hnow)
    as (k & w1 & Hstep & Hh & Hm & Ht & Hr & Hb & Hd & Hcases).
  assert (Hfit1 : buffers_fit w1) by (unfold buffers_fit; by rewrite Hh, Hm).
  assert (Hnow1 : timeout < sys_time w1) by (by rewrite Ht).
  assert (Hok1 : Forall (writable w1) rest).
  { apply Forall_forall. intros a Ha.
    rewrite Forall_forall in Hok.
    apply (writable_body w w1); [|done|done|by apply Hok].
    apply Hb. intros ->. done. }
  assert (Hfar : ∀ a, a ∉ pre → next_loc a ≠ cursor_loc writers pre).
  { intros a Ha He. symmetry in He. by apply cursor_loc_next in He. }
  assert (Hfd1 : ∀ a c1, deref a w1 = Some c1 →
                   ∃ c0, deref a w = Some c0 ∧ fd c1 = fd c0).
  { intros a c1 Ha. destruct (decide (a = curr)) as [->|Hac].
    - exists c. split; [done|].
      destruct Hcases as [(_ & _ & Hgone & _)|(_ & _ & _ & c' & Hc' & Hfd' & _)];
        congruence.
    - specialize (Hb a Hac). rewrite Ha in Hb.
      destruct (deref a w) as [c0|]; simpl in Hb; [|done].
      exists c0. split; [done|]. unfold body in Hb. congruence. }
  assert (Hback : ∀ (kept : list ptr) d,
            (∃ b cb, b ∈ rest ∧ (b ∉ kept) ∧ deref b w1 = Some cb ∧ fd cb = d) →
            ∃ b cb, b ∈ curr :: rest ∧ (b ∉ kept) ∧ b ≠ curr ∧
                    deref b w = Some cb ∧ fd cb = d).
  { intros kept d (b & cb & Hbr & Hbk & Hbd & Hbf).
    destruct (Hfd1 _ _ Hbd) as (c0 & Hc0 & Hf0).
    exists b, c0. split; [by right|]. split; [done|].
    split; [by intros ->|]. split; [done|congruence]. }
  destruct Hcases as [(-> & Hwf1 & Hgone & Hwfds1)|(-> & Hwf1 & Hwfds1 & c' & Hc' & Hfd' & Hin' & Hl')].
  - destruct (IH pre w1 rs Hwf1 Hfit1 Hnow1 Hok1)
      as (w' & kept & Hloop & Hwf' & Hsub & Hkept & Hdropped & Hbody & Hfull
          & Hh' & Hm' & Ht' & Hr' & Hfds' & Hw0' & Hw').
    exists w', kept. split.
    { change (process_loop (S (length (curr :: rest))) wfds_ptr client_write
                timeout (cursor_loc writers pre) w)
        with ('(k, w) ← process_step wfds_ptr client_write timeout
                          (cursor_loc writers pre) w;
              match k with
              | None => Some w
              | Some prev =>
                  process_loop (S (length rest)) wfds_ptr client_write
                    timeout prev w
              end).
      rewrite Hstep. exact Hloop. }
    split; [done|]. split; [by apply sublist_cons|]. split; [done|].
    split.
    { intros a [->|Ha]%elem_of_cons Hk; [|by apply Hdropped].
      specialize (Hbody _ Hcr). rewrite Hgone in Hbody.
      by destruct (deref curr w'). }
    split.
    { intros a [Hac Har]%not_elem_of_cons. rewrite Hbody by done.
      by apply Hb. }
    split.
    { intros a Hap [Hac Har]%not_elem_of_cons. rewrite Hfull by done.
      apply Hd; [done|by apply Hfar]. }
    do 4 (split; [congruence|]).
    assert (Hck : curr ∉ kept).
    { intros Hi. apply Hcr. by eapply (elem_of_sublist _ _ _ Hi Hsub). }
    split.
    { intros a c' Ha. destruct (Hfds' _ _ Ha) as (c1 & Hc1 & ->).
      by apply Hfd1. }
    split.
    { intros d Hdw. destruct (decide (d = fd c)) as [->|Hne].
      - right. exists curr, c. split; [by left|]. by split.
      - destruct (Hw0' d) as [?|Hex]; [|by left|].
        { rewrite Hwfds1. apply elem_of_difference. split; [done|].
          by rewrite elem_of_singleton. }
        right. destruct (Hback kept d Hex) as (b & cb & ? & ? & _ & ? & ?).
        by exists b, cb. }
    { intros a c' Ha Hca. destruct (Hw' a c' Ha Hca) as [?|Hex]; [by left|].
      right. destruct (Hback kept _ Hex) as (b & cb & ? & ? & _ & ? & ?).
      by exists b, cb. }
  - assert (Hwf1' : well_formed w1 rs ((pre ++ [curr]) ++ rest))
      by (by rewrite <- app_assoc).
    destruct (IH (pre ++ [curr]) w1 rs Hwf1' Hfit1 Hnow1 Hok1)
      as (w' & kept & Hloop & Hwf' & Hsub & Hkept & Hdropped & Hbody & Hfull
          & Hh' & Hm' & Ht' & Hr' & Hfds' & Hw0' & Hw').
    rewrite cursor_loc_snoc in Hloop.
    exists w', (curr :: kept). split.
    { change (process_loop (S (length (curr :: rest))) wfds_ptr client_write
                timeout (cursor_loc writers pre) w)
        with ('(k, w) ← process_step wfds_ptr client_write timeout
                          (cursor_loc writers pre) w;
              match k with
              | None => Some w
              | Some prev =>
                  process_loop (S (length rest)) wfds_ptr client_write
                    timeout prev w
              end).
      rewrite Hstep. exact Hloop. }
    split; [by rewrite <- app_assoc in Hwf'|].
    split; [by apply sublist_skip|].
    split.
    { apply Forall_cons. split; [|done].
      specialize (Hbody _ Hcr). rewrite Hc' in Hbody.
      destruct (deref curr w') as [c''|] eqn:Hc''; simpl in Hbody; [|done].
      assert (Hbb : body c'' = body c') by congruence.
      exists c''. split; [done|].
      unfold body in Hbb.
      assert (fd c'' = fd c' ∧ last c'' = last c') as [Hbf Hbl]
        by (split; congruence).
      split; [congruence|]. split; [|congruence].
      by eapply in_range_body. }
    split.
    { intros a [->|Ha]%elem_of_cons [Hac Hk]%not_elem_of_cons; [done|].
      by apply Hdropped. }
    split.
    { intros a [Hac Har]%not_elem_of_cons. rewrite Hbody by done.
      by apply Hb. }
    split.
    { intros a Hap [Hac Har]%not_elem_of_cons. rewrite Hfull; [|..|done].
      - apply Hd; [done|by apply Hfar].
      - rewrite elem_of_app, list_elem_of_singleton. tauto. }
    do 4 (split; [congruence|]).
    assert (Hskip : ∀ d,
              (∃ b cb, b ∈ rest ∧ (b ∉ kept) ∧ deref b w1 = Some cb ∧ fd cb = d) →
              ∃ b cb, b ∈ curr :: rest ∧ (b ∉ curr :: kept) ∧
                      deref b w = Some cb ∧ fd cb = d).
    { intros d Hex. destruct (Hback kept d Hex) as (b & cb & ? & ? & ? & ? & ?).
      exists b, cb. split; [done|]. split; [|done].
      rewrite not_elem_of_cons. by split. }
    assert (Hfrom1 : ∀ d, d ∈ wfds w1 →
              d ∈ wfds w' ∨
              (∃ b cb, b ∈ curr :: rest ∧ (b ∉ curr :: kept) ∧
                       deref b w = Some cb ∧ fd cb = d)).
    { intros d Hd1. destruct (Hw0' d Hd1) as [?|Hex]; [by left|right].
      by apply Hskip. }
    split.
    { intros a c'' Ha. destruct (Hfds' _ _ Ha) as (c1 & Hc1 & ->).
      by apply Hfd1. }
    split.
    { intros d Hdw. apply Hfrom1. rewrite Hwfds1. apply elem_of_union. by left. }
    { intros a c'' [->|Ha]%elem_of_cons Hca.
      - destruct (Hfds' _ _ Hca) as (c1 & Hc1 & ->).
        assert (c1 = c') by congruence. subst c1. rewrite Hfd'.
        apply Hfrom1. rewrite Hwfds1. apply elem_of_union_r.
        by apply elem_of_singleton.
      - destruct (Hw' a c'' Ha Hca) as [?|Hex]; [by left|right].
        by apply Hskip. }
Qed.
Lemma process_loop_agree fds foreach timeout prev w fuel1 fuel2 w1 w2 :
  process_loop fuel1 fds foreach timeout prev w = Some w1 →
  process_loop fuel2 fds foreach timeout prev w = Some w2 → w1 = w2.
Proof.
  intros H1 H2.
  apply (process_loop_more _ _ _ _ (fuel1 `max` fuel2)) in H1; [|lia].
  apply (process_loop_more _ _ _ _ (fuel1 `max` fuel2)) in H2; [|lia].
  congruence.
Qed.

(** X5.  From well-formed lists whose writers can all be served (open
    descriptor, offset inside the current buffer, buffers shorter than
    2^32 bytes), the writer traversal never aborts: it returns within
    [length ws + 1] turns, whatever the transport does, with the lists
    well formed, the writer list a sublist of what it was, every writer
    left servable again, and the reader list and its records exactly as
    they were. *)
Theorem writer_traversal_completes w rs ws :
  well_formed w rs ws → buffers_fit w → Forall (writable w) ws →
  ∃ w' ws',
    (∀ fuel, (length ws < fuel)%nat → process_writers fuel w = Some w') ∧
    well_formed w' rs ws' ∧ ws' `sublist_of` ws ∧
    buffers_fit w' ∧ Forall (writable w') ws' ∧
    reader_head w' = reader_head w ∧
    (∀ a, a ∈ rs → deref a w' = deref a w).
Proof.
  intros Hwf Hfit Hok.
  destruct (writers_sweep (sys_time w - HTTP_TIMEOUT) ws [] w rs Hwf Hfit)
    as (w' & kept & Hloop & Hwf' & Hsub & Hkept & _ & _ & Hfull
        & Hh & Hm & _ & Hr & _); [unfold HTTP_TIMEOUT; lia|done|].
  exists w', kept. split.
  { intros fuel Hfuel. unfold process_writers, process_generic.
    eapply process_loop_more; [|exact Hloop]. lia. }
  split; [done|]. split; [done|].
  split; [unfold buffers_fit; by rewrite Hh, Hm|].
  split.
  { eapply Forall_impl; [exact Hkept|].
    intros a (c & Hc & Hfd & Hin & _). by exists c. }
  split; [done|].
  intros a Ha. apply Hfull; [apply not_elem_of_nil|].
  destruct Hwf as (_ & _ & Hnd). apply NoDup_app in Hnd as (_ & Hd & _).
  by apply Hd.
Qed.


(** X7.  When moreover no two writers share a descriptor, every record
    left on the writer list by the writer traversal has its descriptor in
    [wfds] for the next [select]. *)
Theorem writers_left_are_armed fuel w w' rs ws :
  well_formed w rs ws → buffers_fit w → Forall (writable w) ws →
  (∀ a b ca cb, a ∈ ws → b ∈ ws → deref a w = Some ca → deref b w = Some cb →
                fd ca = fd cb → a = b) →
  process_writers fuel w = Some w' →
  ∃ ws', well_formed w' rs ws' ∧
         ∀ a, a ∈ ws' → ∃ c, deref a w' = Some c ∧ fd c ∈ wfds w'.
Proof.
  intros Hwf Hfit Hok Hdist Hrun.
  destruct (writers_sweep (sys_time w - HTTP_TIMEOUT) ws [] w rs Hwf Hfit)
    as (w'' & kept & Hloop & Hwf' & Hsub & Hkept & _ & _ & _ & _ & _ & _ & _
        & Hfds & _ & Harmed); [unfold HTTP_TIMEOUT; lia|done|].
  assert (w' = w'') as -> by (eapply process_loop_agree; [exact Hrun|exact Hloop]).
  exists kept. split; [done|]. intros a Ha.
  rewrite Forall_forall in Hkept.
  destruct (Hkept a Ha) as (c & Hc & _). exists c. split; [done|].
  destruct (Harmed a c Ha Hc) as [?|(b & cb & Hb & Hbk & Hcb & Hfd)]; [done|].
  destruct (Hfds a c Hc) as (c0 & Hc0 & Hfd0).
  assert (a = b) as ->.
  { apply (Hdist a b c0 cb); [by eapply elem_of_sublist|done|done|done|congruence]. }
  done.
Qed.
(** ** Turns of the traversals *)

Lemma inbound_cases (m : gmap Z (list (list byte))) d :
  (m !! d = None ∨ m !! d = Some [] ∨ ∃ q, m !! d = Some ([] :: q)) ∨
  ∃ ch q, m !! d = Some (ch :: q) ∧ ch ≠ [].
Proof.
  destruct (m !! d) as [[|[|b ch] q]|]; eauto 6.
Qed.

(** A turn of the reader traversal in which [client_read] returns nonzero
    and has taken the record away from [*prev]: [do_get] has moved it, and
    the turn sets its read interest again and goes on at its [next]
    field. *)
Lemma process_step_moved cl prev c w timeout r w1 :
  linked_at cl prev c w → fd c ∈ rfds w → timeout < last c →
  client_read cl prev (note_youngest c w) = Some (r, w1) →
  r ≠ 0 → load prev w1 ≠ Some (Some cl) →
  ∃ m,
    moved_to_writers cl prev
      (set_state 5 (set_last (sys_time (note_youngest c w)) c))
      (reading cl c 5 m (note_youngest c w)) w1 ∧
    process_step rfds_ptr client_read timeout prev w
      = Some (Some (next_loc cl), FD_SET (fd c) rfds_ptr w1).
Proof.
  intros Hl Hrdy Hact Hrd Hr Hmoved.
  pose proof Hl as (Hc & Hp & _).
  set (wy := note_youngest c w) in *.
  assert (Hly : linked_at cl prev c wy) by (by apply linked_at_note_youngest).
  pose proof Hly as (Hcy & Hpy & _).
  assert (Hrfy : rfds wy = rfds w).
  { unfold wy, note_youngest. by case_decide. }
  assert (Hdone : ∃ m, moved_to_writers cl prev
                         (set_state 5 (set_last (sys_time wy) c))
                         (reading cl c 5 m wy) w1).
  { destruct (inbound_cases (inbound (sys wy)) (fd c)) as [Hno|(ch & q & Hin & Hne)].
    - rewrite (client_read_nodata cl prev wy c Hcy Hno) in Hrd.
      injection Hrd as <- _. done.
    - destruct (client_read_any cl prev wy c ch q Hcy Hin Hne) as [_ Hany].
      cbv zeta in Hany. rewrite Hany in Hrd. clear Hany.
      destruct (recognize (state c) (take HTTP_BUFSIZE ch)) as [s| |s].
      + injection Hrd as <- _. done.
      + match type of Hrd with
        | context [reading cl c 5 ?m wy] =>
            exists m;
            destruct (do_get_moves _ _ _ _
                        (linked_at_reading cl prev c 5 m wy Hly))
              as (w2 & Hdo & Hmv)
        end.
        rewrite Hdo in Hrd. injection Hrd as _ <-. exact Hmv.
      + injection Hrd as _ <-. exfalso. apply Hmoved.
        by destruct (linked_at_reading cl prev c s
                       (<[fd c := match drop HTTP_BUFSIZE ch with
                                  | [] => q | r => r :: q end]>
                          (inbound (sys wy))) wy Hly) as (_ & ? & _). }
  destruct Hdone as (m & Hmv). exists m. split; [done|].
  pose proof (mtw_record _ _ _ _ _ Hmv) as Hc1. simpl in Hc1.
  rewrite (process_step_unfold _ _ _ _ _ _ _ Hp Hc). cbv zeta. fold wy.
  rewrite decide_False by lia.
  assert (FD_ISSET (fd c) rfds_ptr wy = true) as ->.
  { simpl. apply bool_decide_eq_true_2. by rewrite Hrfy. }
  rewrite Hrd. cbn [mbind option_bind]. rewrite decide_False by done.
  rewrite Hc1. done.
Qed.

(** X8.  A turn of the reader traversal in which [client_read] returns
    nonzero and has taken the record away from [*prev] (the request is
    complete): the traversal goes on at the [next] field of that record,
    which now leads into the writer list, at what was its head; the reader
    that followed the record is at [*prev] and is not looked at; the
    descriptor is in [wfds] and again in [rfds].  With an empty writer
    list the traversal ends there. *)
Theorem traversal_after_a_completed_request cl prev c w timeout r w1 :
  linked_at cl prev c w → fd c ∈ rfds w → timeout < last c →
  client_read cl prev (note_youngest c w) = Some (r, w1) →
  r ≠ 0 → load prev w1 ≠ Some (Some cl) →
  ∃ w',
    process_step rfds_ptr client_read timeout prev w
      = Some (Some (next_loc cl), w') ∧
    writer_head w' = Some cl ∧
    load (next_loc cl) w' = Some (writer_head w) ∧
    load prev w' = Some (next c) ∧
    fd c ∈ rfds w' ∧ fd c ∈ wfds w' ∧
    (writer_head w = None →
     ∀ fuel, process_loop (S (S fuel)) rfds_ptr client_read timeout prev w
             = Some w').
Proof.
  intros Hl Hrdy Hact Hrd Hr Hmoved.
  destruct (process_step_moved cl prev c w timeout r w1 Hl Hrdy Hact Hrd Hr
              Hmoved) as (m & Hmv & Hstep).
  assert (Hwhy : writer_head (note_youngest c w) = writer_head w).
  { unfold note_youngest. by case_decide. }
  pose proof (mtw_record _ _ _ _ _ Hmv) as Hc1. simpl in Hc1.
  exists (FD_SET (fd c) rfds_ptr w1).
  assert (Hnext : load (next_loc cl) (FD_SET (fd c) rfds_ptr w1)
                  = Some (writer_head w)).
  { unfold load.
    change (deref cl (FD_SET (fd c) rfds_ptr w1)) with (deref cl w1).
    rewrite Hc1. simpl. by rewrite Hwhy. }
  split; [done|].
  split; [exact (mtw_writer_head _ _ _ _ _ Hmv)|].
  split; [done|].
  split.
  { pose proof (mtw_unlinked _ _ _ _ _ Hmv) as Hu. simpl in Hu.
    destruct prev; simpl in *; try done. }
  split; [simpl; apply elem_of_union_r; by apply elem_of_singleton|].
  split.
  { simpl. rewrite (mtw_wfds _ _ _ _ _ Hmv). simpl.
    apply elem_of_union_r. by apply elem_of_singleton. }
  intros Hnone fuel.
  change (process_loop (S (S fuel)) rfds_ptr client_read timeout prev w)
    with ('(k, w) ← process_step rfds_ptr client_read timeout prev w;
          match k with
          | None => Some w
          | Some prev => process_loop (S fuel) rfds_ptr client_read timeout prev w
          end).
  rewrite Hstep. cbn [mbind option_bind process_loop].
  unfold process_step at 1. rewrite Hnext, Hnone. done.
Qed.

Lemma sys_read_nothing d w :
  (sys_read d HTTP_BUFSIZE w).1.1 ≤ 0 →
  inbound (sys w) !! d = None ∨ inbound (sys w) !! d = Some [] ∨
  ∃ q, inbound (sys w) !! d = Some ([] :: q).
Proof.
  unfold sys_read.
  destruct (inbound (sys w) !! d) as [[|[|b ch] q]|]; eauto.
  simpl. lia.
Qed.

(** Closing the record a traversal stands at. *)
Lemma closed_at cl prev c w l :
  load prev w = Some (Some cl) → deref cl w = Some c → fd c ≠ -1 →
  ∃ w', client_free cl prev (log_info l w) = Some w' ∧
    deref cl w' = None ∧
    closed (sys w') = fd c :: closed (sys w) ∧
    sent (sys w') = sent (sys w) ∧
    inbound (sys w') = inbound (sys w) ∧
    rfds w' = rfds w ∖ {[fd c]} ∧ wfds w' = wfds w ∖ {[fd c]} ∧
    stderr (sys w') = l :: stderr (sys w).
Proof.
  intros Hp Hc Hfd.
  assert (Hp' : load prev (log_info l w) = Some (Some cl))
    by (by destruct prev).
  assert (Hc' : deref cl (log_info l w) = Some c) by done.
  destruct (client_free_frees _ _ _ _ Hp' Hc' Hfd) as (w' & Hfree & Hfr).
  exists w'. split; [done|]. split; [exact (fr_gone _ _ _ _ _ Hfr)|].
  rewrite (fr_sys _ _ _ _ _ Hfr), (fr_rfds _ _ _ _ _ Hfr),
    (fr_wfds _ _ _ _ _ Hfr). done.
Qed.

Lemma process_step_no_input cl prev c w timeout :
  load prev w = Some (Some cl) → deref cl w = Some c → fd c ≠ -1 →
  timeout < last c → fd c ∈ rfds w →
  (inbound (sys w) !! fd c = None ∨ inbound (sys w) !! fd c = Some [] ∨
   ∃ q, inbound (sys w) !! fd c = Some ([] :: q)) →
  ∃ w',
    process_step rfds_ptr client_read timeout prev w = Some (Some prev, w') ∧
    deref cl w' = None ∧
    closed (sys w') = fd c :: closed (sys w) ∧
    sent (sys w') = sent (sys w) ∧
    inbound (sys w') = inbound (sys w) ∧
    (fd c ∉ rfds w') ∧ (fd c ∉ wfds w') ∧
    stderr (sys w') =
      log_closing_disconnect (fd c) :: log_closing_errno (fd c)
      :: stderr (sys w).
Proof.
  intros Hp Hc Hfd Hact Hrdy Hnothing.
  rewrite (process_step_unfold _ _ _ _ _ _ _ Hp Hc). cbv zeta.
  set (wy := note_youngest c w).
  assert (Hwy : wy = w ∨ wy = with_youngest (last c) w).
  { unfold wy, note_youngest. case_decide; auto. }
  assert (Hpy : load prev wy = Some (Some cl))
    by (unfold wy; by rewrite load_note_youngest).
  assert (Hcy : deref cl wy = Some c)
    by (unfold wy; by rewrite deref_note_youngest).
  assert (Hsy : sys wy = sys w ∧ rfds wy = rfds w ∧ wfds wy = wfds w)
    by (destruct Hwy as [-> | ->]; done).
  destruct Hsy as (Hsy & Hry & Hwy').
  rewrite decide_False by lia.
  assert (FD_ISSET (fd c) rfds_ptr wy = true) as ->.
  { simpl. apply bool_decide_eq_true_2. by rewrite Hry. }
  assert (Hno : inbound (sys wy) !! fd c = None ∨
                inbound (sys wy) !! fd c = Some [] ∨
                ∃ q, inbound (sys wy) !! fd c = Some ([] :: q)).
  { by rewrite Hsy. }
  rewrite (client_read_nodata cl prev wy c Hcy Hno).
  cbn [mbind option_bind]. rewrite decide_True by done.
  change (deref cl (log_info (log_closing_errno (fd c)) wy)) with (deref cl wy).
  rewrite Hcy. cbn [mbind option_bind].
  destruct (closed_at cl prev c (log_info (log_closing_errno (fd c)) wy)
              (log_closing_disconnect (fd c)))
    as (w' & Hfree & Hgone & Hcl & Hsent & Hinb & Hrf & Hwf & Herr);
    [by destruct prev|done|done|].
  rewrite Hfree. cbn [mbind option_bind].
  exists w'. split; [done|]. split; [done|].
  simpl in Hcl, Hsent, Hinb, Herr. rewrite Hsy in Hcl, Hsent, Hinb, Herr.
  split; [done|]. split; [done|]. split; [done|].
  split; [rewrite Hrf; intros [_ H]%elem_of_difference; apply H;
          by apply elem_of_singleton|].
  split; [rewrite Hwf; intros [_ H]%elem_of_difference; apply H;
          by apply elem_of_singleton|].
  done.
Qed.

(** X9.  A reader that is not idle and whose descriptor is reported
    readable, when [read] then delivers nothing (end of stream, or an
    error): whatever the state of the recognizer, the turn releases the
    record, closes the descriptor, takes it out of both interest sets and
    prints the two closing lines; nothing is sent and no input is
    consumed. *)
Theorem end_of_input_closes_reader cl prev c w timeout :
  load prev w = Some (Some cl) → deref cl w = Some c → fd c ≠ -1 →
  timeout < last c → fd c ∈ rfds w →
  (sys_read (fd c) HTTP_BUFSIZE w).1.1 ≤ 0 →
  ∃ w',
    process_step rfds_ptr client_read timeout prev w = Some (Some prev, w') ∧
    deref cl w' = None ∧
    closed (sys w') = fd c :: closed (sys w) ∧
    sent (sys w') = sent (sys w) ∧
    inbound (sys w') = inbound (sys w) ∧
    (fd c ∉ rfds w') ∧ (fd c ∉ wfds w') ∧
    stderr (sys w') =
      log_closing_disconnect (fd c) :: log_closing_errno (fd c)
      :: stderr (sys w).
Proof.
  intros Hp Hc Hfd Hact Hrdy Hnothing.
  apply process_step_no_input; try done. by apply sys_read_nothing.
Qed.

(** [client_write] at the end of the response, or when [write] fails. *)
Lemma client_write_gives_up cl prev c w :
  deref cl w = Some c → fd c ≠ -1 → in_range c w →
  (∀ buf, current_buffer c w = Some buf →
     (sys_write (fd c) (drop (Z.to_nat (write_ofs c)) buf) w).1 < 0) →
  ∃ wh, client_write cl prev w = Some (0, wh) ∧
    heap wh = heap w ∧ reader_head wh = reader_head w ∧
    writer_head wh = writer_head w ∧ rfds wh = rfds w ∧ wfds wh = wfds w ∧
    sent (sys wh) = sent (sys w) ∧ closed (sys wh) = closed (sys w) ∧
    inbound (sys wh) = inbound (sys w) ∧
    stderr (sys wh) =
      match current_buffer c w with
      | None => log_closing_completed (fd c)
      | Some _ => log_closing_errno (fd c)
      end :: stderr (sys w).
Proof.
  intros Hc Hfd Hin Hfail.
  destruct (current_buffer c w) as [buf|] eqn:Hbuf.
  2: { destruct (current_buffer_None cl prev c w Hc Hbuf) as (_ & _ & ->).
       eexists. split; [done|]. by repeat split. }
  specialize (Hfail buf eq_refl).
  assert (Hofs : 0 ≤ write_ofs c ≤ Z.of_nat (length buf)).
  { unfold in_range in Hin. by rewrite Hbuf in Hin. }
  unfold client_write. rewrite Hc. cbn [mbind option_bind].
  assert (Hsel : match state c with 0 => Some (hdr w) | 1 => Some (msg w)
                 | _ => None end = Some buf) by exact Hbuf.
  rewrite Hsel. rewrite !bool_decide_eq_true_2 by done.
  cbn [assert mbind option_bind].
  unfold sys_write in *.
  destruct (capacity (sys w) !! fd c) as [[|cap q]|].
  - rewrite decide_True by lia. eexists. split; [done|]. by repeat split.
  - destruct (decide (cap < 0)) as [Hneg|Hpos]; [|simpl in Hfail; lia].
    rewrite decide_True by lia. eexists. split; [done|]. by repeat split.
  - rewrite decide_True by lia. eexists. split; [done|]. by repeat split.
Qed.

(** X10.  A writer that is not idle and whose descriptor is reported
    writable, when the response is finished (its phase is past the body)
    or [write] fails: the turn releases the record, closes the descriptor,
    takes it out of both interest sets and prints the two closing lines,
    the first naming the reason; nothing is sent. *)
Theorem finished_or_failed_writer_is_closed cl prev c w timeout :
  load prev w = Some (Some cl) → deref cl w = Some c → fd c ≠ -1 →
  in_range c w → timeout < last c → fd c ∈ wfds w →
  (∀ buf, current_buffer c w = Some buf →
     (sys_write (fd c) (drop (Z.to_nat (write_ofs c)) buf) w).1 < 0) →
  ∃ w',
    process_step wfds_ptr client_write timeout prev w = Some (Some prev, w') ∧
    deref cl w' = None ∧
    closed (sys w') = fd c :: closed (sys w) ∧
    sent (sys w') = sent (sys w) ∧
    (fd c ∉ rfds w') ∧ (fd c ∉ wfds w') ∧
    stderr (sys w') =
      log_closing_disconnect (fd c)
      :: match current_buffer c w with
         | None => log_closing_completed (fd c)
         | Some _ => log_closing_errno (fd c)
         end
      :: stderr (sys w).
Proof.
  intros Hp Hc Hfd Hin Hact Hrdy Hfail.
  rewrite (process_step_unfold _ _ _ _ _ _ _ Hp Hc). cbv zeta.
  set (wy := note_youngest c w).
  assert (Hwy : wy = w ∨ wy = with_youngest (last c) w).
  { unfold wy, note_youngest. case_decide; auto. }
  assert (Hpy : load prev wy = Some (Some cl))
    by (unfold wy; by rewrite load_note_youngest).
  assert (Hcy : deref cl wy = Some c)
    by (unfold wy; by rewrite deref_note_youngest).
  assert (Hsy : sys wy = sys w ∧ rfds wy = rfds w ∧ wfds wy = wfds w ∧
                hdr wy = hdr w ∧ msg wy = msg w)
    by (destruct Hwy as [-> | ->]; done).
  destruct Hsy as (Hsy & Hry & Hwy' & Hhy & Hmy).
  rewrite decide_False by lia.
  assert (FD_ISSET (fd c) wfds_ptr wy = true) as ->.
  { simpl. apply bool_decide_eq_true_2. by rewrite Hwy'. }
  assert (Hbufy : current_buffer c wy = current_buffer c w).
  { unfold current_buffer. by rewrite Hhy, Hmy. }
  destruct (client_write_gives_up cl prev c wy Hcy Hfd)
    as (wh & Hwr & Hh & Hrh & Hwh & Hrf & Hwf & Hs & Hcl & Hinb & Herr).
  { eapply in_range_body; [reflexivity| | |exact Hin]; done. }
  { intros buf Hbuf. rewrite Hbufy in Hbuf. specialize (Hfail buf Hbuf).
    unfold sys_write in *. rewrite Hsy.
    destruct (capacity (sys w) !! fd c) as [[|cap q]|]; [done| |done].
    by destruct (decide (cap < 0)). }
  rewrite Hwr. cbn [mbind option_bind]. rewrite decide_True by done.
  assert (Hch : deref cl wh = Some c) by (unfold deref in *; by rewrite Hh).
  rewrite Hch. cbn [mbind option_bind].
  destruct (closed_at cl prev c wh (log_closing_disconnect (fd c)))
    as (w' & Hfree & Hgone & Hcl' & Hsent' & _ & Hrf' & Hwf' & Herr');
    [|done|done|].
  { destruct prev; simpl in *; unfold deref in *; congruence. }
  rewrite Hfree. cbn [mbind option_bind].
  exists w'. split; [done|]. split; [done|].
  split; [by rewrite Hcl', Hcl, Hsy|].
  split; [by rewrite Hsent', Hs, Hsy|].
  split; [rewrite Hrf'; intros [_ H]%elem_of_difference; apply H;
          by apply elem_of_singleton|].
  split; [rewrite Hwf'; intros [_ H]%elem_of_difference; apply H;
          by apply elem_of_singleton|].
  by rewrite Herr', Herr, Hbufy, Hsy.
Qed.
(** ** A connection in the turn that accepts it *)

(** [client_accept] when a connection is pending. *)
Lemma client_accept_new w d rest :
  backlog (sys w) = d :: rest → 0 ≤ d →
  reader_head w ≠ Some (calloc w) →
  ∃ wa, client_accept w = Some wa ∧
    heap wa = <[calloc w := Client d 0 (reader_head w) (sys_time w) 0]> (heap w) ∧
    reader_head wa = Some (calloc w) ∧ writer_head wa = writer_head w ∧
    rfds wa = rfds w ∪ {[d]} ∧ wfds wa = wfds w ∧
    hdr wa = hdr w ∧ msg wa = msg w ∧
    sys wa = with_stderr (cons (log_new_client d)) (with_backlog rest (sys w)).
Proof.
  intros Hb Hd Hrh. unfold client_accept, sys_accept. rewrite Hb.
  rewrite decide_False by lia. cbv zeta.
  rewrite bool_decide_eq_true_2
    by (intros Heq; apply Hrh; symmetry; exact Heq).
  cbn [assert mbind option_bind].
  eexists. split; [reflexivity|]. by case_decide.
Qed.

Lemma allocated_head_is_not_fresh w :
  match reader_head w with Some p => is_Some (deref p w) | None => True end →
  reader_head w ≠ Some (calloc w).
Proof.
  intros Hh Heq. rewrite Heq in Hh. rewrite calloc_fresh in Hh.
  by destruct Hh.
Qed.

(** X11.  A connection is accepted and the first [read] on it delivers
    nothing (end of stream, or an error): since [client_accept] puts the
    new descriptor in [rfds] after [select] has returned, the reader
    traversal of the same turn calls [client_read] for the new record, and
    the turn ends with the record released and the descriptor closed. *)
Theorem connection_without_data_is_dropped_at_once
    fuel listen_fd w w' d rest :
  listen_fd ∈ rfds w → backlog (sys w) = d :: rest → 0 ≤ d →
  match reader_head w with Some p => is_Some (deref p w) | None => True end →
  (sys_read d HTTP_BUFSIZE w).1.1 ≤ 0 →
  after_select fuel listen_fd w = Some w' →
  deref (calloc w) w' = None ∧ d ∈ closed (sys w').
Proof.
  intros Hl Hb Hd Hhead Hnothing Hturn.
  apply after_select_inv in Hturn as (wa & wr & Ha & Hr & Hw).
  unfold accept_step in Ha.
  assert (FD_ISSET listen_fd rfds_ptr w = true) as Hset
    by (simpl; by apply bool_decide_eq_true_2).
  rewrite Hset in Ha.
  destruct (client_accept_new w d rest Hb Hd
              (allocated_head_is_not_fresh w Hhead))
    as (wa' & Ha' & Hheap & Hrh & Hwh & Hrf & Hwf & Hh & Hm & Hsys).
  assert (wa' = wa) as -> by congruence. clear Ha'.
  set (new := calloc w) in *.
  set (c := Client d 0 (reader_head w) (sys_time w) 0) in *.
  set (w0 := with_youngest INT_MAX (FD_SET listen_fd rfds_ptr wa)) in *.
  set (P := λ w1 : world, deref new w1 = None ∧ d ∈ closed (sys w1)).
  assert (P_upd : ∀ p f w1 w2, (∀ c, fd (f c) = fd c) →
            upd p f w1 = Some w2 → P w1 → P w2).
  { intros p f w1 w2 Hf Hu [Hn Hc]. split.
    - pose proof (upd_fd _ _ _ _ new Hu Hf) as Hfd. rewrite Hn in Hfd.
      by destruct (deref new w2).
    - by apply upd_inv in Hu as (? & _ & ->). }
  assert (P_free : ∀ cl c1 w1, deref cl w1 = Some c1 → fd c1 ≠ -1 → P w1 →
            P (with_heap (delete cl)
                 (FD_CLR (fd c1) wfds_ptr
                    (FD_CLR (fd c1) rfds_ptr (sys_close (fd c1) w1))))).
  { intros cl c1 w1 Hc1 Hfd [Hn Hc]. split.
    - unfold deref in *. simpl. apply lookup_delete_None. by right.
    - simpl. by right. }
  assert (Hkeep : ∀ fuel prev w1 w2,
            process_loop fuel rfds_ptr client_read (sys_time w0 - HTTP_TIMEOUT)
              prev w1 = Some w2 → P w1 → P w2).
  { apply (process_loop_keeps P); try done.
    - intros ? s ? _ ?. by destruct s.
    - intros cl prev w1 r w2 Hrd HP.
      eapply (client_read_keeps P); try exact Hrd; try done.
      all: intros ? s ? _ ?; by destruct s. }
  assert (HPr : P wr).
  { unfold process_readers, process_generic in Hr.
    destruct fuel as [|fuel]; [done|].
    destruct (process_step_no_input new reader_head_loc c w0
                (sys_time w0 - HTTP_TIMEOUT))
      as (w1 & Hstep & Hgone & Hcl & _); try done.
    - simpl. by rewrite Hrh.
    - unfold deref. simpl. rewrite Hheap. apply lookup_insert_eq.
    - simpl. lia.
    - simpl. unfold sys_time. simpl. rewrite Hsys. simpl.
      unfold HTTP_TIMEOUT. lia.
    - simpl. rewrite Hrf.
      apply elem_of_union_l, elem_of_union_r. by apply elem_of_singleton.
    - simpl. rewrite Hsys. simpl. by apply sys_read_nothing.
    - simpl in Hr. rewrite Hstep in Hr. cbn [mbind option_bind] in Hr.
      apply (Hkeep _ _ _ _ Hr). split; [done|]. rewrite Hcl. by left. }
  unfold process_writers, process_generic in Hw.
  revert Hw HPr. apply (process_loop_keeps P); try done.
  - intros ? s ? _ ?. by destruct s.
  - intros cl prev w1 r w2 Hwr HP.
    eapply (client_write_keeps P); try exact Hwr; done.
Qed.
(** The reader traversal when the only reader is given its whole request
    by one [read] and there is no writer. *)
Lemma lone_reader_is_moved cl c w extra q fuel :
  reader_head w = Some cl → deref cl w = Some c → next c = None →
  writer_head w = None → state c = 0 →
  fd c ∈ rfds w → sys_time w - HTTP_TIMEOUT < last c →
  inbound (sys w) !! fd c = Some ((request ++ extra) :: q) →
  (length (request ++ extra) ≤ HTTP_BUFSIZE)%nat →
  (2 ≤ fuel)%nat →
  ∃ w', process_readers fuel w = Some w' ∧
    reader_head w' = None ∧ writer_head w' = Some cl ∧
    deref cl w' = Some (Client (fd c) 0 None (sys_time w) 0) ∧
    (fd c ∈ rfds w') ∧ wfds w' = wfds w ∪ {[fd c]} ∧
    hdr w' = hdr w ∧ msg w' = msg w ∧
    sys w' = with_inbound (λ _, <[fd c := q]> (inbound (sys w))) (sys w).
Proof.
  intros Hrh Hc Hnx Hwh Hst Hrdy Hact Hin Hlen Hfuel.
  assert (Hl : linked_at cl reader_head_loc c w).
  { split; [done|]. split; [simpl; by rewrite Hrh|].
    split; [by rewrite Hnx|by rewrite Hwh]. }
  assert (Hone : one_read (request ++ extra)).
  { split; [by destruct extra|done]. }
  pose proof (process_step_read cl reader_head_loc c w (request ++ extra) q
                (sys_time w - HTTP_TIMEOUT) Hl Hrdy Hact Hin Hone) as Hstep.
  cbv zeta in Hstep. rewrite Hst, recognize_app in Hstep.
  change (recognize 0 request) with Completed in Hstep.
  set (wy := note_youngest c w) in *.
  set (m := <[fd c := q]> (inbound (sys w))) in *.
  assert (Hly : linked_at cl reader_head_loc c wy)
    by (by apply linked_at_note_youngest).
  assert (Hwy : writer_head wy = None ∧ sys wy = sys w ∧ wfds wy = wfds w ∧
                hdr wy = hdr w ∧ msg wy = msg w).
  { unfold wy, note_youngest. by case_decide. }
  destruct Hwy as (Hwhy & Hsy & Hwfy & Hhy & Hmy).
  destruct (do_get_moves _ _ _ _
              (linked_at_reading cl reader_head_loc c 5 m wy Hly))
    as (w1 & Hdo & Hmv).
  rewrite Hdo in Hstep. cbn [mbind option_bind] in Hstep.
  pose proof (mtw_record _ _ _ _ _ Hmv) as Hc1. simpl in Hc1.
  rewrite Hwhy in Hc1. unfold sys_time in Hc1. rewrite Hsy in Hc1.
  fold (sys_time w) in Hc1.
  rewrite Hc1 in Hstep. cbn [mbind option_bind fd] in Hstep.
  exists (FD_SET (fd c) rfds_ptr w1).
  split.
  { unfold process_readers, process_generic. cbv zeta.
    destruct fuel as [|[|fuel]]; [lia|lia|].
    set (t := sys_time w - HTTP_TIMEOUT) in *.
    change (process_loop (S (S fuel)) rfds_ptr client_read t reader_head_loc w)
      with ('(k, w) ← process_step rfds_ptr client_read t reader_head_loc w;
            match k with
            | None => Some w
            | Some prev => process_loop (S fuel) rfds_ptr client_read t prev w
            end).
    rewrite Hstep. cbn [mbind option_bind process_loop].
    unfold process_step at 1. unfold load.
    change (deref cl (FD_SET (fd c) rfds_ptr w1)) with (deref cl w1).
    rewrite Hc1. done. }
  split.
  { pose proof (mtw_unlinked _ _ _ _ _ Hmv) as Hu. simpl in Hu.
    injection Hu as Hu. simpl. by rewrite Hu. }
  split; [exact (mtw_writer_head _ _ _ _ _ Hmv)|].
  split; [done|].
  split; [simpl; apply elem_of_union_r; by apply elem_of_singleton|].
  split; [simpl; rewrite (mtw_wfds _ _ _ _ _ Hmv); simpl; by rewrite Hwfy|].
  split; [simpl; rewrite (mtw_hdr _ _ _ _ _ Hmv); simpl; by rewrite Hhy|].
  split; [simpl; rewrite (mtw_msg _ _ _ _ _ Hmv); simpl; by rewrite Hmy|].
  simpl. rewrite (mtw_sys _ _ _ _ _ Hmv). simpl. by rewrite Hsy.
Qed.
Lemma next_advance n buflen now c : next (advance n buflen now c) = next c.
Proof. unfold advance. by case_decide. Qed.

Lemma fd_advance n buflen now c : fd (advance n buflen now c) = fd c.
Proof. unfold advance. by case_decide. Qed.

(** The writer traversal when the only writer is at the start of the
    header and its descriptor is writable. *)
Lemma lone_writer_is_served cl c w cap caps fuel :
  writer_head w = Some cl → deref cl w = Some c → next c = None →
  state c = 0 → write_ofs c = 0 → fd c ≠ -1 →
  fd c ∈ wfds w → sys_time w - HTTP_TIMEOUT < last c →
  capacity (sys w) !! fd c = Some (cap :: caps) → 0 ≤ cap →
  Z.of_nat (length (hdr w)) < UINT_MODULUS → (2 ≤ fuel)%nat →
  let n := Z.min cap (Z.of_nat (length (hdr w))) in
  ∃ w', process_writers fuel w = Some w' ∧
    reader_head w' = reader_head w ∧ writer_head w' = Some cl ∧
    deref cl w' =
      Some (advance n (Z.of_nat (length (hdr w))) (sys_time w) c) ∧
    sent_on (fd c) w' = sent_on (fd c) w ++ take (Z.to_nat n) (hdr w) ∧
    rfds w' = rfds w ∧ (fd c ∈ wfds w') ∧
    inbound (sys w') = inbound (sys w).
Proof.
  intros Hwh Hc Hnx Hst Hofs Hfd Hrdy Hact Hcap Hpos Hlen Hfuel n.
  assert (Hp : load writer_head_loc w = Some (Some cl))
    by (simpl; by rewrite Hwh).
  set (wy := note_youngest c w).
  assert (Hwy : writer_head wy = writer_head w ∧ sys wy = sys w ∧
                wfds wy = wfds w ∧ rfds wy = rfds w ∧ hdr wy = hdr w ∧
                reader_head wy = reader_head w ∧ heap wy = heap w).
  { unfold wy, note_youngest. by case_decide. }
  destruct Hwy as (Hwhy & Hsy & Hwfy & Hrfy & Hhy & Hrhy & Hheapy).
  assert (Hcy : deref cl wy = Some c) by (unfold deref; by rewrite Hheapy).
  assert (Hbuf : current_buffer c wy = Some (hdr w)).
  { unfold current_buffer. by rewrite Hst, Hhy. }
  pose proof (client_write_step cl writer_head_loc wy c (hdr w) cap caps
                Hcy Hfd Hbuf) as Hwr.
  rewrite Hofs, Hsy in Hwr. cbv zeta in Hwr.
  rewrite Z.sub_0_r in Hwr. fold n in Hwr.
  specialize (Hwr ltac:(lia) Hlen Hcap Hpos).
  change (Z.to_nat 0) with 0%nat in Hwr. rewrite drop_0 in Hwr.
  set (c1 := advance n (Z.of_nat (length (hdr w))) (sys_time wy) c) in *.
  match type of Hwr with _ = Some (1, ?x) => set (w1 := x) in * end.
  assert (Hc1 : deref cl w1 = Some c1) by apply deref_with_heap_insert.
  assert (Hn1 : next c1 = None) by (unfold c1; by rewrite next_advance).
  assert (Hf1 : fd c1 = fd c) by (unfold c1; by rewrite fd_advance).
  assert (He1 : c1 = advance n (Z.of_nat (length (hdr w))) (sys_time w) c).
  { unfold c1, sys_time. by rewrite Hsy. }
  assert (Hw1 : reader_head w1 = reader_head w ∧ writer_head w1 = Some cl ∧
                rfds w1 = rfds w ∧ wfds w1 = wfds w ∧
                inbound (sys w1) = inbound (sys w) ∧
                sent_on (fd c) w1 = sent_on (fd c) w ++ take (Z.to_nat n) (hdr w)).
  { unfold w1. simpl. rewrite Hsy. repeat (split; [congruence|]).
    unfold sent_on at 1. simpl. rewrite lookup_insert_eq. simpl.
    unfold sent_on. by rewrite Hsy. }
  destruct Hw1 as (Hr1 & Hwh1 & Hrf1 & Hwf1 & Hin1 & Hs1).
  clearbody c1 w1.
  assert (Hstep : process_step wfds_ptr client_write
                    (sys_time w - HTTP_TIMEOUT) writer_head_loc w
                  = Some (Some (next_loc cl), FD_SET (fd c1) wfds_ptr w1)).
  { rewrite (process_step_unfold _ _ _ _ _ _ _ Hp Hc). cbv zeta. fold wy.
    rewrite decide_False by lia.
    assert (FD_ISSET (fd c) wfds_ptr wy = true) as ->.
    { simpl. apply bool_decide_eq_true_2. by rewrite Hwfy. }
    rewrite Hwr. cbn [mbind option_bind]. rewrite decide_False by done.
    rewrite Hc1. done. }
  exists (FD_SET (fd c1) wfds_ptr w1).
  split.
  { unfold process_writers, process_generic. cbv zeta.
    destruct fuel as [|[|fuel]]; [lia|lia|].
    set (t := sys_time w - HTTP_TIMEOUT) in *.
    change (process_loop (S (S fuel)) wfds_ptr client_write t writer_head_loc w)
      with ('(k, w) ← process_step wfds_ptr client_write t writer_head_loc w;
            match k with
            | None => Some w
            | Some prev => process_loop (S fuel) wfds_ptr client_write t prev w
            end).
    rewrite Hstep. cbn [mbind option_bind process_loop].
    unfold process_step at 1. unfold load.
    change (deref cl (FD_SET (fd c1) wfds_ptr w1)) with (deref cl w1).
    rewrite Hc1. simpl. by rewrite Hn1. }
  split; [done|]. split; [done|].
  split; [by rewrite <- He1|].
  split; [done|]. split; [done|].
  split; [simpl; apply elem_of_union_r; apply elem_of_singleton; done|].
  done.
Qed.
(** X12.  On a server without connections, a connection whose request is
    waiting when it is accepted is served within the turn that accepts it:
    the new record is read (its descriptor is put in [rfds] by
    [client_accept]), moved to the writer list ([do_get] puts the
    descriptor in [wfds]) and handed to [client_write], which sends the
    beginning of the header, as much as the transport takes.  The bytes
    that followed the request in the same read are dropped. *)
Theorem request_waiting_at_accept_is_answered_in_the_same_turn
    fuel listen_fd w d rest extra q cap caps :
  listen_fd ∈ rfds w → backlog (sys w) = d :: rest → 0 ≤ d →
  reader_head w = None → writer_head w = None →
  inbound (sys w) !! d = Some ((request ++ extra) :: q) →
  (length (request ++ extra) ≤ HTTP_BUFSIZE)%nat →
  capacity (sys w) !! d = Some (cap :: caps) → 0 ≤ cap →
  Z.of_nat (length (hdr w)) < UINT_MODULUS → (2 ≤ fuel)%nat →
  let n := Z.min cap (Z.of_nat (length (hdr w))) in
  ∃ w', after_select fuel listen_fd w = Some w' ∧
    reader_head w' = None ∧ writer_head w' = Some (calloc w) ∧
    deref (calloc w) w' =
      Some (advance n (Z.of_nat (length (hdr w))) (sys_time w)
              (Client d 0 None (sys_time w) 0)) ∧
    sent_on d w' = sent_on d w ++ take (Z.to_nat n) (hdr w) ∧
    inbound (sys w') !! d = Some q ∧ backlog (sys w') = rest ∧
    d ∈ rfds w' ∧ d ∈ wfds w'.
Proof.
  intros Hl Hb Hd Hrh Hwh Hin Hlen Hcap Hpos Hhdr Hfuel n.
  destruct (client_accept_new w d rest Hb Hd)
    as (wa & Ha & Hheap & Hrha & Hwha & Hrfa & Hwfa & Hha & Hma & Hsys);
    [by rewrite Hrh|].
  rewrite Hrh in Hheap.
  set (new := calloc w) in *.
  set (c := Client d 0 None (sys_time w) 0) in *.
  set (w0 := with_youngest INT_MAX (FD_SET listen_fd rfds_ptr wa)).
  assert (Ht0 : sys_time w0 = sys_time w).
  { unfold sys_time. simpl. by rewrite Hsys. }
  destruct (lone_reader_is_moved new c w0 extra q fuel)
    as (wr & Hr & Hrhr & Hwhr & Hcr & Hrfr & Hwfr & Hhr & Hmr & Hsysr);
    try done.
  { unfold deref. simpl. rewrite Hheap. apply lookup_insert_eq. }
  { simpl. by rewrite Hwha. }
  { simpl. rewrite Hrfa. apply elem_of_union_l, elem_of_union_r.
    by apply elem_of_singleton. }
  { rewrite Ht0. simpl. unfold HTTP_TIMEOUT. lia. }
  { simpl. by rewrite Hsys. }
  simpl in Hcr, Hrfr, Hwfr, Hhr, Hsysr. rewrite Ht0 in Hcr.
  fold c in Hcr.
  assert (Htr : sys_time wr = sys_time w).
  { unfold sys_time. rewrite Hsysr, Hsys. done. }
  destruct (lone_writer_is_served new c wr cap caps fuel)
    as (w' & Hw & Hrh' & Hwh' & Hc' & Hsent & Hrf' & Hwf' & Hin');
    try done.
  { simpl. lia. }
  { simpl. rewrite Hwfr. apply elem_of_union_r. by apply elem_of_singleton. }
  { rewrite Htr. simpl. unfold HTTP_TIMEOUT. lia. }
  { rewrite Hsysr, Hsys. done. }
  { by rewrite Hhr, Hha. }
  cbv zeta in Hc', Hsent. rewrite Hhr, Hha, Htr in Hc'.
  rewrite Hhr, Hha in Hsent.
  exists w'. split.
  { unfold after_select, accept_step.
    assert (FD_ISSET listen_fd rfds_ptr w = true) as ->
      by (simpl; by apply bool_decide_eq_true_2).
    rewrite Ha. cbn [mbind option_bind]. fold w0. rewrite Hr.
    cbn [mbind option_bind]. exact Hw. }
  split; [congruence|]. split; [done|]. split; [done|].
  split.
  { simpl in Hsent. rewrite Hsent. unfold sent_on. rewrite Hsysr, Hsys. done. }
  split.
  { rewrite Hin', Hsysr. simpl. apply lookup_insert_eq. }
  split.
  { destruct (process_generic_backlog _ _ _ _ _ _ client_write_untouched Hw)
      as [-> _]. rewrite Hsysr, Hsys. done. }
  split; [by rewrite Hrf'|done].
Qed.

(** ** Start-up *)

Lemma print_digits_app fuel : ∀ n acc,
  print_digits fuel n acc = print_digits fuel n [] ++ acc.
Proof.
  induction fuel as [|fuel IH]; intros n acc; simpl; [done|].
  case_decide; [done|].
  rewrite (IH _ (_ :: acc)), (IH _ [_]). by rewrite <- app_assoc.
Qed.

Lemma digit_value_digit r : 0 ≤ r ≤ 9 → digit_value (digit r) = r.
Proof.
  intros Hr.
  assert (r = 0 ∨ r = 1 ∨ r = 2 ∨ r = 3 ∨ r = 4 ∨ r = 5 ∨ r = 6 ∨ r = 7 ∨
          r = 8 ∨ r = 9) as Hcases by lia.
  repeat destruct Hcases as [->|Hcases]; try reflexivity.
  by subst.
Qed.

Lemma decimal_value_snoc l b :
  decimal_value (l ++ [b]) = 10 * decimal_value l + digit_value b.
Proof. unfold decimal_value. by rewrite fold_left_app. Qed.

Lemma decimal_value_print_digits fuel : ∀ n,
  0 ≤ n < 10 ^ Z.of_nat fuel →
  decimal_value (print_digits fuel n []) = n.
Proof.
  induction fuel as [|fuel IH]; intros n Hn.
  { simpl in *. unfold decimal_value. simpl. lia. }
  cbn [print_digits]. pose proof (Z.mod_pos_bound n 10 ltac:(lia)) as Hr.
  pose proof (Z.div_mod n 10 ltac:(lia)) as Hdm.
  case_decide as Hq.
  - change (decimal_value [digit (n mod 10)])
      with (10 * 0 + digit_value (digit (n mod 10))).
    rewrite digit_value_digit by lia. lia.
  - rewrite print_digits_app, decimal_value_snoc, digit_value_digit by lia.
    rewrite IH; [lia|].
    rewrite Nat2Z.inj_succ, Z.pow_succ_r in Hn by lia.
    split; [apply Z.div_pos; lia|].
    apply Z.div_lt_upper_bound; lia.
Qed.

Lemma length_print_digits fuel : ∀ n acc,
  (1 ≤ fuel)%nat →
  (1 + length acc ≤ length (print_digits fuel n acc) ≤ fuel + length acc)%nat.
Proof.
  induction fuel as [|fuel IH]; intros n acc Hf; [lia|].
  simpl. case_decide; [simpl; lia|].
  destruct fuel as [|fuel]; [simpl; lia|].
  specialize (IH (n / 10) (digit (n mod 10) :: acc) ltac:(lia)).
  simpl in IH. simpl. lia.
Qed.

Lemma print_digits_digits fuel : ∀ n acc,
  0 ≤ n → Forall decimal_digit acc →
  Forall decimal_digit (print_digits fuel n acc).
Proof.
  induction fuel as [|fuel IH]; intros n acc Hn Hacc; [done|].
  cbn [print_digits].
  pose proof (Z.mod_pos_bound n 10 ltac:(lia)) as Hr.
  assert (Forall decimal_digit (digit (n mod 10) :: acc)) as Hacc'.
  { constructor; [|done]. unfold decimal_digit.
    rewrite digit_value_digit by lia. lia. }
  case_decide; [done|]. apply IH; [|done]. apply Z.div_pos; lia.
Qed.

(** The first digit printed for a number that is not 0 is not [0]. *)
Lemma print_digits_leading fuel : ∀ n acc,
  0 < n < 10 ^ Z.of_nat fuel →
  ∃ d rest, print_digits fuel n acc = digit d :: rest ∧ 1 ≤ d ≤ 9.
Proof.
  induction fuel as [|fuel IH]; intros n acc Hn.
  { simpl in Hn. lia. }
  cbn [print_digits].
  pose proof (Z.mod_pos_bound n 10 ltac:(lia)) as Hr.
  pose proof (Z.div_mod n 10 ltac:(lia)) as Hdm.
  case_decide as Hq.
  - exists (n mod 10), acc. split; [done|]. lia.
  - apply IH.
    rewrite Nat2Z.inj_succ, Z.pow_succ_r in Hn by lia.
    assert (0 ≤ n / 10) by (apply Z.div_pos; lia).
    split; [lia|]. apply Z.div_lt_upper_bound; lia.
Qed.

Lemma print_zu_numeral n :
  0 ≤ n < 2 ^ 64 → decimal_numeral (print_zu n).
Proof.
  intros Hn. unfold decimal_numeral, print_zu.
  assert (Hlen : (1 ≤ length (print_digits 20 n []))%nat).
  { pose proof (length_print_digits 20 n [] ltac:(lia)) as Hd.
    change (length (@nil byte)) with 0%nat in Hd. lia. }
  split; [intros Heq; rewrite Heq in Hlen; simpl in Hlen; lia|].
  split; [apply print_digits_digits; [lia|constructor]|].
  destruct (decide (n = 0)) as [->|Hne]; [done|].
  destruct (print_digits_leading 20 n []) as (d & rest & -> & Hd).
  { split; [lia|]. eapply Z.lt_trans; [apply Hn|]. reflexivity. }
  intros Hhead. exfalso. simpl in Hhead.
  assert (digit_value (digit d) = digit_value "0"%byte) as Hv by congruence.
  rewrite digit_value_digit in Hv by lia. vm_compute in Hv. lia.
Qed.

(** A number has one decimal numeral. *)
Lemma digit_value_inj b b' : digit_value b = digit_value b' → b = b'.
Proof.
  unfold digit_value. intros H.
  assert (Byte.to_N b = Byte.to_N b') as Hn by lia.
  pose proof (Byte.of_to_N b) as H1. pose proof (Byte.of_to_N b') as H2.
  rewrite Hn in H1. congruence.
Qed.

Lemma decimal_value_cons b l :
  decimal_value (b :: l) =
  digit_value b * 10 ^ Z.of_nat (length l) + decimal_value l.
Proof.
  induction l as [|x l IH] using rev_ind.
  { unfold decimal_value. simpl. lia. }
  rewrite app_comm_cons, !decimal_value_snoc, IH, length_app. simpl.
  rewrite Nat2Z.inj_add. simpl Z.of_nat.
  rewrite Z.pow_add_r by lia. lia.
Qed.

Lemma decimal_value_range l :
  Forall decimal_digit l → 0 ≤ decimal_value l < 10 ^ Z.of_nat (length l).
Proof.
  induction l as [|b l IH]; intros Hall.
  { unfold decimal_value. simpl. lia. }
  apply Forall_cons in Hall as [Hb Hl]. specialize (IH Hl).
  rewrite decimal_value_cons. unfold decimal_digit in Hb. simpl length.
  rewrite Nat2Z.inj_succ, Z.pow_succ_r by lia. nia.
Qed.

Lemma decimal_value_same_length l : ∀ l',
  Forall decimal_digit l → Forall decimal_digit l' →
  length l = length l' → decimal_value l = decimal_value l' → l = l'.
Proof.
  induction l as [|b l IH]; intros [|b' l'] Hall Hall' Hlen Hv; try done.
  apply Forall_cons in Hall as [Hb Hl]. apply Forall_cons in Hall' as [Hb' Hl'].
  simpl in Hlen. injection Hlen as Hlen.
  rewrite !decimal_value_cons, Hlen in Hv.
  pose proof (decimal_value_range l Hl) as Hr.
  pose proof (decimal_value_range l' Hl') as Hr'.
  rewrite Hlen in Hr.
  set (P := 10 ^ Z.of_nat (length l')) in *.
  assert (digit_value b = digit_value b') as Hd.
  { destruct (Z.lt_trichotomy (digit_value b) (digit_value b'))
      as [H|[H|H]]; [exfalso|done|exfalso]; nia. }
  assert (decimal_value l = decimal_value l') as Ht by (rewrite Hd in Hv; lia).
  f_equal; [by apply digit_value_inj|by apply IH].
Qed.

Lemma decimal_numeral_value l :
  decimal_numeral l →
  l = ["0"%byte] ∨
  10 ^ (Z.of_nat (length l) - 1) ≤ decimal_value l < 10 ^ Z.of_nat (length l).
Proof.
  intros (Hne & Hall & Hzero). destruct l as [|b l]; [done|].
  destruct (decide (b = "0"%byte)) as [->|Hb]; [left; by apply Hzero|].
  right. pose proof (decimal_value_range _ Hall) as Hr. split; [|apply Hr].
  apply Forall_cons in Hall as [Hd Hl].
  pose proof (decimal_value_range l Hl) as Hr'.
  rewrite decimal_value_cons. simpl length.
  replace (Z.of_nat (S (length l)) - 1) with (Z.of_nat (length l)) by lia.
  assert (digit_value b ≠ 0).
  { intros H0. apply Hb. apply digit_value_inj. rewrite H0. reflexivity. }
  unfold decimal_digit in Hd. nia.
Qed.

Lemma decimal_numeral_unique l l' :
  decimal_numeral l → decimal_numeral l' →
  decimal_value l = decimal_value l' → l = l'.
Proof.
  intros Hl Hl' Hv.
  pose proof Hl as (Hne & Hall & _). pose proof Hl' as (Hne' & Hall' & _).
  assert (Hpos : ∀ k : list byte, k ≠ [] → 1 ≤ 10 ^ (Z.of_nat (length k) - 1)).
  { intros k Hk. destruct k; [done|]. simpl length.
    pose proof (Z.pow_pos_nonneg 10 (Z.of_nat (S (length k)) - 1)). lia. }
  destruct (decimal_numeral_value l Hl) as [->|Hr];
    destruct (decimal_numeral_value l' Hl') as [->|Hr']; try done.
  - specialize (Hpos l' Hne'). change (decimal_value ["0"%byte]) with 0 in Hv. lia.
  - specialize (Hpos l Hne). change (decimal_value ["0"%byte]) with 0 in Hv. lia.
  - apply decimal_value_same_length; try done.
    rewrite Hv in Hr.
    destruct (decide (length l = length l')) as [|Hdiff]; [done|]. exfalso.
    destruct (decide (length l < length l')%nat).
    + assert (10 ^ Z.of_nat (length l) ≤ 10 ^ (Z.of_nat (length l') - 1))
        by (apply Z.pow_le_mono_r; lia). lia.
    + assert (10 ^ Z.of_nat (length l') ≤ 10 ^ (Z.of_nat (length l) - 1))
        by (apply Z.pow_le_mono_r; lia). lia.
Qed.

Lemma length_format_hdr timebuf msg_len :
  length (format_hdr timebuf msg_len) =
  (85 + length timebuf + length (print_zu msg_len))%nat.
Proof.
  unfold format_hdr. rewrite !length_app. simpl. lia.
Qed.

Lemma encode_hdr_fits timebuf msg_len :
  (length timebuf < 128)%nat → 0 ≤ msg_len < 2 ^ 64 →
  encode_hdr timebuf msg_len =
    Went_on (format_hdr timebuf msg_len,
             Z.of_nat (length (format_hdr timebuf msg_len))) ∧
  Z.of_nat (length (format_hdr timebuf msg_len)) ≤ 232 ∧
  decimal_value (print_zu msg_len) = msg_len ∧
  (1 ≤ length (print_zu msg_len) ≤ 20)%nat.
Proof.
  intros Ht Hn.
  assert (Hd : (1 ≤ length (print_zu msg_len) ≤ 20)%nat).
  { pose proof (length_print_digits 20 msg_len [] ltac:(lia)) as Hd.
    unfold print_zu. change (length (@nil byte)) with 0%nat in Hd. lia. }
  pose proof (length_format_hdr timebuf msg_len) as Hlen.
  split.
  { unfold encode_hdr. cbv zeta.
    rewrite decide_False by (unfold HTTP_HDRMAX; lia).
    rewrite take_ge; [done|]. unfold HTTP_HDRMAX. lia. }
  split; [lia|]. split; [|lia].
  apply decimal_value_print_digits. lia.
Qed.

(** X13.  [encode_hdr] never finds the header too long: for every date
    text that fits the 128 bytes of [timebuf] and every body length of a
    64-bit [size_t], the header is the whole formatted text, shorter than
    [HTTP_HDRMAX], [hdr_len] is its length, and the bytes after
    [Content-Length: ] are the decimal numeral of [msg_len]: between one
    and twenty digits, no zero in front of another digit, of value
    [msg_len], and the only sequence of bytes that is all this. *)
Theorem header_fits_its_buffer timebuf msg_len :
  (length timebuf < 128)%nat → 0 ≤ msg_len < 2 ^ 64 →
  ∃ digits,
    encode_hdr timebuf msg_len =
      Went_on (format_hdr timebuf msg_len,
               Z.of_nat (length (format_hdr timebuf msg_len))) ∧
    Z.of_nat (length (format_hdr timebuf msg_len)) ≤ 232 ∧
    format_hdr timebuf msg_len =
      status_line ++ crlf ++ content_type ++ crlf ++
      date_field ++ timebuf ++ crlf ++
      content_length_field ++ digits ++ crlf ++ crlf ∧
    decimal_numeral digits ∧
    decimal_value digits = msg_len ∧
    (1 ≤ length digits ≤ 20)%nat ∧
    (∀ l, decimal_numeral l → decimal_value l = msg_len → l = digits).
Proof.
  intros Ht Hn. exists (print_zu msg_len).
  destruct (encode_hdr_fits timebuf msg_len Ht Hn) as (He & Hl & Hv & Hd).
  pose proof (print_zu_numeral msg_len Hn) as Hnum.
  do 3 (split; [done|]). split; [exact Hnum|]. split; [exact Hv|].
  split; [exact Hd|].
  intros l Hl' Hv'. apply decimal_numeral_unique; [done|done|congruence].
Qed.



Lemma load_loop_past_the_start tries : ∀ f calls offset c,
  (∀ k, (calls ≤ k)%nat → history f k = Some c) →
  c ≠ [] → (1 ≤ offset)%nat →
  load_loop tries f calls offset = Ended aborted_size.
Proof.
  induction tries as [|tries IH]; intros f calls offset c Hst Hc Hoff;
    simpl; rewrite !Hst by lia; [done|].
  assert (Hshort : length (take (length c) (drop offset c)) ≠ length c).
  { assert (1 ≤ length c)%nat by (destruct c; [done|simpl; lia]).
    rewrite length_take, length_drop. lia. }
  rewrite decide_True by done.
  apply (IH _ _ _ c); [|done|lia].
  intros k Hk. apply Hst. lia.
Qed.

Lemma load_loop_step tries f calls offset at_stat at_read :
  history f calls = Some at_stat → history f (S calls) = Some at_read →
  load_loop (S tries) f calls offset =
    let got := take (length at_stat) (drop offset at_read) in
    if decide (length got ≠ length at_stat)
    then load_loop tries f (S (S calls)) (offset + length got)
    else Went_on (got ++ replicate (S (length at_stat) - length got) x00,
                  Z.of_nat (length at_stat)).
Proof. intros Hs Hr. simpl. by rewrite Hs, Hr. Qed.

(** X15.  [load_file] never repositions the descriptor, so its retries do
    not start over: when the first [read] comes short after delivering at
    least one byte (the file changed between [fstat] and [read]) and the
    file, not empty, then stays as it is, none of the later attempts can
    read it whole and the program aborts at the eleventh. *)
Theorem short_read_is_never_made_good f timebuf c0 c1 c :
  found f = true →
  history f 0 = Some c0 → history f 1 = Some c1 →
  (0 < length (take (length c0) c1) < length c0)%nat →
  (∀ k, (2 ≤ k)%nat → history f k = Some c) → c ≠ [] →
  load_file f timebuf = Ended aborted_size.
Proof.
  intros Hf H0 H1 Hshort Hst Hc. unfold load_file. rewrite Hf.
  rewrite (load_loop_step 9 f 0 0 c0 c1 H0 H1). cbv zeta. rewrite drop_0.
  rewrite decide_True by lia.
  by rewrite (load_loop_past_the_start 9 f 2 _ c Hst Hc) by lia.
Qed.
(** ** Every allocated record is on a list *)

Lemma same_links_allocated w w' p :
  same_links w w' → is_Some (deref p w') ↔ is_Some (deref p w).
Proof.
  intros (_ & _ & Hn). specialize (Hn p). unfold next_of in Hn.
  rewrite <- !(fmap_is_Some next). by rewrite Hn.
Qed.

Lemma load_next_allocated p w v :
  load (next_loc p) w = Some v → is_Some (deref p w).
Proof. simpl. destruct (deref p w); [eauto|done]. Qed.

Lemma loc_at_or_not p prev : next_loc p = prev ∨ next_loc p ≠ prev.
Proof.
  destruct prev as [| |q]; [by right|by right|].
  destruct (decide (p = q)) as [->|Hne]; [by left|right; congruence].
Qed.

Lemma NoDup_middle (l1 l2 : list ptr) x :
  NoDup (l1 ++ x :: l2) → x ∉ l1 ++ l2.
Proof.
  rewrite <- Permutation_middle. by intros [? _]%NoDup_cons.
Qed.

Lemma freed_allocated w w' rs ws prev s pre curr rest c p :
  well_formed w rs ws → at_cursor prev s pre (curr :: rest) rs ws →
  deref curr w = Some c → freed curr prev c w w' →
  is_Some (deref p w') ↔ is_Some (deref p w) ∧ p ≠ curr.
Proof.
  intros Hwf Hcur Hc Hfr.
  pose proof (at_cursor_load _ _ _ _ _ _ _ Hwf Hcur) as Hload. simpl in Hload.
  assert (Hnx : next c ≠ Some curr).
  { destruct Hcur as [_ Hside]. destruct Hwf as (Hrs & Hws & Hnd).
    assert (∃ hd, seg w hd (pre ++ curr :: rest) None ∧
                  NoDup (pre ++ curr :: rest)) as (hd & Hseg & Hnd').
    { destruct s; simpl in Hside; rewrite <- Hside.
      - exists (reader_head w). split; [done|].
        by apply NoDup_app in Hnd as (? & _ & _).
      - exists (writer_head w). split; [done|].
        by apply NoDup_app in Hnd as (_ & _ & ?). }
    destruct (seg_at_cursor _ _ _ _ _ Hseg Hnd') as (nx & _ & Hn & _ & Hne & _).
    unfold next_of in Hn. rewrite Hc in Hn. simpl in Hn. congruence. }
  destruct (decide (p = curr)) as [->|Hp].
  { rewrite (fr_gone _ _ _ _ _ Hfr). split; [by intros [? ?]|by intros [_ ?]]. }
  destruct (loc_at_or_not p prev) as [<-|Hpp].
  - split.
    + intros _. split; [by eapply load_next_allocated|done].
    + intros _. eapply load_next_allocated.
      exact (fr_unlinked _ _ _ _ _ Hfr Hnx).
  - rewrite (fr_others _ _ _ _ _ Hfr p Hp Hpp). tauto.
Qed.

Lemma moved_allocated w w' prev curr c p :
  linked_at curr prev c w → moved_to_writers curr prev c w w' →
  is_Some (deref p w') ↔ is_Some (deref p w).
Proof.
  intros (Hc & Hload & _) Hmv.
  destruct (decide (p = curr)) as [->|Hp].
  { rewrite (mtw_record _ _ _ _ _ Hmv), Hc. split; eauto. }
  destruct (loc_at_or_not p prev) as [<-|Hpp].
  - split; intros _; eapply load_next_allocated; [exact Hload|].
    exact (mtw_unlinked _ _ _ _ _ Hmv).
  - by rewrite (mtw_others _ _ _ _ _ Hmv p Hp Hpp).
Qed.

Lemma no_stray_free w w' rs ws prev s pre curr rest c :
  well_formed w rs ws → at_cursor prev s pre (curr :: rest) rs ws →
  deref curr w = Some c → freed curr prev c w w' → no_stray w rs ws →
  no_stray w'
    (match s with readers => pre ++ rest | writers => rs end)
    (match s with readers => ws | writers => pre ++ rest end).
Proof.
  intros Hwf Hcur Hc Hfr Hns p.
  rewrite (freed_allocated _ _ _ _ _ _ _ _ _ _ p Hwf Hcur Hc Hfr), (Hns p).
  destruct Hwf as (_ & _ & Hnd). destruct Hcur as [_ Hside].
  destruct s; simpl in Hside; subst.
  - rewrite <- app_assoc in Hnd. simpl in Hnd.
    apply NoDup_middle in Hnd.
    rewrite <- !app_assoc. simpl.
    rewrite ?elem_of_app, ?elem_of_cons, ?elem_of_app in *. split; [tauto|].
    intros Hin. split; [tauto|]. intros ->. tauto.
  - rewrite app_assoc in Hnd. apply NoDup_middle in Hnd.
    rewrite ?elem_of_app, ?elem_of_cons, ?elem_of_app in *. split; [tauto|].
    intros Hin. split; [tauto|]. intros ->. tauto.
Qed.

Lemma no_stray_move w w' rs ws prev s pre curr rest c :
  well_formed w rs ws → at_cursor prev s pre (curr :: rest) rs ws →
  linked_at curr prev c w → moved_to_writers curr prev c w w' →
  no_stray w rs ws →
  no_stray w'
    (match s with readers => pre ++ rest | writers => rs end)
    (match s with
     | readers => curr :: ws
     | writers => curr :: pre ++ rest
     end).
Proof.
  intros Hwf Hcur Hl Hmv Hns p.
  rewrite (moved_allocated _ _ _ _ _ p Hl Hmv), (Hns p).
  destruct Hcur as [_ Hside].
  destruct s; simpl in Hside; subst;
    rewrite ?elem_of_app, ?elem_of_cons, ?elem_of_app; tauto.
Qed.

Lemma no_stray_same_links w w' rs ws :
  same_links w w' → no_stray w rs ws → no_stray w' rs ws.
Proof.
  intros Hl Hns p. rewrite (same_links_allocated _ _ p Hl). apply Hns.
Qed.

(** A traversal from well-formed lists that hold every allocated record
    ends, or aborts; when it ends the lists are well formed and hold every
    allocated record. *)
Lemma traversal_tidy moves fds foreach timeout :
  handler_spec moves foreach →
  ∀ n m w prev s pre rest rs ws,
    (pending_input w ≤ n)%nat → (length rest ≤ m)%nat →
    well_formed w rs ws → at_cursor prev s pre rest rs ws →
    (moves = true → s = writers → pre ≠ []) →
    no_stray w rs ws →
    ∃ r, runs fds foreach timeout prev w r ∧
         ∀ w', r = Some w' →
               ∃ rs' ws', well_formed w' rs' ws' ∧ no_stray w' rs' ws'.
Proof.
  intros Hspec.
  assert (Hend : ∀ w prev s pre rs ws,
    well_formed w rs ws → at_cursor prev s pre [] rs ws →
    no_stray w rs ws →
    ∃ r, runs fds foreach timeout prev w r ∧
         ∀ w', r = Some w' →
               ∃ rs' ws', well_formed w' rs' ws' ∧ no_stray w' rs' ws').
  { intros w prev s pre rs ws Hwf Hcur Hns.
    pose proof (at_cursor_load _ _ _ _ _ _ _ Hwf Hcur) as Hload.
    exists (Some w). split; [|intros w' [= <-]; eauto].
    apply runs_end. unfold process_step. by rewrite Hload. }
  induction n as [n IHn] using lt_wf_ind.
  induction m as [|m IHm];
    intros w prev s pre rest rs ws Hpend Hlen Hwf Hcur Hside Hns.
  { destruct rest; [by eapply Hend|simpl in Hlen; lia]. }
  destruct rest as [|curr rest]; [by eapply Hend|]. simpl in Hlen.
  pose proof (at_cursor_load _ _ _ _ _ _ _ Hwf Hcur) as Hload.
  simpl in Hload.
  destruct (process_step fds foreach timeout prev w) as [[k w']|] eqn:Hstep.
  2: { exists None. split; [by apply runs_abort|done]. }
  destruct (process_step_turn _ _ _ _ _ _ _ _ _ Hspec Hload Hstep)
    as [(w0 & c0 & -> & Hl0 & Hp0 & Hc0 & Hfr)
       |[(-> & Hl' & Hp')
        |(Hmv & -> & w0 & c0 & w1 & Hl0 & Hp0 & Hc0 & Hdo & Hl1 & Hp1)]].
  - (* the record was released *)
    pose proof (well_formed_same_links _ _ _ _ Hl0 Hwf) as Hwf0.
    pose proof (no_stray_same_links _ _ _ _ Hl0 Hns) as Hns0.
    destruct (well_formed_free _ _ _ _ _ _ _ _ _ _ Hwf0 Hcur Hc0 Hfr)
      as [Hwf' Hcur'].
    pose proof (no_stray_free _ _ _ _ _ _ _ _ _ _ Hwf0 Hcur Hc0 Hfr Hns0)
      as Hns'.
    assert (Hpw : pending_input w' = pending_input w0).
    { apply frame_pending. by rewrite (fr_sys _ _ _ _ _ Hfr). }
    edestruct (IHm w' prev s pre rest) as (r & Hruns & Hfinal);
      [| |exact Hwf'|exact Hcur'|exact Hside|exact Hns'|]; [lia|lia|].
    exists r. split; [|done]. eapply runs_step; [exact Hstep|exact Hruns].
  - (* the record stays *)
    pose proof (well_formed_same_links _ _ _ _ Hl' Hwf) as Hwf'.
    pose proof (no_stray_same_links _ _ _ _ Hl' Hns) as Hns'.
    edestruct (IHm w' (next_loc curr) s (pre ++ [curr]) rest rs ws)
      as (r & Hruns & Hfinal); [| |exact Hwf'| | |exact Hns'|]; [lia|lia| | |].
    + eapply at_cursor_advance. exact Hcur.
    + intros _ _. by destruct pre.
    + exists r. split; [|done]. eapply runs_step; [exact Hstep|exact Hruns].
  - (* the record moved to the writer list *)
    pose proof (well_formed_same_links _ _ _ _ Hl0 Hwf) as Hwf0.
    pose proof (no_stray_same_links _ _ _ _ Hl0 Hns) as Hns0.
    pose proof (cursor_linked_at _ _ _ _ _ _ _ _ _ Hwf0 Hcur (Hside Hmv) Hc0)
      as Hlinked.
    destruct (do_get_moves _ _ _ _ Hlinked) as (w1' & Hdo' & Hmoved).
    assert (w1' = w1) by congruence. subst w1'.
    destruct (well_formed_move _ _ _ _ _ _ _ _ _ _ Hwf0 Hcur (Hside Hmv) Hc0 Hmoved)
      as [Hwf1 Hcur1].
    pose proof (no_stray_move _ _ _ _ _ _ _ _ _ _ Hwf0 Hcur Hlinked Hmoved Hns0)
      as Hns1.
    pose proof (well_formed_same_links _ _ _ _ Hl1 Hwf1) as Hwf'.
    pose proof (no_stray_same_links _ _ _ _ Hl1 Hns1) as Hns'.
    assert (Hpw : pending_input w1 = pending_input w0).
    { apply frame_pending. by rewrite (mtw_sys _ _ _ _ _ Hmoved). }
    assert (Hlt : (pending_input w' < n)%nat) by lia.
    edestruct (IHn (pending_input w') Hlt) as (r & Hruns & Hfinal);
      [apply Nat.le_refl|apply Nat.le_refl|exact Hwf'|exact Hcur1|done
      |exact Hns'|].
    exists r. split; [|done]. eapply runs_step; [exact Hstep|exact Hruns].
Qed.

Lemma runs_result fds foreach timeout prev w r fuel w' :
  runs fds foreach timeout prev w r →
  process_loop fuel fds foreach timeout prev w = Some w' → r = Some w'.
Proof.
  intros Hruns Hloop. apply runs_process_loop in Hruns.
  destruct r as [w''|].
  - destruct Hruns as [fuel' Hloop']. f_equal.
    eapply process_loop_agree; [exact Hloop'|exact Hloop].
  - rewrite Hruns in Hloop. done.
Qed.

Lemma accept_step_tidy listen_fd w wa rs ws :
  well_formed w rs ws → no_stray w rs ws →
  accept_step listen_fd w = Some wa →
  ∃ rs', well_formed wa rs' ws ∧ no_stray wa rs' ws.
Proof.
  intros Hwf Hns Ha.
  destruct (accept_step_well_formed listen_fd _ _ _ Hwf)
    as (wa' & rs' & Ha' & Hwfa).
  assert (wa' = wa) as -> by congruence. clear Ha'.
  exists rs'. split; [done|].
  apply accept_step_inv in Ha as [->|Hacc].
  { destruct Hwf as (Hrs & _ & _), Hwfa as (Hrs' & _ & _).
    by rewrite (seg_det _ _ _ _ Hrs' Hrs). }
  apply client_accept_inv in Hacc
    as [(Hh & _ & _ & _ & _ & Hrh & Hwh)
       |(d & rest & _ & _ & Hh & _ & _ & _ & _ & Hrh & Hwh)].
  - assert (Hsl : same_links w wa) by (by apply frame_same_links).
    pose proof (well_formed_same_links _ _ _ _ Hsl Hwf) as (Hrs & _ & _).
    destruct Hwfa as (Hrs' & _ & _).
    rewrite (seg_det _ _ _ _ Hrs' Hrs).
    by apply (no_stray_same_links w).
  - set (new := calloc w) in *.
    pose proof (calloc_fresh w) as Hfresh. fold new in Hfresh.
    destruct Hwf as (Hrs & Hws & Hnd), Hwfa as (Hrs' & _ & _).
    rewrite Hrh in Hrs'.
    destruct rs' as [|a l]; [done|].
    simpl in Hrs'. destruct Hrs' as ([= <-] & nx & Hnx & Hl).
    unfold next_of, deref in Hnx. rewrite Hh, lookup_insert_eq in Hnx.
    simpl in Hnx. injection Hnx as <-.
    assert (Hrsa : seg wa (reader_head w) rs None).
    { eapply seg_same; [|exact Hrs]. intros b Hb.
      unfold next_of, deref. rewrite Hh, lookup_insert_ne; [done|].
      intros <-. destruct (seg_allocated _ _ _ _ _ Hrs Hb) as [? ?].
      congruence. }
    rewrite (seg_det _ _ _ _ Hl Hrsa).
    intros p. unfold deref. rewrite Hh. simpl. rewrite elem_of_cons.
    destruct (decide (p = new)) as [->|Hp].
    + rewrite lookup_insert_eq. split; [by left|eauto].
    + rewrite lookup_insert_ne by done. rewrite <- (Hns p).
      unfold deref. split; [by right|]. by intros [?|?].
Qed.

(** X17.  From well-formed lists that hold every allocated record, a
    turn of the main loop that returns leaves well-formed lists that hold
    every allocated record: a record taken off a list is released, a
    record that is allocated is put on a list, a record that changes lists
    is on one of them. *)
Theorem every_record_stays_on_a_list
    fuel listen_fd ready_r ready_w now w w' rs ws :
  well_formed w rs ws → no_stray w rs ws →
  main_turn fuel listen_fd ready_r ready_w now w = Some w' →
  ∃ rs' ws', well_formed w' rs' ws' ∧ no_stray w' rs' ws'.
Proof.
  intros Hwf Hns Hturn. unfold main_turn in Hturn.
  set (ws0 := sys_select ready_r ready_w now w) in *.
  assert (Hsl : same_links w ws0) by (by apply frame_same_links).
  apply (well_formed_same_links _ _ _ _ Hsl) in Hwf.
  apply (no_stray_same_links _ _ _ _ Hsl) in Hns.
  apply after_select_inv in Hturn as (wa & wr & Ha & Hr & Hw).
  destruct (accept_step_tidy _ _ _ _ _ Hwf Hns Ha) as (rs1 & Hwfa & Hnsa).
  set (w0 := with_youngest INT_MAX (FD_SET listen_fd rfds_ptr wa)) in *.
  assert (Hsl0 : same_links wa w0) by (by apply frame_same_links).
  apply (well_formed_same_links _ _ _ _ Hsl0) in Hwfa.
  apply (no_stray_same_links _ _ _ _ Hsl0) in Hnsa.
  destruct (traversal_tidy true rfds_ptr client_read
              (sys_time w0 - HTTP_TIMEOUT) client_read_spec
              (pending_input w0) (length rs1) w0 reader_head_loc readers []
              rs1 rs1 ws) as (r1 & Hr1 & Hf1); try done.
  pose proof (runs_result _ _ _ _ _ _ _ _ Hr1 Hr) as ->.
  destruct (Hf1 wr eq_refl) as (rs2 & ws2 & Hwfr & Hnsr).
  destruct (traversal_tidy false wfds_ptr client_write
              (sys_time wr - HTTP_TIMEOUT) client_write_spec
              (pending_input wr) (length ws2) wr writer_head_loc writers []
              ws2 rs2 ws2) as (r2 & Hr2 & Hf2); try done.
  pose proof (runs_result _ _ _ _ _ _ _ _ Hr2 Hw) as ->.
  exact (Hf2 w' eq_refl).
Qed.

(** ** [dump_list] *)

Lemma dump_list_seg w l : ∀ head fuel,
  seg w head l None → (length l < fuel)%nat →
  ∃ ds, dump_list fuel head w = Some ds ∧
        Forall2 (λ a d, fd <$> deref a w = Some d) l ds.
Proof.
  induction l as [|a l IH]; intros head fuel Hseg Hfuel.
  { simpl in Hseg. subst head. destruct fuel; [simpl in Hfuel; lia|].
    exists []. split; [done|]. constructor. }
  destruct Hseg as (-> & nx & Hnx & Hseg).
  destruct fuel as [|fuel]; [simpl in Hfuel; lia|].
  unfold next_of in Hnx. destruct (deref a w) as [c|] eqn:Hc; [|done].
  injection Hnx as <-.
  destruct (IH (next c) fuel Hseg) as (ds & Hds & Hall);
    [simpl in Hfuel; lia|].
  exists (fd c :: ds). split.
  - simpl. rewrite Hc. cbn [mbind option_bind]. by rewrite Hds.
  - constructor; [by rewrite Hc|done].
Qed.

Lemma dump_list_ends w fuel : ∀ head ds,
  dump_list fuel head w = Some ds →
  ∃ l, seg w head l None ∧ length l = length ds.
Proof.
  induction fuel as [|fuel IH]; intros head ds H; [done|].
  simpl in H. destruct head as [p|].
  2: { injection H as <-. by exists []. }
  apply bind_Some in H as (c & Hc & H).
  apply bind_Some in H as (l' & Hl & [= <-]).
  destruct (IH _ _ Hl) as (l & Hseg & Hlen).
  exists (p :: l). split; [|simpl; by rewrite Hlen].
  split; [done|]. exists (next c). split; [|done].
  unfold next_of. by rewrite Hc.
Qed.

(** X18.  [dump_list] returns exactly on the lists that end in [NULL]:
    on the two lists of a well-formed world it stops after as many turns
    as there are records and prints their descriptors in the order of the
    list; and whenever it returns, the list it walked ends in [NULL]
    after as many records as it printed descriptors. *)
Theorem dump_list_prints_the_list w rs ws :
  well_formed w rs ws →
  (∀ fuel, (length rs < fuel)%nat →
     ∃ ds, dump_list fuel (reader_head w) w = Some ds ∧
           Forall2 (λ a d, fd <$> deref a w = Some d) rs ds) ∧
  (∀ fuel, (length ws < fuel)%nat →
     ∃ ds, dump_list fuel (writer_head w) w = Some ds ∧
           Forall2 (λ a d, fd <$> deref a w = Some d) ws ds) ∧
  (∀ fuel head ds, dump_list fuel head w = Some ds →
     ∃ l, seg w head l None ∧ length l = length ds).
Proof.
  intros (Hrs & Hws & _). split; [|split].
  - intros fuel Hf. by apply dump_list_seg.
  - intros fuel Hf. by apply dump_list_seg.
  - intros fuel head ds. apply dump_list_ends.
Qed.

(** ** The reader traversal never aborts *)

(** [client_read] for the record at [*prev] never aborts: it returns 0
    with the record still at [*prev], or 1 with the record allocated. *)
Lemma client_read_total cl prev c w :
  linked_at cl prev c w →
  ∃ r w1 c1, client_read cl prev w = Some (r, w1) ∧
    deref cl w1 = Some c1 ∧ fd c1 = fd c ∧
    (r = 0 → load prev w1 = Some (Some cl)).
Proof.
  intros Hl. pose proof Hl as (Hc & Hp & _).
  destruct (inbound_cases (inbound (sys w)) (fd c)) as [Hno|(ch & q & Hin & Hne)].
  { rewrite (client_read_nodata cl prev w c Hc Hno).
    eexists 0, _, c. split; [done|]. split; [done|]. split; [done|].
    intros _. by destruct prev. }
  destruct (client_read_any cl prev w c ch q Hc Hin Hne) as [_ Hany].
  cbv zeta in Hany. rewrite Hany. clear Hany.
  set (m := <[fd c := match drop HTTP_BUFSIZE ch with
                     | [] => q | r => r :: q end]> (inbound (sys w))).
  destruct (recognize (state c) (take HTTP_BUFSIZE ch)) as [s| |s].
  - destruct (linked_at_reading cl prev c s m w Hl) as (Hc1 & Hp1 & _).
    eexists 0, _, _. split; [done|]. split; [exact Hc1|]. by split.
  - destruct (do_get_moves _ _ _ _ (linked_at_reading cl prev c 5 m w Hl))
      as (w2 & Hdo & Hmv).
    rewrite Hdo. eexists 1, w2, _. split; [done|].
    split; [exact (mtw_record _ _ _ _ _ Hmv)|]. split; [done|]. lia.
  - destruct (linked_at_reading cl prev c s m w Hl) as (Hc1 & Hp1 & _).
    eexists 1, _, _. split; [done|]. split; [exact Hc1|]. split; [done|]. lia.
Qed.

(** A turn of the reader traversal at a record of well-formed lists whose
    descriptors are open does not abort. *)
Lemma reader_step_total timeout w rs ws prev s pre curr rest :
  well_formed w rs ws → at_cursor prev s pre (curr :: rest) rs ws →
  (s = writers → pre ≠ []) → descriptors_open w →
  is_Some (process_step rfds_ptr client_read timeout prev w).
Proof.
  intros Hwf Hcur Hside Hopen.
  pose proof (at_cursor_load _ _ _ _ _ _ _ Hwf Hcur) as Hp. simpl in Hp.
  assert (Hin : curr ∈ rs ++ ws).
  { destruct Hcur as [_ Hs]. destruct s; simpl in Hs; subst;
      rewrite !elem_of_app, elem_of_cons; tauto. }
  assert (∃ c, deref curr w = Some c) as [c Hc].
  { destruct Hwf as (Hrs & Hws & _).
    apply elem_of_app in Hin as [Hin|Hin].
    - by destruct (seg_allocated _ _ _ _ _ Hrs Hin) as [c ?]; exists c.
    - by destruct (seg_allocated _ _ _ _ _ Hws Hin) as [c ?]; exists c. }
  pose proof (Hopen _ _ Hc) as Hfd.
  rewrite (process_step_unfold _ _ _ _ _ _ _ Hp Hc). cbv zeta.
  set (wy := note_youngest c w).
  assert (Hpy : load prev wy = Some (Some curr))
    by (unfold wy; by rewrite load_note_youngest).
  assert (Hcy : deref curr wy = Some c)
    by (unfold wy; by rewrite deref_note_youngest).
  destruct (decide (last c ≤ timeout)).
  { destruct (closed_at curr prev c wy (log_closing_timeout (fd c)) Hpy Hcy Hfd)
      as (w' & -> & _). by eexists. }
  destruct (FD_ISSET (fd c) rfds_ptr wy); [|by eexists].
  pose proof (cursor_linked_at _ _ _ _ _ _ _ _ _ Hwf Hcur Hside Hc) as Hl.
  apply (linked_at_note_youngest _ _ _ c) in Hl. fold wy in Hl.
  destruct (client_read_total curr prev c wy Hl)
    as (r & w1 & c1 & -> & Hc1 & Hfd1 & Hr0).
  cbn [mbind option_bind]. rewrite Hc1. cbn [mbind option_bind].
  destruct (decide (r = 0)) as [Hr|Hr]; [|by eexists].
  destruct (closed_at curr prev c1 w1 (log_closing_disconnect (fd c1)))
    as (w' & -> & _); [by apply Hr0|done|congruence|]. by eexists.
Qed.

Lemma descriptors_open_step fds foreach timeout prev w k w' :
  (foreach = client_read ∨ foreach = client_write) →
  process_step fds foreach timeout prev w = Some (k, w') →
  descriptors_open w → descriptors_open w'.
Proof.
  intros Hh Hstep Hopen.
  set (P := descriptors_open).
  assert (∀ p f w1 w2, (∀ c, fd (f c) = fd c) → upd p f w1 = Some w2 →
            P w1 → P w2) as P_upd.
  { intros p f w1 w2 Hf Hu HP q c' Hq.
    pose proof (upd_fd _ _ _ _ q Hu Hf) as Hfd. rewrite Hq in Hfd.
    destruct (deref q w1) as [c0|] eqn:Hq0; [|done].
    simpl in Hfd. injection Hfd as ->. by eapply HP. }
  assert (∀ cl c w1, deref cl w1 = Some c → fd c ≠ -1 → P w1 →
            P (with_heap (delete cl)
                 (FD_CLR (fd c) wfds_ptr
                    (FD_CLR (fd c) rfds_ptr (sys_close (fd c) w1))))) as P_free.
  { intros cl c w1 _ _ HP q c' Hq. unfold deref in Hq. simpl in Hq.
    apply lookup_delete_Some in Hq as [_ Hq]. by eapply HP. }
  eapply (process_step_preserves P fds foreach timeout);
    [..|exact Hopen|exact Hstep].
  - intros c w0 HP. unfold note_youngest. by case_decide.
  - done.
  - intros cl prev0 w0 w0' HP Hfr.
    eapply (client_free_keeps P); try exact Hfr; done.
  - intros cl prev0 w0 r w0' HP Hf. destruct Hh as [-> | ->].
    + eapply (client_read_keeps P); try exact Hf; try done.
      all: intros ? s ? _ ?; by destruct s.
    + eapply (client_write_keeps P); try exact Hf; done.
  - intros p c w0 HP _. by destruct fds.
Qed.

(** The reader traversal from well-formed lists whose descriptors are
    open: it ends, in well-formed lists whose descriptors are open. *)
Lemma reader_traversal_total timeout :
  ∀ n m w prev s pre rest rs ws,
    (pending_input w ≤ n)%nat → (length rest ≤ m)%nat →
    well_formed w rs ws → at_cursor prev s pre rest rs ws →
    (s = writers → pre ≠ []) → descriptors_open w →
    ∃ w' rs' ws', runs rfds_ptr client_read timeout prev w (Some w') ∧
                  well_formed w' rs' ws' ∧ descriptors_open w'.
Proof.
  pose proof client_read_spec as Hspec.
  assert (Hend : ∀ w prev s pre rs ws,
    well_formed w rs ws → at_cursor prev s pre [] rs ws →
    descriptors_open w →
    ∃ w' rs' ws', runs rfds_ptr client_read timeout prev w (Some w') ∧
                  well_formed w' rs' ws' ∧ descriptors_open w').
  { intros w prev s pre rs ws Hwf Hcur Hopen.
    pose proof (at_cursor_load _ _ _ _ _ _ _ Hwf Hcur) as Hload.
    exists w, rs, ws. split; [|done].
    apply runs_end. unfold process_step. by rewrite Hload. }
  induction n as [n IHn] using lt_wf_ind.
  induction m as [|m IHm];
    intros w prev s pre rest rs ws Hpend Hlen Hwf Hcur Hside Hopen.
  { destruct rest; [by eapply Hend|simpl in Hlen; lia]. }
  destruct rest as [|curr rest]; [by eapply Hend|]. simpl in Hlen.
  pose proof (at_cursor_load _ _ _ _ _ _ _ Hwf Hcur) as Hload.
  simpl in Hload.
  destruct (reader_step_total timeout w rs ws prev s pre curr rest Hwf Hcur
              Hside Hopen) as [[k w'] Hstep].
  pose proof (descriptors_open_step _ _ _ _ _ _ _ (or_introl eq_refl)
                Hstep Hopen) as Hopen'.
  destruct (process_step_turn _ _ _ _ _ _ _ _ _ Hspec Hload Hstep)
    as [(w0 & c0 & -> & Hl0 & Hp0 & Hc0 & Hfr)
       |[(-> & Hl' & Hp')
        |(_ & -> & w0 & c0 & w1 & Hl0 & Hp0 & Hc0 & Hdo & Hl1 & Hp1)]].
  - pose proof (well_formed_same_links _ _ _ _ Hl0 Hwf) as Hwf0.
    destruct (well_formed_free _ _ _ _ _ _ _ _ _ _ Hwf0 Hcur Hc0 Hfr)
      as [Hwf' Hcur'].
    assert (Hpw : pending_input w' = pending_input w0).
    { apply frame_pending. by rewrite (fr_sys _ _ _ _ _ Hfr). }
    edestruct (IHm w' prev s pre rest) as (w'' & rs' & ws' & Hruns & Hfinal);
      [| |exact Hwf'|exact Hcur'|exact Hside|exact Hopen'|]; [lia|lia|].
    exists w'', rs', ws'. split; [|done].
    eapply runs_step; [exact Hstep|exact Hruns].
  - pose proof (well_formed_same_links _ _ _ _ Hl' Hwf) as Hwf'.
    edestruct (IHm w' (next_loc curr) s (pre ++ [curr]) rest rs ws)
      as (w'' & rs' & ws' & Hruns & Hfinal);
      [| |exact Hwf'| | |exact Hopen'|]; [lia|lia| | |].
    + eapply at_cursor_advance. exact Hcur.
    + intros _. by destruct pre.
    + exists w'', rs', ws'. split; [|done].
      eapply runs_step; [exact Hstep|exact Hruns].
  - pose proof (well_formed_same_links _ _ _ _ Hl0 Hwf) as Hwf0.
    pose proof (cursor_linked_at _ _ _ _ _ _ _ _ _ Hwf0 Hcur Hside Hc0)
      as Hlinked.
    destruct (do_get_moves _ _ _ _ Hlinked) as (w1' & Hdo' & Hmoved).
    assert (w1' = w1) by congruence. subst w1'.
    destruct (well_formed_move _ _ _ _ _ _ _ _ _ _ Hwf0 Hcur Hside Hc0 Hmoved)
      as [Hwf1 Hcur1].
    pose proof (well_formed_same_links _ _ _ _ Hl1 Hwf1) as Hwf'.
    assert (Hpw : pending_input w1 = pending_input w0).
    { apply frame_pending. by rewrite (mtw_sys _ _ _ _ _ Hmoved). }
    assert (Hlt : (pending_input w' < n)%nat) by lia.
    edestruct (IHn (pending_input w') Hlt) as (w'' & rs' & ws' & Hruns & Hfinal);
      [apply Nat.le_refl|apply Nat.le_refl|exact Hwf'|exact Hcur1|done
      |exact Hopen'|].
    exists w'', rs', ws'. split; [|done].
    eapply runs_step; [exact Hstep|exact Hruns].
Qed.

(** X19.  From well-formed lists whose records all have an open
    descriptor, the reader traversal never aborts, whatever arrives on the
    connections and also when it goes on in the writer list after a
    request is complete: with enough fuel it returns, with the lists well
    formed and every record left with an open descriptor.  What bounds its
    length is the number of readers and the input pending. *)
Theorem reader_traversal_completes w rs ws :
  well_formed w rs ws → descriptors_open w →
  ∃ fuel w' rs' ws',
    (∀ fuel', (fuel ≤ fuel')%nat → process_readers fuel' w = Some w') ∧
    well_formed w' rs' ws' ∧ descriptors_open w'.
Proof.
  intros Hwf Hopen.
  destruct (reader_traversal_total (sys_time w - HTTP_TIMEOUT)
              (pending_input w) (length rs) w reader_head_loc readers []
              rs rs ws) as (w' & rs' & ws' & Hruns & Hwf' & Hopen');
    try done.
  apply runs_process_loop in Hruns as [fuel Hloop].
  exists fuel, w', rs', ws'. split; [|done].
  intros fuel' Hle. unfold process_readers, process_generic.
  by eapply process_loop_more.
Qed.
(** ** The further properties at concrete worlds *)

Lemma fd_max_covers_every_descriptor_witness :
  ∃ w', main_turn 4 3 {[3]} ∅ 10 two_pending = Some w' ∧
        covered 3 w' ∧ fd_max two_pending ≤ fd_max w'.
Proof.
  eexists. split; [vm_compute; reflexivity|].
  eapply (fd_max_covers_every_descriptor 4 3 {[3]} ∅ 10 two_pending).
  - split; [by_evaluation|]. intros p c H. by vm_compute in H.
  - vm_compute. reflexivity.
Defined.

Lemma interest_sets_name_open_descriptors_witness :
  ∃ w', main_turn 4 3 {[3]} ∅ 10 two_pending = Some w' ∧
        interest_is_live 3 w'.
Proof.
  eexists. split; [vm_compute; reflexivity|].
  eapply (interest_sets_name_open_descriptors 4 3 {[3]} ∅ 10 two_pending).
  - split; intros d Hd; unfold two_pending in Hd; simpl in Hd.
    + left. by apply elem_of_singleton in Hd.
    + by apply elem_of_empty in Hd.
  - vm_compute. reflexivity.
Defined.

Lemma listening_socket_stays_armed_witness :
  ∃ w', main_turn 4 3 {[3]} ∅ 10 two_pending = Some w' ∧
        3 ∈ rfds w' ∧ listener_apart 3 w' ∧
        ∃ ds, closed (sys w') = ds ++ closed (sys two_pending) ∧ 3 ∉ ds.
Proof.
  eexists. split; [vm_compute; reflexivity|].
  eapply (listening_socket_stays_armed 4 3 {[3]} ∅ 10 two_pending).
  - intros p c H. by vm_compute in H.
  - by_evaluation.
  - vm_compute. reflexivity.
Defined.

Lemma traversals_keep_to_their_direction_witness :
  ∃ wr w', process_readers 3 one_writer = Some wr ∧
           process_writers 3 wr = Some w' ∧
           sent (sys wr) = sent (sys one_writer) ∧
           capacity (sys wr) = capacity (sys one_writer) ∧
           inbound (sys w') = inbound (sys wr) ∧
           backlog (sys w') = backlog (sys one_writer).
Proof.
  eexists _, _. split; [vm_compute; reflexivity|].
  split; [vm_compute; reflexivity|].
  eapply (traversals_keep_to_their_direction 3 one_writer).
  - vm_compute. reflexivity.
  - vm_compute. reflexivity.
Defined.

Lemma writer_traversal_completes_witness :
  ∃ w' ws',
    (∀ fuel, (length [1%positive] < fuel)%nat →
             process_writers fuel one_writer = Some w') ∧
    well_formed w' [] ws' ∧ ws' `sublist_of` [1%positive] ∧
    buffers_fit w' ∧ Forall (writable w') ws' ∧
    reader_head w' = reader_head one_writer ∧
    (∀ a, a ∈ [] → deref a w' = deref a one_writer).
Proof.
  apply (writer_traversal_completes one_writer [] [1%positive]).
  - split; [reflexivity|]. split;
      [split; [reflexivity|]; exists None; split; reflexivity
      |apply NoDup_singleton].
  - split; by_evaluation.
  - apply Forall_singleton. exists fresh_writer.
    split; [reflexivity|]. split; [by_evaluation|].
    unfold in_range. simpl. by_evaluation.
Defined.


Lemma writers_left_are_armed_witness :
  ∃ w', process_writers 2 one_writer = Some w' ∧
  ∃ ws', well_formed w' [] ws' ∧
         ∀ a, a ∈ ws' → ∃ c, deref a w' = Some c ∧ fd c ∈ wfds w'.
Proof.
  eexists. split; [vm_compute; reflexivity|].
  eapply (writers_left_are_armed 2 one_writer _ [] [1%positive]).
  - split; [reflexivity|]. split;
      [split; [reflexivity|]; exists None; split; reflexivity
      |apply NoDup_singleton].
  - split; by_evaluation.
  - apply Forall_singleton. exists fresh_writer.
    split; [reflexivity|]. split; [by_evaluation|].
    unfold in_range. simpl. by_evaluation.
  - intros a b ca cb Ha Hb _ _ _.
    apply list_elem_of_singleton in Ha, Hb. congruence.
  - vm_compute. reflexivity.
Defined.

Lemma traversal_after_a_completed_request_witness :
  ∃ w',
    process_step rfds_ptr client_read 5 reader_head_loc
      (reader_with_input [request]) = Some (Some (next_loc 1%positive), w') ∧
    writer_head w' = Some 1%positive ∧
    load (next_loc 1%positive) w'
      = Some (writer_head (reader_with_input [request])) ∧
    load reader_head_loc w' = Some (next (fresh_reader 10)) ∧
    4 ∈ rfds w' ∧ 4 ∈ wfds w' ∧
    (writer_head (reader_with_input [request]) = None →
     ∀ fuel, process_loop (S (S fuel)) rfds_ptr client_read 5 reader_head_loc
               (reader_with_input [request]) = Some w').
Proof.
  eapply (traversal_after_a_completed_request 1%positive reader_head_loc
            (fresh_reader 10) (reader_with_input [request]) 5 1).
  - repeat split; by_evaluation.
  - by_evaluation.
  - by_evaluation.
  - vm_compute. reflexivity.
  - lia.
  - vm_compute. intros [=].
Defined.

Lemma end_of_input_closes_reader_witness :
  ∃ w',
    process_step rfds_ptr client_read 5 reader_head_loc
      (one_reader 10 (quiet 10)) = Some (Some reader_head_loc, w') ∧
    deref 1%positive w' = None ∧
    closed (sys w') = 4 :: closed (sys (one_reader 10 (quiet 10))) ∧
    sent (sys w') = sent (sys (one_reader 10 (quiet 10))) ∧
    inbound (sys w') = inbound (sys (one_reader 10 (quiet 10))) ∧
    (4 ∉ rfds w') ∧ (4 ∉ wfds w') ∧
    stderr (sys w') =
      log_closing_disconnect 4 :: log_closing_errno 4
      :: stderr (sys (one_reader 10 (quiet 10))).
Proof.
  apply (end_of_input_closes_reader 1%positive reader_head_loc
           (fresh_reader 10) (one_reader 10 (quiet 10)) 5).
  - by_evaluation.
  - by_evaluation.
  - by_evaluation.
  - by_evaluation.
  - by_evaluation.
  - by_evaluation.
Defined.

Lemma finished_or_failed_writer_is_closed_witness :
  ∃ w',
    process_step wfds_ptr client_write 5 writer_head_loc one_finished_writer
      = Some (Some writer_head_loc, w') ∧
    deref 1%positive w' = None ∧
    closed (sys w') = 4 :: closed (sys one_finished_writer) ∧
    sent (sys w') = sent (sys one_finished_writer) ∧
    (4 ∉ rfds w') ∧ (4 ∉ wfds w') ∧
    stderr (sys w') =
      log_closing_disconnect 4
      :: match current_buffer finished_writer one_finished_writer with
         | None => log_closing_completed 4
         | Some _ => log_closing_errno 4
         end
      :: stderr (sys one_finished_writer).
Proof.
  apply (finished_or_failed_writer_is_closed 1%positive writer_head_loc
           finished_writer one_finished_writer 5).
  - by_evaluation.
  - by_evaluation.
  - by_evaluation.
  - exact I.
  - by_evaluation.
  - by_evaluation.
  - intros buf H. by vm_compute in H.
Defined.

Lemma connection_without_data_is_dropped_at_once_witness :
  ∃ w', after_select 4 3 two_pending = Some w' ∧
        deref (calloc two_pending) w' = None ∧ 4 ∈ closed (sys w').
Proof.
  eexists. split; [vm_compute; reflexivity|].
  eapply (connection_without_data_is_dropped_at_once 4 3 two_pending _ 4 [5]).
  - by_evaluation.
  - by_evaluation.
  - by_evaluation.
  - exact I.
  - by_evaluation.
  - vm_compute. reflexivity.
Defined.

Lemma request_waiting_at_accept_is_answered_in_the_same_turn_witness :
  let n := Z.min 3 (Z.of_nat (length (hdr request_waiting))) in
  ∃ w', after_select 2 3 request_waiting = Some w' ∧
    reader_head w' = None ∧ writer_head w' = Some (calloc request_waiting) ∧
    deref (calloc request_waiting) w' =
      Some (advance n (Z.of_nat (length (hdr request_waiting)))
              (sys_time request_waiting)
              (Client 4 0 None (sys_time request_waiting) 0)) ∧
    sent_on 4 w' = sent_on 4 request_waiting
                   ++ take (Z.to_nat n) (hdr request_waiting) ∧
    inbound (sys w') !! 4 = Some [] ∧ backlog (sys w') = [] ∧
    4 ∈ rfds w' ∧ 4 ∈ wfds w'.
Proof.
  apply (request_waiting_at_accept_is_answered_in_the_same_turn
           2 3 request_waiting 4 [] ["x"; x0a]%byte [] 3 []).
  - by_evaluation.
  - by_evaluation.
  - by_evaluation.
  - by_evaluation.
  - by_evaluation.
  - by_evaluation.
  - by_evaluation.
  - by_evaluation.
  - by_evaluation.
  - by_evaluation.
  - by_evaluation.
Defined.

Lemma header_fits_its_buffer_witness :
  ∃ digits,
    encode_hdr sample_date 1234 =
      Went_on (format_hdr sample_date 1234,
               Z.of_nat (length (format_hdr sample_date 1234))) ∧
    Z.of_nat (length (format_hdr sample_date 1234)) ≤ 232 ∧
    format_hdr sample_date 1234 =
      status_line ++ crlf ++ content_type ++ crlf ++
      date_field ++ sample_date ++ crlf ++
      content_length_field ++ digits ++ crlf ++ crlf ∧
    decimal_numeral digits ∧
    decimal_value digits = 1234 ∧
    (1 ≤ length digits ≤ 20)%nat ∧
    (∀ l, decimal_numeral l → decimal_value l = 1234 → l = digits).
Proof.
  apply (header_fits_its_buffer sample_date 1234).
  - by_evaluation.
  - by_evaluation.
Defined.


Lemma short_read_is_never_made_good_witness :
  load_file shrinking_file sample_date = Ended aborted_size.
Proof.
  apply (short_read_is_never_made_good shrinking_file sample_date
           ["a"; "b"; "c"]%byte ["a"]%byte ["a"]%byte).
  - by_evaluation.
  - by_evaluation.
  - by_evaluation.
  - by_evaluation.
  - intros [|[|k]] Hk; [lia|lia|reflexivity].
  - by_evaluation.
Defined.


Lemma every_record_stays_on_a_list_witness :
  ∃ w', main_turn 4 3 {[3]} ∅ 10 two_pending = Some w' ∧
  ∃ rs' ws', well_formed w' rs' ws' ∧ no_stray w' rs' ws'.
Proof.
  eexists. split; [vm_compute; reflexivity|].
  eapply (every_record_stays_on_a_list 4 3 {[3]} ∅ 10 two_pending _ [] []).
  - split; [reflexivity|]. split; [reflexivity|]. apply NoDup_nil_2.
  - intros p. split.
    + intros [c H]. by vm_compute in H.
    + by intros H%elem_of_nil.
  - vm_compute. reflexivity.
Defined.

Lemma dump_list_prints_the_list_witness :
  (∀ fuel, (length ([] : list ptr) < fuel)%nat →
     ∃ ds, dump_list fuel (reader_head one_writer) one_writer = Some ds ∧
           Forall2 (λ a d, fd <$> deref a one_writer = Some d) [] ds) ∧
  (∀ fuel, (length [1%positive] < fuel)%nat →
     ∃ ds, dump_list fuel (writer_head one_writer) one_writer = Some ds ∧
           Forall2 (λ a d, fd <$> deref a one_writer = Some d)
             [1%positive] ds) ∧
  (∀ fuel head ds, dump_list fuel head one_writer = Some ds →
     ∃ l, seg one_writer head l None ∧ length l = length ds).
Proof.
  apply (dump_list_prints_the_list one_writer [] [1%positive]).
  split; [reflexivity|]. split;
    [split; [reflexivity|]; exists None; split; reflexivity
    |apply NoDup_singleton].
Defined.

Lemma reader_traversal_completes_witness :
  ∃ fuel w' rs' ws',
    (∀ fuel', (fuel ≤ fuel')%nat →
              process_readers fuel' (one_reader 10 (quiet 10)) = Some w') ∧
    well_formed w' rs' ws' ∧ descriptors_open w'.
Proof.
  apply (reader_traversal_completes (one_reader 10 (quiet 10))
           [1%positive] []).
  - split; [|split; [reflexivity|apply NoDup_singleton]].
    split; [reflexivity|]. exists None. split; reflexivity.
  - intros p c H. unfold deref, one_reader in H. simpl in H.
    apply lookup_singleton_Some in H as [_ <-]. by_evaluation.
Defined.
